(** * Dashboard widget layout: a shallow embedding of the client-side logic

    The development follows the dashboard component: the grid packer
    [compactLayoutsUtil], the customize-mode handlers, the preference
    loader with [sanitizeKeys] and [parseWidgetLayouts], and the lead-status
    filter.  Numbers are the integers a layout holds (column, row, width,
    height); objects used as dictionaries are finite maps keyed by strings;
    arrays are lists.  The figures of the leads, deals and task widgets,
    the names shown in the greeting and in the recent activities, and the
    initials and avatar paths of the profile section follow. *)

From Stdlib Require Import ZArith Lia Ascii String.
From stdpp Require Import gmap strings list fin_maps sorting pretty.

Local Open Scope Z_scope.

(** ** Layout records *)

(** An entry of [WidgetLayoutConfig]: [{ x, y, w, h }]. *)
Module WidgetLayout.
Record t : Type := mk { x : Z; y : Z; w : Z; h : Z }.

#[global] Instance eq_dec : EqDecision t.
Proof. solve_decision. Defined.

(** The grid cell in column [c], row [r] lies inside the rectangle. *)
Definition covers (l : t) (c r : Z) : Prop :=
  x l ≤ c < x l + w l ∧ y l ≤ r < y l + h l.

Definition coversb (l : t) (c r : Z) : bool :=
  (x l <=? c) && (c <? x l + w l) && (y l <=? r) && (r <? y l + h l).
End WidgetLayout.

(** [WidgetKey] and [WidgetLayoutConfig] are declared next to the
    customize modal, outside the sources at hand.  Their uses show the
    first to be a union of string literals and the second an object from
    widget keys to layout records.  Widget keys are plain names such as
    [leads] or [emailStats]; none of them is a property every object
    inherits. *)
Abbreviation WidgetKey := string (only parsing).
Abbreviation WidgetLayoutConfig := (gmap string WidgetLayout.t) (only parsing).

(** ** The grid packer *)

Module Packer.

Definition GRID_COLS : Z := 12.

(** [{ key, ...layouts[key] }] *)
Record Item : Type := mkItem { key : string; layout : WidgetLayout.t }.

Definition item_w (it : Item) : Z := WidgetLayout.w (layout it).
Definition item_h (it : Item) : Z := WidgetLayout.h (layout it).

(** The comparator [(a, b) => a.y - b.y || a.x - b.x]: the row difference
    when it is not zero, the column difference otherwise. *)
Definition compareItems (a b : Item) : Z :=
  let d := WidgetLayout.y (layout a) - WidgetLayout.y (layout b) in
  if d =? 0 then WidgetLayout.x (layout a) - WidgetLayout.x (layout b) else d.

(** [Array.prototype.sort] is stable, and the comparator is a total
    preorder on integer positions, so the sorted array is determined: it is
    the one a stable insertion sort builds. *)
Fixpoint insertItem (a : Item) (l : list Item) : list Item :=
  match l with
  | [] => [a]
  | b :: l' => if compareItems a b <=? 0 then a :: b :: l' else b :: insertItem a l'
  end.

Definition sortItems (l : list Item) : list Item := foldr insertItem [] l.

(** [visibleKeys.filter(key => layouts[key]).map(key => ({ key, ...layouts[key] }))] *)
Definition visibleItems (layouts : WidgetLayoutConfig) (visibleKeys : list WidgetKey)
  : list Item :=
  omap (λ k, mkItem k <$> layouts !! k) visibleKeys.

Definition items (layouts : WidgetLayoutConfig) (visibleKeys : list WidgetKey)
  : list Item :=
  sortItems (visibleItems layouts visibleKeys).

(** [grid : boolean[][]]: a sparse array of rows, each row an array of
    cells.  Both are keyed by index. *)
Abbreviation Row := (gmap Z bool) (only parsing).
Abbreviation Grid := (gmap Z (gmap Z bool)) (only parsing).

(** [new Array(GRID_COLS).fill(false)] *)
Definition newRow : Row :=
  list_to_map ((λ c, (c, false)) <$> seqZ 0 GRID_COLS).

(** [grid[r]?.[c]] read as a condition. *)
Definition cell (grid : Grid) (r c : Z) : bool :=
  match grid !! r with
  | Some row => default false (row !! c)
  | None => false
  end.

Definition canPlace (grid : Grid) (x y w h : Z) : bool :=
  if (x <? 0) || (x + w >? GRID_COLS) then false
  else
    forallb (λ dy, forallb (λ dx, negb (cell grid (y + dy) (x + dx))) (seqZ 0 w))
            (seqZ 0 h).

Definition occupy (grid : Grid) (x y w h : Z) : Grid :=
  foldl (λ g dy,
           let row := default newRow (g !! (y + dy)) in
           <[ y + dy := foldl (λ r dx, <[ x + dx := true ]> r) row (seqZ 0 w) ]> g)
        grid (seqZ 0 h).

(** The mutable state of one [compactLayoutsUtil] call: the grid and the
    result under construction. *)
Record PackState : Type := mkState {
  grid : Grid;
  compacted : WidgetLayoutConfig
}.

(** The body of the inner loop at column [x] of row [y].  The state is
    paired with the flag [placed]; both loops stop once it is set, which
    the guard models. *)
Definition tryPosition (item : Item) (y : Z) (acc : PackState * bool) (x : Z)
  : PackState * bool :=
  let '(st, placed) := acc in
  if placed then acc
  else if canPlace (grid st) x y (item_w item) (item_h item) then
    (mkState (occupy (grid st) x y (item_w item) (item_h item))
             (<[ key item := WidgetLayout.mk x y (item_w item) (item_h item) ]>
                (compacted st)),
     true)
  else acc.

(** [for (let x = 0; x <= GRID_COLS - item.w && !placed; x++)] *)
Definition scanRow (item : Item) (acc : PackState * bool) (y : Z)
  : PackState * bool :=
  foldl (tryPosition item y) acc (seqZ 0 (GRID_COLS - item_w item + 1)).

(** [for (let y = 0; y < 100 && !placed; y++)] *)
Definition scanGrid (item : Item) (st : PackState) : PackState * bool :=
  foldl (scanRow item) (st, false) (seqZ 0 100).

(** The branch taken when no scanned position fits. *)
Definition fallback (item : Item) (st : PackState) : PackState :=
  let fallbackY := Z.of_nat (size (compacted st)) * 2 in
  mkState (occupy (grid st) 0 fallbackY (item_w item) (item_h item))
          (<[ key item := WidgetLayout.mk 0 fallbackY (item_w item) (item_h item) ]>
             (compacted st)).

(** The callback of [items.forEach]. *)
Definition placeItem (st : PackState) (item : Item) : PackState :=
  let '(st', placed) := scanGrid item st in
  if placed then st' else fallback item st'.

Definition compactLayoutsUtil (layouts : WidgetLayoutConfig)
    (visibleKeys : list WidgetKey) : WidgetLayoutConfig :=
  compacted (foldl placeItem (mkState ∅ ∅) (items layouts visibleKeys)).

(** *** Specification-side notions for the packer *)

(** The positions the two loops visit, in the order they visit them. *)
Definition scanOrder (rows w : Z) : list (Z * Z) :=
  y ← seqZ 0 rows; (λ x, (x, y)) <$> seqZ 0 (GRID_COLS - w + 1).

(** The first visited position that [canPlace] accepts. *)
Definition findSlot (g : Grid) (w h : Z) : option (Z * Z) :=
  find (λ p, canPlace g p.1 p.2 w h) (scanOrder 100 w).

(** What the loop body does at an accepted position. *)
Definition placeAt (item : Item) (x y : Z) (st : PackState) : PackState :=
  mkState (occupy (grid st) x y (item_w item) (item_h item))
          (<[ key item := WidgetLayout.mk x y (item_w item) (item_h item) ]>
             (compacted st)).

(** No item of the list takes the fallback branch when the items are
    placed one after the other from state [st]. *)
Fixpoint fallbackFree (st : PackState) (its : list Item) : bool :=
  match its with
  | [] => true
  | it :: rest => (scanGrid it st).2 && fallbackFree (placeItem st it) rest
  end.

(** Every widget of the call finds a position in rows 0..99. *)
Definition everyWidgetFits (layouts : WidgetLayoutConfig)
    (visibleKeys : list WidgetKey) : bool :=
  fallbackFree (mkState ∅ ∅) (items layouts visibleKeys).

(** No two entries of a configuration cover a common grid cell. *)
Definition disjointLayouts (c : WidgetLayoutConfig) : Prop :=
  ∀ k1 k2 l1 l2 col row,
    k1 ≠ k2 → c !! k1 = Some l1 → c !! k2 = Some l2 →
    ¬ (WidgetLayout.covers l1 col row ∧ WidgetLayout.covers l2 col row).

(** An entry lies within the columns of the grid. *)
Definition withinGrid (l : WidgetLayout.t) : Prop :=
  0 ≤ WidgetLayout.x l ∧ WidgetLayout.x l + WidgetLayout.w l ≤ GRID_COLS.

(** The invariant of the loop over the items while no item falls back:
    the grid marks every cell of every placed widget, the placed widgets
    are pairwise disjoint, and each lies within the columns. *)
Record safe (st : PackState) : Prop := mkSafe {
  safe_marked : ∀ k l c r,
    compacted st !! k = Some l → WidgetLayout.covers l c r → cell (grid st) r c = true;
  safe_disjoint : disjointLayouts (compacted st);
  safe_within : ∀ k l, compacted st !! k = Some l → withinGrid l
}.

(** Strictly ascending order of (y, then x). *)
Definition strictlyBefore (a b : Item) : Prop := compareItems a b < 0.

(** Ascending order of (y, then x), ties allowed. *)
Definition notAfter (a b : Item) : Prop := compareItems a b ≤ 0.

(** The callback of [items.forEach], noting beside the state the keys
    whose entry in the result was written by the fallback branch: a key
    is noted when its item finds no position in the scan, and struck out
    again when a later item of the same key finds one. *)
Definition placeNoting (acc : PackState * gset string) (item : Item)
  : PackState * gset string :=
  (placeItem acc.1 item,
   if (scanGrid item acc.1).2 then acc.2 ∖ {[ key item ]}
   else {[ key item ]} ∪ acc.2).

(** The keys of the result that the fallback branch placed. *)
Definition fallbackKeys (layouts : WidgetLayoutConfig)
    (visibleKeys : list WidgetKey) : gset string :=
  (foldl placeNoting (mkState ∅ ∅, ∅) (items layouts visibleKeys)).2.

(** The rows a widget of positive height takes; a widget whose height is
    not positive takes none. *)
Definition rowsTaken (it : Item) : Z := Z.max 0 (item_h it).

Definition totalHeight (its : list Item) : Z :=
  foldr (λ it total, rowsTaken it + total) 0 its.

(** The top-left corner of a widget. *)
Definition corner (it : Item) : Z * Z :=
  (WidgetLayout.x (layout it), WidgetLayout.y (layout it)).

(** The layout moved by [dx] columns and [dy] rows. *)
Definition translate (dx dy : Z) (l : WidgetLayout.t) : WidgetLayout.t :=
  WidgetLayout.mk (WidgetLayout.x l + dx) (WidgetLayout.y l + dy)
                  (WidgetLayout.w l) (WidgetLayout.h l).

End Packer.

(** ** First-fit packing, as a reference

    The reference keeps the rectangles placed so far and tests a candidate
    rectangle against them geometrically; it knows nothing of the cell
    grid.  A widget goes to the first position, scanning rows from 0 and
    in each row the columns 0 .. 12 - w, whose rectangle is in bounds and
    overlaps no rectangle placed before. *)

Module FirstFit.

(** Two rectangles have a cell in common. *)
Definition overlaps (a b : WidgetLayout.t) : bool :=
  (Z.max (WidgetLayout.x a) (WidgetLayout.x b)
     <? Z.min (WidgetLayout.x a + WidgetLayout.w a) (WidgetLayout.x b + WidgetLayout.w b))
  && (Z.max (WidgetLayout.y a) (WidgetLayout.y b)
     <? Z.min (WidgetLayout.y a + WidgetLayout.h a) (WidgetLayout.y b + WidgetLayout.h b)).

Definition inBounds (r : WidgetLayout.t) : bool :=
  (0 <=? WidgetLayout.x r) && (WidgetLayout.x r + WidgetLayout.w r <=? 12).

Definition fits (placed : list WidgetLayout.t) (r : WidgetLayout.t) : bool :=
  inBounds r && forallb (λ p, negb (overlaps r p)) placed.

(** Rows 0 .. rows - 1, each row from column 0 to column 12 - w. *)
Definition candidates (rows w : Z) : list (Z * Z) :=
  y ← seqZ 0 rows; (λ x, (x, y)) <$> seqZ 0 (12 - w + 1).

Definition firstFit (rows : Z) (placed : list WidgetLayout.t) (w h : Z)
  : option (Z * Z) :=
  find (λ p, fits placed (WidgetLayout.mk p.1 p.2 w h)) (candidates rows w).

(** One widget: [None] when no position among the scanned rows fits. *)
Definition place (rows : Z)
    (st : list WidgetLayout.t * gmap string WidgetLayout.t) (it : Packer.Item)
  : option (list WidgetLayout.t * gmap string WidgetLayout.t) :=
  p ← firstFit rows st.1 (Packer.item_w it) (Packer.item_h it);
  let r := WidgetLayout.mk p.1 p.2 (Packer.item_w it) (Packer.item_h it) in
  Some (r :: st.1, <[ Packer.key it := r ]> st.2).

Fixpoint placeAll (rows : Z)
    (st : list WidgetLayout.t * gmap string WidgetLayout.t) (its : list Packer.Item)
  : option (list WidgetLayout.t * gmap string WidgetLayout.t) :=
  match its with
  | [] => Some st
  | it :: rest => st' ← place rows st it; placeAll rows st' rest
  end.

(** The layout first-fit gives to the items, taken in the order of the
    list, when each finds a position within the scanned rows. *)
Definition pack (rows : Z) (its : list Packer.Item)
  : option (gmap string WidgetLayout.t) :=
  snd <$> placeAll rows ([], ∅) its.

(** The widgets to pack, read off the two arguments and nothing else: the
    visible keys that have a layout, each with its layout, in the order of
    the list of visible keys. *)
Definition widgets (layouts : gmap string WidgetLayout.t) (visibleKeys : list string)
  : list Packer.Item :=
  k ← visibleKeys;
  match layouts !! k with
  | Some l => [Packer.mkItem k l]
  | None => []
  end.

(** Each widget with its place in that list. *)
Definition numbered (ws : list Packer.Item) : list (nat * Packer.Item) :=
  zip (seq 0 (length ws)) ws.

(** The order in which the widgets are taken: by ascending row, in a row
    by ascending column, and at the same position in the order of the
    list of visible keys. *)
Definition earlier (a b : nat * Packer.Item) : Prop :=
  let la := Packer.layout a.2 in
  let lb := Packer.layout b.2 in
  WidgetLayout.y la < WidgetLayout.y lb ∨
  (WidgetLayout.y la = WidgetLayout.y lb ∧
   (WidgetLayout.x la < WidgetLayout.x lb ∨
    (WidgetLayout.x la = WidgetLayout.x lb ∧ (a.1 < b.1)%nat))).

(** [order] lists the widgets to pack, each once, in the order in which
    they are taken. *)
Definition arrangement (layouts : gmap string WidgetLayout.t)
    (visibleKeys : list string) (order : list (nat * Packer.Item)) : Prop :=
  order ≡ₚ numbered (widgets layouts visibleKeys) ∧ Sorted earlier order.

(** The grid marks exactly the cells of the rectangles placed so far. *)
Definition represents (g : gmap Z (gmap Z bool)) (placed : list WidgetLayout.t) : Prop :=
  ∀ r c, Packer.cell g r c = true ↔ ∃ p, p ∈ placed ∧ WidgetLayout.covers p c r.

End FirstFit.

(** ** JSON text, as the host's [JSON.parse] and [JSON.stringify] treat it

    The two functions belong to the JavaScript host, not to the
    repository; they are modelled after the JSON grammar (ECMA-404).  A
    string is the sequence of bytes of its UTF-8 text.  An escape
    [\uXXXX] is stored as the UTF-8 bytes of that one code unit (two
    escapes that form a surrogate pair are not combined).  Numbers are
    exact; rounding to a double is not modelled. *)

Module Json.

(** A parsed value.  A number is kept as the exact decimal [m * 10^e] its
    text denotes; an object is a finite map from property names to values
    (a repeated name keeps its last value). *)
#[warnings="-register-all"]
Inductive value : Type :=
  | Null
  | Bool (b : bool)
  | Num (m e : Z)
  | Str (s : string)
  | Arr (l : list value)
  | Obj (m : gmap string value).

Definition code (c : ascii) : Z := Z.of_N (N_of_ascii c).
Definition char (n : Z) : ascii := ascii_of_N (Z.to_N n).

Definition dquote : ascii := "034"%char.
Definition backslash : ascii := "092"%char.

Definition isWhitespace (c : ascii) : bool :=
  let n := code c in (n =? 32) || (n =? 9) || (n =? 10) || (n =? 13).

Fixpoint skipWhitespace (s : string) : string :=
  match s with
  | String c r => if isWhitespace c then skipWhitespace r else s
  | EmptyString => s
  end.

Definition digitOf (c : ascii) : option Z :=
  let n := code c in if (48 <=? n) && (n <=? 57) then Some (n - 48) else None.

Definition hexOf (c : ascii) : option Z :=
  let n := code c in
  if (48 <=? n) && (n <=? 57) then Some (n - 48)
  else if (97 <=? n) && (n <=? 102) then Some (n - 87)
  else if (65 <=? n) && (n <=? 70) then Some (n - 55)
  else None.

(** A maximal run of digits: the number read so far, how many digits were
    read, and the rest of the text. *)
Fixpoint readDigits (acc : Z) (count : nat) (s : string) : Z * nat * string :=
  match s with
  | String c r =>
      match digitOf c with
      | Some d => readDigits (acc * 10 + d) (S count) r
      | None => (acc, count, s)
      end
  | EmptyString => (acc, count, s)
  end.

(** A number: an optional minus sign; a single zero or a run of digits
    that does not start with zero; an optional fraction, a dot and at
    least one digit; an optional exponent, [e] or [E], an optional sign
    and at least one digit. *)
Definition readSign (s : string) : bool * string :=
  match s with
  | String c r => if code c =? 45 then (true, r) else (false, s)
  | EmptyString => (false, s)
  end.

Definition readInteger (s : string) : option (Z * string) :=
  match s with
  | String c r =>
      match digitOf c with
      | Some d => if d =? 0 then Some (0, r)
                  else let '(n, _, r') := readDigits 0 0 s in Some (n, r')
      | None => None
      end
  | EmptyString => None
  end.

(** The digits of the fraction extend the mantissa; [scale] counts them. *)
Definition readFraction (int : Z) (s : string) : option (Z * Z * string) :=
  match s with
  | String c r =>
      if code c =? 46 then
        let '(n, k, r') := readDigits int 0 r in
        if decide (k = 0%nat) then None else Some (n, Z.of_nat k, r')
      else Some (int, 0, s)
  | EmptyString => Some (int, 0, s)
  end.

Definition readExponent (s : string) : option (Z * string) :=
  match s with
  | String c r =>
      if (code c =? 101) || (code c =? 69) then
        let '(sign, r1) :=
          match r with
          | String c' r' => if code c' =? 43 then (1, r')
                            else if code c' =? 45 then (-1, r') else (1, r)
          | EmptyString => (1, r)
          end in
        let '(n, k, r2) := readDigits 0 0 r1 in
        if decide (k = 0%nat) then None else Some (sign * n, r2)
      else Some (0, s)
  | EmptyString => Some (0, s)
  end.

Definition parseNumber (s : string) : option (value * string) :=
  let '(negative, s1) := readSign s in
  '(int, s2) ← readInteger s1;
  '(mantissa, scale, s3) ← readFraction int s2;
  '(exponent, s4) ← readExponent s3;
  Some (Num (if negative : bool then - mantissa else mantissa) (exponent - scale), s4).

(** The bytes of the UTF-8 form of a code unit below 65536; strings hold
    text in that form. *)
Definition utf8 (u : Z) : list ascii :=
  if u <? 128 then [char u]
  else if u <? 2048 then [char (192 + u / 64); char (128 + u mod 64)]
  else [char (224 + u / 4096); char (128 + (u / 64) mod 64); char (128 + u mod 64)].

Definition unescape (c : ascii) : option ascii :=
  let n := code c in
  if n =? 34 then Some dquote
  else if n =? 92 then Some backslash
  else if n =? 47 then Some "/"%char
  else if n =? 98 then Some "008"%char
  else if n =? 102 then Some "012"%char
  else if n =? 110 then Some "010"%char
  else if n =? 114 then Some "013"%char
  else if n =? 116 then Some "009"%char
  else None.

Fixpoint prepend (l : list ascii) (s : string) : string :=
  match l with
  | [] => s
  | c :: l' => String c (prepend l' s)
  end.

(** The characters of a string literal after its opening quote, up to and
    including the closing quote. *)
Fixpoint parseChars (s : string) : option (string * string) :=
  match s with
  | EmptyString => None
  | String c r =>
      if code c =? 34 then Some (EmptyString, r)
      else if code c =? 92 then
        match r with
        | String e r' =>
            if code e =? 117 then
              match r' with
              | String h1 (String h2 (String h3 (String h4 r''))) =>
                  a ← hexOf h1; b ← hexOf h2; c' ← hexOf h3; d ← hexOf h4;
                  '(t, rest) ← parseChars r'';
                  Some (prepend (utf8 (((a * 16 + b) * 16 + c') * 16 + d)) t, rest)
              | _ => None
              end
            else
              u ← unescape e;
              '(t, rest) ← parseChars r';
              Some (String u t, rest)
        | EmptyString => None
        end
      else if code c <? 32 then None
      else '(t, rest) ← parseChars r; Some (String c t, rest)
  end.

(** The rest of the text after the literal [p], when the text starts
    with it. *)
Fixpoint dropPrefix (p s : string) : option string :=
  match p with
  | EmptyString => Some s
  | String c p' =>
      match s with
      | String c' s' => if Ascii.eqb c c' then dropPrefix p' s' else None
      | EmptyString => None
      end
  end.

(** Recursive descent over the grammar of values.  [fuel] bounds the
    depth of the calls; [JSON_parse] starts with more than the length of
    the text. *)
Fixpoint parseValue (fuel : nat) (s : string) {struct fuel} : option (value * string) :=
  match fuel with
  | O => None
  | S fuel' =>
      match skipWhitespace s with
      | EmptyString => None
      | String c r =>
          if code c =? 123 then
            match skipWhitespace r with
            | String c' r' =>
                if code c' =? 125 then Some (Obj ∅, r') else parseMembers fuel' ∅ r
            | EmptyString => None
            end
          else if code c =? 91 then
            match skipWhitespace r with
            | String c' r' =>
                if code c' =? 93 then Some (Arr [], r') else parseElements fuel' [] r
            | EmptyString => None
            end
          else if code c =? 34 then
            '(t, rest) ← parseChars r; Some (Str t, rest)
          else if code c =? 116 then rest ← dropPrefix "rue" r; Some (Bool true, rest)
          else if code c =? 102 then rest ← dropPrefix "alse" r; Some (Bool false, rest)
          else if code c =? 110 then rest ← dropPrefix "ull" r; Some (Null, rest)
          else parseNumber (String c r)
      end
  end

(** The members of an object after its opening brace or after a comma:
    a string, a colon, a value, then a comma or the closing brace. *)
with parseMembers (fuel : nat) (acc : gmap string value) (s : string) {struct fuel}
  : option (value * string) :=
  match fuel with
  | O => None
  | S fuel' =>
      match skipWhitespace s with
      | String c r =>
          if code c =? 34 then
            '(k, r1) ← parseChars r;
            match skipWhitespace r1 with
            | String c1 r2 =>
                if code c1 =? 58 then
                  '(v, r3) ← parseValue fuel' r2;
                  match skipWhitespace r3 with
                  | String c3 r4 =>
                      if code c3 =? 44 then parseMembers fuel' (<[ k := v ]> acc) r4
                      else if code c3 =? 125 then Some (Obj (<[ k := v ]> acc), r4)
                      else None
                  | EmptyString => None
                  end
                else None
            | EmptyString => None
            end
          else None
      | EmptyString => None
      end
  end

(** The elements of an array after its opening bracket or after a comma. *)
with parseElements (fuel : nat) (acc : list value) (s : string) {struct fuel}
  : option (value * string) :=
  match fuel with
  | O => None
  | S fuel' =>
      '(v, r1) ← parseValue fuel' s;
      match skipWhitespace r1 with
      | String c r2 =>
          if code c =? 44 then parseElements fuel' (acc ++ [v]) r2
          else if code c =? 93 then Some (Arr (acc ++ [v]), r2)
          else None
      | EmptyString => None
      end
  end.

(** [JSON.parse(text)]: the value, or [None] where the host throws a
    [SyntaxError]. *)
Definition JSON_parse (text : string) : option value :=
  '(v, rest) ← parseValue (S (String.length text)) text;
  match skipWhitespace rest with
  | EmptyString => Some v
  | String _ _ => None
  end.

(** *** [JSON.stringify] of a layout configuration *)

Definition hexDigit (n : Z) : ascii :=
  if n <? 10 then char (48 + n) else char (87 + n).

(** How a character of a string is written between the quotes. *)
Definition escapeChar (c : ascii) : string :=
  let n := code c in
  if n =? 34 then String backslash (String dquote EmptyString)
  else if n =? 92 then String backslash (String backslash EmptyString)
  else if n =? 8 then String backslash "b"
  else if n =? 12 then String backslash "f"
  else if n =? 10 then String backslash "n"
  else if n =? 13 then String backslash "r"
  else if n =? 9 then String backslash "t"
  else if n <? 32 then
    String backslash (String "u" (String "0" (String "0"
      (String (hexDigit (n / 16)) (String (hexDigit (n mod 16)) EmptyString)))))
  else String c EmptyString.

Fixpoint escape (s : string) : string :=
  match s with
  | EmptyString => EmptyString
  | String c r => escapeChar c +:+ escape r
  end.

Definition quote (s : string) : string :=
  String dquote (escape s +:+ String dquote EmptyString).

(** An integer is written in decimal, with a minus sign when negative
    (the host does so for integers of up to 21 digits). *)
Definition numberToString (n : Z) : string :=
  if n <? 0 then "-" +:+ pretty (Z.to_N (- n)) else pretty (Z.to_N n).

(** [{ x, y, w, h }] is written with its properties in that order. *)
Definition stringifyLayout (l : WidgetLayout.t) : string :=
  "{" +:+ quote "x" +:+ ":" +:+ numberToString (WidgetLayout.x l) +:+
  "," +:+ quote "y" +:+ ":" +:+ numberToString (WidgetLayout.y l) +:+
  "," +:+ quote "w" +:+ ":" +:+ numberToString (WidgetLayout.w l) +:+
  "," +:+ quote "h" +:+ ":" +:+ numberToString (WidgetLayout.h l) +:+ "}".

Definition stringifyMember (kl : string * WidgetLayout.t) : string :=
  quote kl.1 +:+ ":" +:+ stringifyLayout kl.2.

(** [JSON.stringify(layouts)] for [layouts : WidgetLayoutConfig].  The
    finite map does not record the order in which the properties were
    added; they are written in the order the map lists them. *)
Definition JSON_stringify (layouts : gmap string WidgetLayout.t) : string :=
  "{" +:+ String.concat "," (stringifyMember <$> map_to_list layouts) +:+ "}".

(** *** A layout configuration as a value, and back *)

Definition ofLayout (l : WidgetLayout.t) : value :=
  Obj (<[ "x" := Num (WidgetLayout.x l) 0 ]>
       (<[ "y" := Num (WidgetLayout.y l) 0 ]>
       (<[ "w" := Num (WidgetLayout.w l) 0 ]>
       (<[ "h" := Num (WidgetLayout.h l) 0 ]> ∅)))).

Definition ofLayouts (layouts : gmap string WidgetLayout.t) : value :=
  Obj (ofLayout <$> layouts).

(** The integer a number is, when it is one. *)
Definition asInteger (v : value) : option Z :=
  match v with
  | Num m e =>
      if 0 <=? e then Some (m * 10 ^ e)
      else if m mod 10 ^ (- e) =? 0 then Some (m / 10 ^ (- e)) else None
  | _ => None
  end.

Definition asLayout (v : value) : option WidgetLayout.t :=
  match v with
  | Obj m =>
      x ← m !! "x" ≫= asInteger; y ← m !! "y" ≫= asInteger;
      w ← m !! "w" ≫= asInteger; h ← m !! "h" ≫= asInteger;
      Some (WidgetLayout.mk x y w h)
  | _ => None
  end.

(** The cast [as WidgetLayoutConfig] is unchecked.  The typed view keeps
    the properties that are layout records of four integers; any other
    content lies outside the typed model of the packer. *)
Definition asLayouts (v : value) : gmap string WidgetLayout.t :=
  match v with
  | Obj m => omap asLayout m
  | _ => ∅
  end.

(** *** Specification-side notions *)

(** What follows a number inside an object: a comma or a closing brace. *)
Definition endsNumber (rest : string) : Prop :=
  ∃ c r, rest = String c r ∧ (code c = 44 ∨ code c = 125).

(** The value the text of a layout parses to. *)
Definition layoutValue (l : WidgetLayout.t) : value :=
  Obj (<[ "h" := Num (WidgetLayout.h l) 0 ]>
       (<[ "w" := Num (WidgetLayout.w l) 0 ]>
       (<[ "y" := Num (WidgetLayout.y l) 0 ]>
       (<[ "x" := Num (WidgetLayout.x l) 0 ]> ∅)))).

(** One step of rebuilding a configuration from its entries. *)
Definition insertLayout (m : gmap string value) (kl : string * WidgetLayout.t)
  : gmap string value :=
  <[ kl.1 := ofLayout kl.2 ]> m.

End Json.

(** ** The dashboard component *)

Module Dashboard.

(** An entry of [DEFAULT_WIDGETS], as far as the component reads it. *)
Record Widget : Type := mkWidget { key : string; visible : bool }.

(** The row of [dashboard_preferences] the query selects.  A column is
    [None] when it is null. *)
Record Prefs : Type := mkPrefs {
  visible_widgets : option (list string);
  card_order : option (list string);
  layout_view : option Json.value
}.

Record Snapshot : Type := mkSnapshot {
  snap_visible : list string;
  snap_order : list string;
  snap_layouts : gmap string WidgetLayout.t
}.

(** The component state the handlers read and set.  The pending set is a
    [Set<WidgetKey>]: its keys in insertion order, each once. *)
Record State : Type := mkState {
  visibleWidgets : list string;
  widgetOrder : list string;
  widgetLayouts : gmap string WidgetLayout.t;
  pendingWidgetChanges : list string;
  originalState : option Snapshot;
  isResizeMode : bool
}.

(** What [savePreferencesMutation.mutate] is called with. *)
Record SavedPrefs : Type := mkSaved {
  widgets : list string;
  order : list string;
  layouts : gmap string WidgetLayout.t
}.

(** *** Truthiness and [typeof] *)

Definition truthy (v : Json.value) : bool :=
  match v with
  | Json.Null => false
  | Json.Bool b => b
  | Json.Num m _ => negb (m =? 0)
  | Json.Str s => negb (String.eqb s "")
  | Json.Arr _ | Json.Obj _ => true
  end.

(** [typeof v === "object"]: objects, arrays and [null]. *)
Definition typeofObject (v : Json.value) : bool :=
  match v with
  | Json.Null | Json.Arr _ | Json.Obj _ => true
  | _ => false
  end.

Definition isNull (v : Json.value) : bool :=
  match v with Json.Null => true | _ => false end.

Definition emptyConfig : Json.value := Json.Obj ∅.

Definition parseWidgetLayouts (dashboardPrefs : option Prefs) : Json.value :=
  match dashboardPrefs ≫= layout_view with
  | None => emptyConfig
  | Some view =>
      if negb (truthy view) then emptyConfig
      else if typeofObject view then view
      else
        match view with
        | Json.Str text =>
            match Json.JSON_parse text with
            | Some parsed =>
                if typeofObject parsed && negb (isNull parsed) then parsed
                else emptyConfig
            | None => emptyConfig
            end
        | _ => emptyConfig
        end
  end.

(** *** Loading the preferences *)

Section Load.

(** [DEFAULT_WIDGETS] is declared next to the customize modal, outside the
    sources at hand; what follows holds for any list of widgets. *)
Variable DEFAULT_WIDGETS : list Widget.

Definition defaultWidgetKeys : list string := key <$> DEFAULT_WIDGETS.

(** [DEFAULT_WIDGETS.find((w) => w.key === k)?.visible] read as a
    condition. *)
Definition visibleByDefault (k : string) : bool :=
  match find (λ w, String.eqb (key w) k) DEFAULT_WIDGETS with
  | Some w => visible w
  | None => false
  end.

Definition defaultVisibleWidgets : list string :=
  filter (λ k, visibleByDefault k = true) defaultWidgetKeys.

(** The callback of [keys.forEach] in [sanitizeKeys], on the pair of
    [uniq] and [seen]. *)
Definition sanitizeStep (allowed : gset string)
    (acc : list string * gset string) (k : string) : list string * gset string :=
  if decide (k ∈ allowed) then
    if decide (k ∈ acc.2) then acc
    else (acc.1 ++ [k], {[ k ]} ∪ acc.2)
  else acc.

Definition sanitizeKeys (keys : list string) : list string :=
  (foldl (sanitizeStep (list_to_set defaultWidgetKeys)) ([], ∅) keys).1.

(** [!user?.id] *)
Definition signedOut (userId : option string) : bool :=
  match userId with
  | Some id => String.eqb id ""
  | None => true
  end.

Definition nextVisibleRaw (dashboardPrefs : option Prefs) : list string :=
  default defaultVisibleWidgets (dashboardPrefs ≫= visible_widgets).

Definition nextOrderRaw (dashboardPrefs : option Prefs) : list string :=
  default defaultWidgetKeys (dashboardPrefs ≫= card_order).

(** The effect that runs when the user or the stored preferences change. *)
Definition loadEffect (userId : option string) (dashboardPrefs : option Prefs)
    (st : State) : State :=
  let st0 := mkState (visibleWidgets st) (widgetOrder st) (widgetLayouts st)
                     (pendingWidgetChanges st) (originalState st) false in
  if signedOut userId then st0
  else
    let nextVisible := sanitizeKeys (nextVisibleRaw dashboardPrefs) in
    let nextOrderBase := sanitizeKeys (nextOrderRaw dashboardPrefs) in
    let missingVisible := filter (λ k, k ∉ nextOrderBase) nextVisible in
    let nextOrder := nextOrderBase ++ missingVisible in
    let loadedLayouts := Json.asLayouts (parseWidgetLayouts dashboardPrefs) in
    let compactedLayouts := Packer.compactLayoutsUtil loadedLayouts nextVisible in
    mkState nextVisible nextOrder compactedLayouts
            (pendingWidgetChanges st0) (originalState st0) (isResizeMode st0).

End Load.

(** *** Customize mode *)

Definition handleLayoutChange (newLayouts : gmap string WidgetLayout.t)
    (st : State) : State :=
  let compacted := Packer.compactLayoutsUtil newLayouts (visibleWidgets st) in
  mkState (visibleWidgets st) (widgetOrder st) compacted
          (pendingWidgetChanges st) (originalState st) (isResizeMode st).

(** [next.has(key) ? next.delete(key) : next.add(key)] on a copy. *)
Definition toggleKey (key : string) (prev : list string) : list string :=
  if decide (key ∈ prev) then filter (λ k, k ≠ key) prev else prev ++ [key].

Definition togglePendingWidget (key : string) (st : State) : State :=
  mkState (visibleWidgets st) (widgetOrder st) (widgetLayouts st)
          (toggleKey key (pendingWidgetChanges st)) (originalState st)
          (isResizeMode st).

(** The toast aside, the same update as [togglePendingWidget]. *)
Definition handleWidgetRemove (key : string) (st : State) : State :=
  togglePendingWidget key st.

Definition willWidgetBeVisible (key : string) (st : State) : bool :=
  let isCurrentlyVisible := bool_decide (key ∈ visibleWidgets st) in
  let isPending := bool_decide (key ∈ pendingWidgetChanges st) in
  if isPending then negb isCurrentlyVisible else isCurrentlyVisible.

Definition handleEnterCustomizeMode (st : State) : State :=
  mkState (visibleWidgets st) (widgetOrder st) (widgetLayouts st)
          (pendingWidgetChanges st)
          (Some (mkSnapshot (visibleWidgets st) (widgetOrder st) (widgetLayouts st)))
          true.

Definition handleCancelCustomize (st : State) : State :=
  match originalState st with
  | Some original =>
      mkState (snap_visible original) (snap_order original) (snap_layouts original)
              [] None false
  | None =>
      mkState (visibleWidgets st) (widgetOrder st) (widgetLayouts st) [] None false
  end.

(** *** The next free position for an added widget *)

Definition COLS : Z := 12.

(** The callback of [Object.values(existingLayouts).forEach]: the cells
    of the layout, cut at the last column, are set. *)
Definition markLayout (grid : gmap Z (gmap Z bool)) (layout : WidgetLayout.t)
  : gmap Z (gmap Z bool) :=
  foldl (λ g row,
           let cells := default Packer.newRow (g !! row) in
           <[ row := foldl (λ r col, <[ col := true ]> r) cells
                       (seqZ (WidgetLayout.x layout)
                             (Z.min (WidgetLayout.x layout + WidgetLayout.w layout) COLS
                              - WidgetLayout.x layout)) ]> g)
        grid (seqZ (WidgetLayout.y layout) (WidgetLayout.h layout)).

(** The grid after [Object.values(existingLayouts).forEach].  The order in
    which the map lists its values is not the insertion order of the
    object; the marked cells do not depend on it. *)
Definition markAll (existing : gmap string WidgetLayout.t) : gmap Z (gmap Z bool) :=
  foldl markLayout ∅ (map_to_list existing).*2.

(** [if (!grid[r]) grid[r] = new Array(COLS).fill(false)] *)
Definition ensureRow (grid : gmap Z (gmap Z bool)) (r : Z) : gmap Z (gmap Z bool) :=
  match grid !! r with
  | Some _ => grid
  | None => <[ r := Packer.newRow ]> grid
  end.

(** The two inner loops at position (x, y); each stops once [fits] is
    false. *)
Definition checkCell (x y dy : Z) (acc : gmap Z (gmap Z bool) * bool) (dx : Z)
  : gmap Z (gmap Z bool) * bool :=
  if acc.2 then (acc.1, negb (Packer.cell acc.1 (y + dy) (x + dx))) else acc.

Definition checkRow (x y widgetWidth : Z) (acc : gmap Z (gmap Z bool) * bool) (dy : Z)
  : gmap Z (gmap Z bool) * bool :=
  if acc.2 then
    foldl (checkCell x y dy) (ensureRow acc.1 (y + dy), true) (seqZ 0 widgetWidth)
  else acc.

Definition checkPosition (grid : gmap Z (gmap Z bool)) (x y widgetWidth widgetHeight : Z)
  : gmap Z (gmap Z bool) * bool :=
  foldl (checkRow x y widgetWidth) (grid, true) (seqZ 0 widgetHeight).

(** The loop over the columns of row [y]; [Some] is the early return. *)
Fixpoint scanColumns (grid : gmap Z (gmap Z bool)) (y widgetWidth widgetHeight : Z)
    (xs : list Z) : gmap Z (gmap Z bool) * option (Z * Z) :=
  match xs with
  | [] => (grid, None)
  | x :: xs' =>
      let '(grid', fits) := checkPosition grid x y widgetWidth widgetHeight in
      if fits then (grid', Some (x, y))
      else scanColumns grid' y widgetWidth widgetHeight xs'
  end.

Fixpoint scanRows (grid : gmap Z (gmap Z bool)) (widgetWidth widgetHeight : Z)
    (ys : list Z) : option (Z * Z) :=
  match ys with
  | [] => None
  | y :: ys' =>
      let '(grid', found) :=
        scanColumns (ensureRow grid y) y widgetWidth widgetHeight
                    (seqZ 0 (COLS - widgetWidth + 1)) in
      match found with
      | Some p => Some p
      | None => scanRows grid' widgetWidth widgetHeight ys'
      end
  end.

Definition findNextGridPosition (existingLayouts : gmap string WidgetLayout.t)
    (widgetWidth widgetHeight : Z) : Z * Z :=
  let grid := markAll existingLayouts in
  match scanRows grid widgetWidth widgetHeight (seqZ 0 100) with
  | Some p => p
  | None => (0, Z.of_nat (size existingLayouts) * 2)
  end.

(** *** Saving *)

(** The callback of [pendingWidgetChanges.forEach]; [visible] is the state
    before the save, the triple is [finalVisible], [finalOrder] and
    [finalLayouts]. *)
Definition applyPendingKey (visible : list string)
    (acc : list string * list string * gmap string WidgetLayout.t) (key : string)
  : list string * list string * gmap string WidgetLayout.t :=
  let '(finalVisible, finalOrder, finalLayouts) := acc in
  if decide (key ∈ visible) then
    (filter (λ w, w ≠ key) finalVisible,
     filter (λ w, w ≠ key) finalOrder,
     delete key finalLayouts)
  else
    let position := findNextGridPosition finalLayouts 3 2 in
    (finalVisible ++ [key],
     (if decide (key ∈ finalOrder) then finalOrder else finalOrder ++ [key]),
     <[ key := WidgetLayout.mk position.1 position.2 3 2 ]> finalLayouts).

Definition applyPending (st : State) (pending : list string)
  : list string * list string * gmap string WidgetLayout.t :=
  foldl (applyPendingKey (visibleWidgets st))
        (visibleWidgets st, widgetOrder st, widgetLayouts st) pending.

Definition handleSaveLayout (st : State) : State * SavedPrefs :=
  let '(finalVisible, finalOrder, finalLayouts) :=
    applyPending st (pendingWidgetChanges st) in
  let compactedLayouts := Packer.compactLayoutsUtil finalLayouts finalVisible in
  (mkState finalVisible finalOrder compactedLayouts [] None false,
   mkSaved finalVisible finalOrder compactedLayouts).

(** *** Specification-side notions *)

(** What the user can do between entering customize mode and leaving it. *)
Inductive CustomizeAction : Type :=
  | LayoutChange (newLayouts : gmap string WidgetLayout.t)
  | TogglePending (key : string)
  | WidgetRemove (key : string).

Definition runAction (st : State) (a : CustomizeAction) : State :=
  match a with
  | LayoutChange newLayouts => handleLayoutChange newLayouts st
  | TogglePending key => togglePendingWidget key st
  | WidgetRemove key => handleWidgetRemove key st
  end.

(** Position [i] holds the first occurrence of [k] in [l]. *)
Definition firstAt (l : list string) (k : string) (i : nat) : Prop :=
  l !! i = Some k ∧ ∀ j, (j < i)%nat → l !! j ≠ Some k.

(** [result] lists the allowed keys of [raw], each once, in the order of
    their first occurrences. *)
Definition firstOccurrences (allowed raw result : list string) : Prop :=
  NoDup result ∧
  (∀ k, k ∈ result ↔ k ∈ raw ∧ k ∈ allowed) ∧
  (∀ i j a b, (i < j)%nat → result !! i = Some a → result !! j = Some b →
     ∃ i' j', firstAt raw a i' ∧ firstAt raw b j' ∧ (i' < j')%nat).

(** Two grids that read the same at every cell. *)
Definition sameCells (g g' : gmap Z (gmap Z bool)) : Prop :=
  ∀ r c, Packer.cell g' r c = Packer.cell g r c.

(** The check of one position, without the rows it creates on the way. *)
Definition freeb (g : gmap Z (gmap Z bool)) (x y w h : Z) : bool :=
  forallb (λ dy, forallb (λ dx, negb (Packer.cell g (y + dy) (x + dx))) (seqZ 0 w)) (seqZ 0 h).

(** The cell is marked by a layout of the configuration, cut at the last
    column. *)
Definition taken (existing : gmap string WidgetLayout.t) (col row : Z) : Prop :=
  ∃ k l, existing !! k = Some l ∧ WidgetLayout.covers l col row ∧ col < COLS.

(** No cell of the rectangle of the given size at position [p] is taken. *)
Definition freeAt (existing : gmap string WidgetLayout.t) (width height : Z)
    (p : Z * Z) : Prop :=
  ∀ col row, p.1 ≤ col < p.1 + width → p.2 ≤ row < p.2 + height →
             ¬ taken existing col row.

(** The positions the scan visits, and the order in which it visits them. *)
Definition scanned (width : Z) (p : Z * Z) : Prop :=
  0 ≤ p.2 < 100 ∧ 0 ≤ p.1 ≤ COLS - width.

Definition before (q p : Z * Z) : Prop :=
  q.2 < p.2 ∨ (q.2 = p.2 ∧ q.1 < p.1).

(** [p] is the first free position of the scan, or, when the scan finds
    none, the position below two rows for each existing layout. *)
Definition nextFreePosition (existing : gmap string WidgetLayout.t)
    (width height : Z) (p : Z * Z) : Prop :=
  (scanned width p ∧ freeAt existing width height p ∧
   ∀ q, scanned width q → before q p → ¬ freeAt existing width height q) ∨
  ((∀ q, scanned width q → ¬ freeAt existing width height q) ∧
   p = (0, Z.of_nat (size existing) * 2)).

(** The text of the toast [handleWidgetRemove] shows; [next] is the
    pending set after the toggle. *)
Definition handleWidgetRemoveToast (key : string) (st : State) : string :=
  let isCurrentlyVisible := bool_decide (key ∈ visibleWidgets st) in
  let next := toggleKey key (pendingWidgetChanges st) in
  if isCurrentlyVisible then
    (if bool_decide (key ∈ next) then "Marked for removal" else "Removal undone")
  else
    (if bool_decide (key ∈ next) then "Marked to add" else "Add undone").

(** [savePreferencesMutation]: the mutation fails when nobody is signed
    in; otherwise it upserts a row, which the preferences query reads back
    with the three columns it selects. *)
Definition savePreferencesMutation (userId : option string) (saved : SavedPrefs)
  : option Prefs :=
  if signedOut userId then None
  else Some (mkPrefs (Some (widgets saved)) (Some (order saved))
                     (Some (Json.Str (Json.JSON_stringify (layouts saved))))).

(** The lists hold keys of the offered widgets only, each at most once, and
    every visible key has a place in the order. *)
Definition wellFormedLists (allowed visible order : list string) : Prop :=
  NoDup visible ∧ NoDup order ∧
  visible ⊆ allowed ∧ order ⊆ allowed ∧ visible ⊆ order.

(** Only visible widgets have a layout. *)
Definition layoutsOfVisible (st : State) : Prop :=
  ∀ k, is_Some (widgetLayouts st !! k) → k ∈ visibleWidgets st.

End Dashboard.

(** ** The lead-status filter *)

Module StatusFilter.

(** What the component renders, as far as it depends on [value]: the value
    handed to the select, the classes of the trigger, and the text of the
    badge when there is one. *)
Record View : Type := mkView {
  selectValue : string;
  triggerClass : list string;
  badge : option string
}.

Definition LeadStatusFilter (value : string) : View :=
  let isActive := negb (String.eqb value "all") in
  mkView (if String.eqb value "" then "all" else value)
         ("w-44" :: if isActive then ["border-primary ring-1 ring-primary/20"] else [])
         (if isActive then Some "1" else None).

End StatusFilter.

(** ** The signed-in user's name and initials *)

Module Profile.

(** [s.includes('@')] *)
Fixpoint includesAt (s : string) : bool :=
  match s with
  | EmptyString => false
  | String c s' => Ascii.eqb c "@" || includesAt s'
  end.

(** [s.split('@')[0]]: the text before the first [@], the whole text when
    there is none. *)
Fixpoint beforeAt (s : string) : string :=
  match s with
  | EmptyString => EmptyString
  | String c s' => if Ascii.eqb c "@" then EmptyString else String c (beforeAt s')
  end.

(** [user.email?.split('@')[0] || null] *)
Definition emailName (email : option string) : option string :=
  match email with
  | Some address =>
      let name := beforeAt address in
      if String.eqb name "" then None else Some name
  | None => None
  end.

(** The query function of [userName].  [full_name] is [data?.full_name]:
    [None] when there is no profile row or the column is null. *)
Definition userName (userId : option string) (full_name email : option string)
  : option string :=
  if Dashboard.signedOut userId then None
  else
    match full_name with
    | Some name =>
        if String.eqb name "" || includesAt name then emailName email else Some name
    | None => emailName email
    end.

(** [s.split(sep)] for a separator of one character. *)
Fixpoint split (sep : ascii) (s : string) : list string :=
  match s with
  | EmptyString => [EmptyString]
  | String c rest =>
      if Ascii.eqb c sep then EmptyString :: split sep rest
      else
        match split sep rest with
        | part :: parts => String c part :: parts
        | [] => [String c EmptyString]
        end
  end.

(** [n[0]] as [join] writes it: nothing for an empty part. *)
Definition firstLetter (part : string) : string :=
  match part with
  | EmptyString => EmptyString
  | String c _ => String c EmptyString
  end.

(** [toUpperCase] on the letters a to z; the names considered are made of
    ASCII characters. *)
Definition upperChar (c : ascii) : ascii :=
  let n := nat_of_ascii c in
  if (97 <=? n)%nat && (n <=? 122)%nat then ascii_of_nat (n - 32) else c.

Fixpoint toUpperCase (s : string) : string :=
  match s with
  | EmptyString => EmptyString
  | String c s' => String (upperChar c) (toUpperCase s')
  end.

Definition isLowerCase (c : ascii) : bool :=
  let n := nat_of_ascii c in (97 <=? n)%nat && (n <=? 122)%nat.

Definition isAsciiChar (c : ascii) : bool := (nat_of_ascii c <? 128)%nat.

Fixpoint allChars (p : ascii → bool) (s : string) : bool :=
  match s with
  | EmptyString => true
  | String c s' => p c && allChars p s'
  end.

(** [name.split(' ').map(n => n[0]).join('').toUpperCase().slice(0, 2) || 'U'] *)
Definition getInitials (name : string) : string :=
  let letters :=
    toUpperCase (String.concat EmptyString (firstLetter <$> split " " name)) in
  let initials := String.substring 0 2 letters in
  if String.eqb initials "" then "U" else initials.

(** [file.name.split('.').pop()]: the text after the last dot, the whole
    name when it has none. *)
Definition fileExt (fileName : string) : string :=
  List.last (split "." fileName) EmptyString.

(** The path [handleAvatarUpload] uploads the file to; nothing is
    uploaded without a user id. *)
Definition handleAvatarUpload (userId fileName : string) : option string :=
  if String.eqb userId "" then None
  else Some (String.append userId (String.append "/avatar." (fileExt fileName))).

(** The paths [handleRemoveAvatar] removes from the storage; nothing is
    removed without a user id or without an avatar. *)
Definition handleRemoveAvatar (userId avatar_url : string) : list string :=
  if String.eqb userId "" || String.eqb avatar_url "" then []
  else [String.append userId "/avatar.png"; String.append userId "/avatar.jpg";
        String.append userId "/avatar.jpeg"; String.append userId "/avatar.webp"].

End Profile.

(** ** Names shown in the recent activities *)

Module Activity.

(** A row of [profiles], as [getDisplayName] reads it. *)
Record UserProfile : Type := mkProfile { id : string; full_name : option string }.

(** The argument of [getDisplayName] is of any type.  Of a value that is
    not a string the function reads whether it is truthy and what [String]
    makes of it. *)
Inductive AnyValue : Type :=
  | Text (s : string)
  | Other (truthy : bool) (shown : string).

(** A character of the class [[0-9a-f]] under the flag [i]. *)
Definition isHex (c : ascii) : bool :=
  let n := nat_of_ascii c in
  ((48 <=? n) && (n <=? 57) || (97 <=? n) && (n <=? 102)
   || (65 <=? n) && (n <=? 70))%nat.

(** [n] characters of the class, then the rest of the text. *)
Fixpoint hexRun (n : nat) (s : string) : option string :=
  match n with
  | O => Some s
  | S n' =>
      match s with
      | String c s' => if isHex c then hexRun n' s' else None
      | EmptyString => None
      end
  end.

Definition hyphen (s : string) : option string :=
  match s with
  | String c s' => if Ascii.eqb c "-" then Some s' else None
  | EmptyString => None
  end.

(** [uuidPattern.test(value)]: groups of 8, 4, 4, 4 and 12 characters of
    the class, hyphens between them, and nothing before or after. *)
Definition uuidPattern (value : string) : bool :=
  let rest :=
    s1 ← hexRun 8 value; s2 ← hyphen s1;
    s3 ← hexRun 4 s2; s4 ← hyphen s3;
    s5 ← hexRun 4 s4; s6 ← hyphen s5;
    s7 ← hexRun 4 s6; s8 ← hyphen s7;
    hexRun 12 s8 in
  match rest with
  | Some rest => String.eqb rest ""
  | None => false
  end.

(** [profile?.full_name || 'Unknown User'] *)
Definition profileName (profile : option UserProfile) : string :=
  match profile ≫= full_name with
  | Some name => if String.eqb name "" then "Unknown User" else name
  | None => "Unknown User"
  end.

Definition getDisplayName (userProfiles : option (list UserProfile))
    (value : AnyValue) : string :=
  match value with
  | Other false _ => "empty"
  | Other true shown => shown
  | Text s =>
      if String.eqb s "" || String.eqb s "empty" then "empty"
      else if uuidPattern s then
        profileName (userProfiles ≫= find (λ p, String.eqb (id p) s))
      else s
  end.

End Activity.

(** ** The figures of the leads widget *)

Module Leads.

(** A row of [leads], as the function reads it.  [created_time] is the
    time value of the stored date, [None] when the column is null. *)
Record Lead : Type := mkLead {
  lead_status : option string;
  lead_name : option string;
  created_time : option Z
}.

Record LeadStats : Type := mkLeadStats {
  total : nat;
  new : nat;
  attempted : nat;
  followUp : nat;
  qualified : nat;
  recentLead : option string
}.

(** [new Date(l.created_time || 0).getTime()] *)
Definition timeOf (l : Lead) : Z := default 0 (created_time l).

(** The comparator of the sort: later leads first. *)
Definition compareLeads (a b : Lead) : Z := timeOf b - timeOf a.

(** The sort is stable and the comparator orders the leads by their time
    values, so the sorted array is the one a stable insertion sort
    builds. *)
Fixpoint insertLead (a : Lead) (l : list Lead) : list Lead :=
  match l with
  | [] => [a]
  | b :: l' => if compareLeads a b <=? 0 then a :: b :: l' else b :: insertLead a l'
  end.

Definition sortLeads (l : list Lead) : list Lead := foldr insertLead [] l.

(** [l.lead_status === name] *)
Definition hasStatus (name : string) (l : Lead) : bool :=
  match lead_status l with
  | Some s => String.eqb s name
  | None => false
  end.

(** The query function of the leads widget.  [sort] sorts the array in
    place, so the counts are taken of the sorted array. *)
Definition leadsStats (data : option (list Lead)) : LeadStats :=
  let leads := sortLeads (default [] data) in
  let recentLead := head leads in
  mkLeadStats (length leads)
              (length (List.filter (hasStatus "New") leads))
              (length (List.filter (hasStatus "Attempted") leads))
              (length (List.filter (hasStatus "Follow-up") leads))
              (length (List.filter (hasStatus "Qualified") leads))
              (match recentLead ≫= lead_name with
               | Some name => if String.eqb name "" then None else Some name
               | None => None
               end).

End Leads.

(** ** The figures of the deals widget *)

Module Deals.

(** A row of [deals] with the columns the query selects and the function
    reads.  Amounts are whole numbers.  [expected_closing_date] is the time
    value of the date; it is [None] when the column is null or empty, and
    also when its text is no date, which the comparisons then reject as
    well. *)
Record Deal : Type := mkDeal {
  stage : option string;
  total_contract_value : option Z;
  created_by : option string;
  lead_owner : option string;
  expected_closing_date : option Z
}.

Record ByStage : Type := mkByStage {
  lead : nat;
  qualified : nat;
  discussions : nat
}.

Record DealStats : Type := mkDealStats {
  total : nat;
  active : nat;
  won : nat;
  lost : nat;
  totalPipeline : Z;
  wonValue : Z;
  closingThisMonth : nat;
  closingValue : Z;
  byStage : ByStage
}.

(** [d.created_by === user?.id]: a null column equals no user id. *)
Definition sameUser (column userId : option string) : bool :=
  match column, userId with
  | Some a, Some b => String.eqb a b
  | _, _ => false
  end.

(** [d.stage === name] *)
Definition inStage (name : string) (d : Deal) : bool :=
  match stage d with
  | Some s => String.eqb s name
  | None => false
  end.

(** [!['Won', 'Lost', 'Dropped'].includes(d.stage)] *)
Definition isActive (d : Deal) : bool :=
  negb (inStage "Won" d || inStage "Lost" d || inStage "Dropped" d).

(** [deals.reduce((sum, d) => sum + (d.total_contract_value || 0), 0)] *)
Definition sumValues (deals : list Deal) : Z :=
  foldl (λ sum d, sum + default 0 (total_contract_value d)) 0 deals.

(** The callback that selects the deals closing this month. *)
Definition closesThisMonth (now monthEnd : Z) (d : Deal) : bool :=
  match expected_closing_date d with
  | None => false
  | Some closeDate => (closeDate <=? monthEnd) && (closeDate >=? now)
  end.

Definition userDeals (userId : option string) (data : option (list Deal))
  : list Deal :=
  List.filter (λ d, sameUser (created_by d) userId || sameUser (lead_owner d) userId)
              (default [] data).

(** The query function of the deals widget; [now] and [monthEnd] are the
    time values of the two dates it builds. *)
Definition dealsStats (userId : option string) (now monthEnd : Z)
    (data : option (list Deal)) : DealStats :=
  let userDeals := userDeals userId data in
  let activeDeals := List.filter isActive userDeals in
  let wonDeals := List.filter (inStage "Won") userDeals in
  let totalPipeline := sumValues activeDeals in
  let wonValue := sumValues wonDeals in
  let closingThisMonth := List.filter (closesThisMonth now monthEnd) activeDeals in
  mkDealStats (length userDeals) (length activeDeals) (length wonDeals)
              (length (List.filter (inStage "Lost") userDeals))
              totalPipeline wonValue
              (length closingThisMonth) (sumValues closingThisMonth)
              (mkByStage (length (List.filter (inStage "Lead") userDeals))
                         (length (List.filter (inStage "Qualified") userDeals))
                         (length (List.filter (inStage "Discussions") userDeals))).

End Deals.

(** ** The figures of the task reminders *)

Module Tasks.

(** A row of [tasks], as the reminders read it.  Dates are texts of the
    form yyyy-MM-dd, made of ASCII characters, which [<] compares
    character by character. *)
Record Task : Type := mkTask {
  due_date : option string;
  priority : option string
}.

Record Reminders : Type := mkReminders {
  tasks : list Task;
  overdue : nat;
  dueToday : nat;
  highPriority : nat;
  total : nat
}.

(** [t.due_date && t.due_date < today] *)
Definition isOverdue (today : string) (t : Task) : bool :=
  match due_date t with
  | Some d => negb (String.eqb d "") && String.ltb d today
  | None => false
  end.

(** [t.due_date === today] *)
Definition isDueToday (today : string) (t : Task) : bool :=
  match due_date t with
  | Some d => String.eqb d today
  | None => false
  end.

(** [t.priority === 'high'] *)
Definition isHighPriority (t : Task) : bool :=
  match priority t with
  | Some p => String.eqb p "high"
  | None => false
  end.

(** What the query function of the task reminders makes of the rows. *)
Definition taskReminders (today : string) (data : option (list Task)) : Reminders :=
  let tasks := default [] data in
  mkReminders (take 5 tasks)
              (length (List.filter (isOverdue today) tasks))
              (length (List.filter (isDueToday today) tasks))
              (length (List.filter isHighPriority tasks))
              (length tasks).

End Tasks.

(** ** Concrete dashboards used below *)

Module Examples.

Definition config (l : list (string * WidgetLayout.t)) : gmap string WidgetLayout.t :=
  list_to_map l.

(** A full-width widget a hundred rows tall above a small one. *)
Definition tallAndSmall : gmap string WidgetLayout.t :=
  config [("leads", WidgetLayout.mk 0 0 12 100);
          ("deals", WidgetLayout.mk 0 1 1 1)].

Definition tallAndSmallKeys : list string := ["leads"; "deals"].

(** Three widgets left sparse by dragging. *)
Definition sparse : gmap string WidgetLayout.t :=
  config [("leads", WidgetLayout.mk 7 2 9 1);
          ("contacts", WidgetLayout.mk 5 5 1 3);
          ("deals", WidgetLayout.mk 9 4 10 3)].

Definition sparseKeys : list string := ["leads"; "contacts"; "deals"].

(** What one compaction makes of [sparse], and what a second one makes
    of that. *)
Definition sparseOnce : gmap string WidgetLayout.t :=
  config [("leads", WidgetLayout.mk 0 0 9 1);
          ("deals", WidgetLayout.mk 0 1 10 3);
          ("contacts", WidgetLayout.mk 10 0 1 3)].

Definition sparseTwice : gmap string WidgetLayout.t :=
  config [("leads", WidgetLayout.mk 0 0 9 1);
          ("contacts", WidgetLayout.mk 9 0 1 3);
          ("deals", WidgetLayout.mk 0 3 10 3)].

(** Two rows of equal cards. *)
Definition cards : gmap string WidgetLayout.t :=
  config [("leads", WidgetLayout.mk 0 3 6 2);
          ("contacts", WidgetLayout.mk 6 3 6 2);
          ("deals", WidgetLayout.mk 0 7 6 2)].

Definition cardsKeys : list string := ["deals"; "leads"; "contacts"].

(** The widgets the dashboard offers, two of them shown by default. *)
Definition widgets : list Dashboard.Widget :=
  [Dashboard.mkWidget "leads" true; Dashboard.mkWidget "deals" true;
   Dashboard.mkWidget "emailStats" false].


(** A dashboard in customize mode: [deals] is marked for removal and
    [emailStats] is marked to be added. *)
Definition customizing : Dashboard.State :=
  Dashboard.mkState ["leads"; "deals"] ["leads"; "deals"; "emailStats"]
    (config [("leads", WidgetLayout.mk 0 0 6 2); ("deals", WidgetLayout.mk 6 0 6 2)])
    ["deals"; "emailStats"] None true.

(** A widget wider than the grid between two that fit. *)
Definition wideInBetween : gmap string WidgetLayout.t :=
  config [("leads", WidgetLayout.mk 0 0 12 99);
          ("deals", WidgetLayout.mk 0 99 13 1);
          ("contacts", WidgetLayout.mk 0 100 1 1)].

Definition wideInBetweenKeys : list string := ["leads"; "deals"; "contacts"].

(** A dashboard whose only widget fills the rows 0 to 99, with
    [emailStats] marked to be added. *)
Definition crowded : Dashboard.State :=
  Dashboard.mkState ["leads"] ["leads"; "emailStats"]
    (config [("leads", WidgetLayout.mk 0 0 12 100)])
    ["emailStats"] None true.

End Examples.

(** * Verification *)

(** ** Facts about the packer *)

Module PackerFacts.
Import Packer.

(** *** Generic facts on [find] and guarded loops *)

Lemma find_app {A} (f : A → bool) (l1 l2 : list A) :
  find f (l1 ++ l2) = match find f l1 with Some a => Some a | None => find f l2 end.
Proof. induction l1 as [|a l1 IH]; simpl; [done|]. by destruct (f a). Qed.

Lemma find_fmap {A B} (f : B → bool) (g : A → B) (l : list A) :
  find f (g <$> l) = g <$> find (f ∘ g) l.
Proof. induction l as [|a l IH]; simpl; [done|]. by destruct (f (g a)). Qed.

Lemma find_ext {A} (f g : A → bool) (l : list A) :
  (∀ a, a ∈ l → f a = g a) → find f l = find g l.
Proof.
  induction l as [|a l IH]; simpl; intros H; [done|].
  rewrite (H a) by left. rewrite IH; [done|]. intros b Hb. apply H. by right.
Qed.

Lemma forallb_Forall {A} (f : A → bool) (l : list A) :
  forallb f l = true ↔ Forall (λ a, f a = true) l.
Proof.
  induction l as [|a l IH]; simpl.
  - split; [constructor|done].
  - rewrite andb_true_iff, IH, Forall_cons. done.
Qed.

(** *** The grid *)

Lemma newRow_false c : default false (newRow !! c) = false.
Proof.
  destruct (newRow !! c) as [b|] eqn:E; [|done]. simpl.
  apply elem_of_list_to_map_2 in E.
  apply list_elem_of_fmap in E as (c' & [= _ ->] & _). done.
Qed.

Lemma markRow_lookup (row : gmap Z bool) (x : Z) (dxs : list Z) (c : Z) :
  foldl (λ r dx, <[ x + dx := true ]> r) row dxs !! c
  = if bool_decide (c - x ∈ dxs) then Some true else row !! c.
Proof.
  revert row. induction dxs as [|d dxs IH]; intros row; cbn [foldl].
  - case_bool_decide as H; [by apply elem_of_nil in H|done].
  - rewrite IH. clear IH.
    destruct (decide (c - x ∈ dxs)) as [Hin|Hin].
    + rewrite (bool_decide_eq_true_2 _ Hin).
      rewrite bool_decide_eq_true_2; [done|by right].
    + rewrite (bool_decide_eq_false_2 _ Hin).
      destruct (decide (c - x = d)) as [<-|Hne].
      * rewrite bool_decide_eq_true_2 by left.
        replace (x + (c - x)) with c by lia. apply lookup_insert_eq.
      * rewrite bool_decide_eq_false_2.
        -- apply lookup_insert_ne. lia.
        -- by intros [?|?]%elem_of_cons.
Qed.

Lemma cell_markRows (g : gmap Z (gmap Z bool)) (x y w : Z) (dys : list Z) (r c : Z) :
  cell (foldl (λ g dy,
           let row := default newRow (g !! (y + dy)) in
           <[ y + dy := foldl (λ r dx, <[ x + dx := true ]> r) row (seqZ 0 w) ]> g)
         g dys) r c
  = cell g r c || (bool_decide (r - y ∈ dys) && bool_decide (c - x ∈ seqZ 0 w)).
Proof.
  revert g. induction dys as [|d dys IH]; intros g; cbn [foldl].
  - case_bool_decide as H; [by apply elem_of_nil in H|]. by rewrite orb_false_r.
  - rewrite IH. clear IH.
    assert (cell (<[ y + d := foldl (λ r dx, <[ x + dx := true ]> r)
                       (default newRow (g !! (y + d))) (seqZ 0 w) ]> g) r c
            = cell g r c || (bool_decide (r - y = d) && bool_decide (c - x ∈ seqZ 0 w)))
      as ->.
    { unfold cell. case_bool_decide as Hr; simpl.
      - subst d. replace (y + (r - y)) with r by lia.
        rewrite lookup_insert_eq, markRow_lookup.
        case_bool_decide; simpl; [by rewrite orb_true_r|].
        rewrite orb_false_r. destruct (g !! r); simpl; [done|]. apply newRow_false.
      - rewrite lookup_insert_ne by lia. by rewrite orb_false_r. }
    rewrite <- orb_assoc. f_equal.
    destruct (bool_decide (c - x ∈ seqZ 0 w)); rewrite ?andb_true_r, ?andb_false_r; [|done].
    destruct (decide (r - y = d)) as [<-|Hne].
    + rewrite (bool_decide_eq_true_2 (r - y = r - y)) by done.
      simpl. symmetry. apply bool_decide_eq_true_2. left.
    + rewrite (bool_decide_eq_false_2 _ Hne). simpl.
      apply bool_decide_ext. rewrite elem_of_cons. split; [by right|by intros [?|?]].
Qed.

Lemma cell_occupy g x y w h r c :
  cell (occupy g x y w h) r c
  = cell g r c || WidgetLayout.coversb (WidgetLayout.mk x y w h) c r.
Proof.
  unfold occupy. rewrite cell_markRows. f_equal.
  unfold WidgetLayout.coversb. simpl.
  destruct (bool_decide (r - y ∈ seqZ 0 h)) eqn:E1;
    destruct (bool_decide (c - x ∈ seqZ 0 w)) eqn:E2;
    [apply bool_decide_eq_true in E1 | apply bool_decide_eq_true in E1
    | apply bool_decide_eq_false in E1 | apply bool_decide_eq_false in E1];
    [apply bool_decide_eq_true in E2 | apply bool_decide_eq_false in E2
    | apply bool_decide_eq_true in E2 | apply bool_decide_eq_false in E2];
    rewrite elem_of_seqZ in E1, E2; simpl; symmetry.
  - repeat (apply andb_true_intro; split); lia.
  - apply not_true_is_false. rewrite !andb_true_iff. lia.
  - apply not_true_is_false. rewrite !andb_true_iff. lia.
  - apply not_true_is_false. rewrite !andb_true_iff. lia.
Qed.

Lemma coversb_covers l c r :
  WidgetLayout.coversb l c r = true ↔ WidgetLayout.covers l c r.
Proof.
  unfold WidgetLayout.coversb, WidgetLayout.covers. rewrite !andb_true_iff. lia.
Qed.

Lemma canPlace_true g x y w h :
  canPlace g x y w h = true ↔
  0 ≤ x ∧ x + w ≤ GRID_COLS ∧
  ∀ c r, WidgetLayout.covers (WidgetLayout.mk x y w h) c r → cell g r c = false.
Proof.
  unfold canPlace, WidgetLayout.covers; simpl.
  destruct (x <? 0) eqn:Ex; simpl.
  { split; [done|]. lia. }
  destruct (x + w >? GRID_COLS) eqn:Ew; simpl.
  { split; [done|]. lia. }
  rewrite forallb_Forall, Forall_seqZ.
  split.
  - intros H. split; [lia|]. split; [lia|]. intros c r [Hc Hr].
    specialize (H (r - y)). rewrite forallb_Forall, Forall_seqZ in H.
    specialize (H ltac:(lia) (c - x) ltac:(lia)).
    replace (y + (r - y)) with r in H by lia.
    replace (x + (c - x)) with c in H by lia.
    by apply negb_true_iff in H.
  - intros (_ & _ & H) dy Hdy. rewrite forallb_Forall, Forall_seqZ. intros dx Hdx.
    apply negb_true_iff, H. lia.
Qed.

(** *** The two scanning loops find the first accepted position *)

Lemma tryPosition_placed item y st xs :
  foldl (tryPosition item y) (st, true) xs = (st, true).
Proof. induction xs as [|x xs IH]; simpl; [done|apply IH]. Qed.

Lemma tryPosition_find item y st xs :
  foldl (tryPosition item y) (st, false) xs
  = match find (λ x, canPlace (grid st) x y (item_w item) (item_h item)) xs with
    | Some x => (placeAt item x y st, true)
    | None => (st, false)
    end.
Proof.
  induction xs as [|x xs IH]; simpl; [done|].
  destruct (canPlace (grid st) x y (item_w item) (item_h item)).
  - apply tryPosition_placed.
  - apply IH.
Qed.

Lemma scanRow_placed item st ys :
  foldl (scanRow item) (st, true) ys = (st, true).
Proof.
  induction ys as [|y ys IH]; simpl; [done|].
  unfold scanRow at 2. by rewrite tryPosition_placed.
Qed.

Lemma scanRows_find item st ys :
  foldl (scanRow item) (st, false) ys
  = match find (λ p, canPlace (grid st) p.1 p.2 (item_w item) (item_h item))
               (y ← ys; (λ x, (x, y)) <$> seqZ 0 (GRID_COLS - item_w item + 1)) with
    | Some p => (placeAt item p.1 p.2 st, true)
    | None => (st, false)
    end.
Proof.
  induction ys as [|y ys IH]; simpl; [done|].
  unfold scanRow at 2. rewrite tryPosition_find, find_app, find_fmap.
  unfold compose; simpl.
  destruct (find _ (seqZ 0 _)) as [x|]; simpl.
  - apply scanRow_placed.
  - apply IH.
Qed.

Lemma scanGrid_findSlot item st :
  scanGrid item st
  = match findSlot (grid st) (item_w item) (item_h item) with
    | Some p => (placeAt item p.1 p.2 st, true)
    | None => (st, false)
    end.
Proof. apply scanRows_find. Qed.

Lemma placeItem_findSlot st item :
  placeItem st item
  = match findSlot (grid st) (item_w item) (item_h item) with
    | Some p => placeAt item p.1 p.2 st
    | None => fallback item st
    end.
Proof.
  unfold placeItem. rewrite scanGrid_findSlot.
  by destruct (findSlot _ _ _).
Qed.

Lemma elem_of_scanOrder rows w x y :
  (x, y) ∈ scanOrder rows w ↔ 0 ≤ y < rows ∧ 0 ≤ x ≤ GRID_COLS - w.
Proof.
  unfold scanOrder. rewrite list_elem_of_bind. split.
  - intros (y' & Hx & Hy). apply list_elem_of_fmap in Hx as (x' & [= -> ->] & Hx).
    rewrite elem_of_seqZ in Hx, Hy. lia.
  - intros [Hy Hx]. exists y. split.
    + apply list_elem_of_fmap. exists x. split; [done|]. rewrite elem_of_seqZ. lia.
    + rewrite elem_of_seqZ. lia.
Qed.

Lemma findSlot_Some g w h p :
  findSlot g w h = Some p →
  0 ≤ p.2 < 100 ∧ canPlace g p.1 p.2 w h = true.
Proof.
  intros [Hin Hok]%find_some. split; [|done].
  apply list_elem_of_In in Hin. destruct p as [x y].
  apply elem_of_scanOrder in Hin. simpl. lia.
Qed.

(** *** What a step does to the result *)

Lemma placeItem_compacted st item :
  ∃ x y, compacted (placeItem st item)
         = <[ key item := WidgetLayout.mk x y (item_w item) (item_h item) ]> (compacted st).
Proof.
  rewrite placeItem_findSlot. destruct (findSlot _ _ _) as [[x y]|]; simpl; eauto.
Qed.


(** *** The processing order *)

Lemma insertItem_Permutation a l : insertItem a l ≡ₚ a :: l.
Proof.
  induction l as [|b l IH]; simpl; [done|].
  destruct (compareItems a b <=? 0); [done|].
  rewrite IH. apply Permutation_swap.
Qed.

Lemma sortItems_Permutation l : sortItems l ≡ₚ l.
Proof.
  induction l as [|a l IH]; simpl; [done|].
  rewrite insertItem_Permutation. by rewrite IH.
Qed.

Lemma elem_of_visibleItems (layouts : gmap string WidgetLayout.t) ks it :
  it ∈ visibleItems layouts ks ↔ key it ∈ ks ∧ layouts !! key it = Some (layout it).
Proof.
  unfold visibleItems. rewrite list_elem_of_omap. split.
  - intros (k & Hk & Hit). destruct (layouts !! k) as [l|] eqn:E; [|done].
    simpl in Hit. injection Hit as <-. simpl. done.
  - intros [Hk Hl]. exists (key it). split; [done|]. rewrite Hl. by destruct it.
Qed.

Lemma elem_of_items (layouts : gmap string WidgetLayout.t) ks it :
  it ∈ items layouts ks ↔ key it ∈ ks ∧ layouts !! key it = Some (layout it).
Proof. unfold items. rewrite sortItems_Permutation. apply elem_of_visibleItems. Qed.

Lemma compareItems_le a b :
  compareItems a b ≤ 0 ↔
  WidgetLayout.y (layout a) < WidgetLayout.y (layout b) ∨
  (WidgetLayout.y (layout a) = WidgetLayout.y (layout b) ∧
   WidgetLayout.x (layout a) ≤ WidgetLayout.x (layout b)).
Proof. unfold compareItems. simpl. destruct (_ =? 0) eqn:E; lia. Qed.

Lemma compareItems_lt a b :
  compareItems a b < 0 ↔
  WidgetLayout.y (layout a) < WidgetLayout.y (layout b) ∨
  (WidgetLayout.y (layout a) = WidgetLayout.y (layout b) ∧
   WidgetLayout.x (layout a) < WidgetLayout.x (layout b)).
Proof. unfold compareItems. simpl. destruct (_ =? 0) eqn:E; lia. Qed.

#[export] Instance notAfter_trans : Transitive notAfter.
Proof. intros a b c. unfold notAfter. rewrite !compareItems_le. lia. Qed.

#[export] Instance strictlyBefore_trans : Transitive strictlyBefore.
Proof. intros a b c. unfold strictlyBefore. rewrite !compareItems_lt. lia. Qed.

Lemma insertItem_sorted a l :
  StronglySorted notAfter l → StronglySorted notAfter (insertItem a l).
Proof.
  induction 1 as [|b l Hl IH Hb]; simpl.
  - by repeat constructor.
  - destruct (compareItems a b <=? 0) eqn:E.
    + apply Z.leb_le in E. constructor; [by constructor|].
      constructor; [done|]. eapply Forall_impl; [exact Hb|].
      intros c Hc. by trans b.
    + apply Z.leb_gt in E. constructor; [done|].
      rewrite insertItem_Permutation. constructor; [|done].
      unfold notAfter. rewrite compareItems_le.
      unfold compareItems in E. simpl in E. destruct (_ =? 0) eqn:E' in E; lia.
Qed.

Lemma sortItems_sorted l : StronglySorted notAfter (sortItems l).
Proof.
  induction l as [|a l IH]; simpl; [constructor|]. by apply insertItem_sorted.
Qed.

(** A list in ascending order that rearranges a strictly ascending list
    is that list. *)
Lemma ascending_unique l s :
  StronglySorted strictlyBefore s → StronglySorted notAfter l → l ≡ₚ s → l = s.
Proof.
  intros Hs. revert l. induction Hs as [|a s Hs IH Ha]; intros l Hl Hp.
  - by apply Permutation_nil_r in Hp.
  - destruct l as [|b l]; [by apply Permutation_nil_cons in Hp|].
    apply StronglySorted_inv in Hl as [Hl Hb].
    assert (b = a) as ->.
    { assert (b ∈ a :: s) as [->|Hbs]%elem_of_cons by (rewrite <- Hp; left); [done|].
      assert (a ∈ b :: l) as [->|Hal]%elem_of_cons by (rewrite Hp; left); [done|].
      rewrite Forall_forall in Ha, Hb.
      specialize (Ha b Hbs). specialize (Hb a Hal).
      unfold strictlyBefore in Ha. unfold notAfter in Hb.
      rewrite compareItems_lt in Ha. rewrite compareItems_le in Hb. lia. }
    f_equal. apply IH; [done|]. by apply Permutation_cons_inv in Hp.
Qed.

(** *** Keys and sizes of the result *)

Lemma foldl_placeItem_lookup its st k l :
  compacted (foldl placeItem st its) !! k = Some l →
  compacted st !! k = Some l ∨
  ∃ it, it ∈ its ∧ key it = k ∧
        WidgetLayout.w l = item_w it ∧ WidgetLayout.h l = item_h it.
Proof.
  revert st. induction its as [|it its IH]; intros st; simpl; [by left|].
  intros [H|(it' & Hin & Hk)]%IH.
  - destruct (placeItem_compacted st it) as (x & y & Heq). rewrite Heq in H.
    destruct (decide (key it = k)) as [<-|Hne].
    + rewrite lookup_insert_eq in H. injection H as <-. right.
      exists it. split; [left|done].
    + rewrite lookup_insert_ne in H by done. by left.
  - right. exists it'. split; [by right|done].
Qed.

Lemma foldl_placeItem_is_Some its st k :
  is_Some (compacted (foldl placeItem st its) !! k) ↔
  is_Some (compacted st !! k) ∨ k ∈ key <$> its.
Proof.
  revert st. induction its as [|it its IH]; intros st; simpl.
  - split; [by left|]. intros [?|?%elem_of_nil]; done.
  - rewrite IH. destruct (placeItem_compacted st it) as (x & y & ->).
    rewrite lookup_insert_is_Some, elem_of_cons.
    destruct (decide (key it = k)) as [->|Hne]; [split; auto|].
    split.
    + intros [[?|[_ ?]]|?]; auto.
    + intros [?|[?|?]]; auto.
Qed.


(** An entry of the result belongs to a visible key and has the size of
    the input entry of that key. *)
Lemma compactLayoutsUtil_lookup_Some (layouts : gmap string WidgetLayout.t)
    (visibleKeys : list string) k l :
  compactLayoutsUtil layouts visibleKeys !! k = Some l →
  k ∈ visibleKeys ∧
  ∃ l0, layouts !! k = Some l0 ∧
        WidgetLayout.w l = WidgetLayout.w l0 ∧ WidgetLayout.h l = WidgetLayout.h l0.
Proof.
  unfold compactLayoutsUtil.
  intros [H|(it & Hit & <- & Hw & Hh)]%foldl_placeItem_lookup.
  - simpl in H. by rewrite lookup_empty in H.
  - apply elem_of_items in Hit as [? Hl]. eauto.
Qed.

(** A visible key with an input entry has an entry in the result. *)
Lemma compactLayoutsUtil_lookup_is_Some (layouts : gmap string WidgetLayout.t)
    (visibleKeys : list string) k :
  k ∈ visibleKeys → is_Some (layouts !! k) →
  is_Some (compactLayoutsUtil layouts visibleKeys !! k).
Proof.
  intros Hk [l Hl]. unfold compactLayoutsUtil. apply foldl_placeItem_is_Some.
  right. apply list_elem_of_fmap. exists (mkItem k l). split; [done|].
  by apply elem_of_items.
Qed.

(** *** Safety of the scanned placements *)

Lemma safe_init : safe (mkState ∅ ∅).
Proof.
  split; simpl; [intros ???? H|intros ?????? _ H|intros ?? H];
    by rewrite lookup_empty in H.
Qed.

Lemma safe_placeAt item x y st :
  safe st → canPlace (grid st) x y (item_w item) (item_h item) = true →
  safe (placeAt item x y st).
Proof.
  intros [Hm Hd Hw] (Hx & Hxw & Hfree)%canPlace_true.
  split; simpl.
  - intros k l c r Hl Hc. rewrite cell_occupy.
    destruct (decide (key item = k)) as [<-|Hne].
    + rewrite lookup_insert_eq in Hl. injection Hl as <-.
      apply coversb_covers in Hc. rewrite Hc. apply orb_true_r.
    + rewrite lookup_insert_ne in Hl by done. by rewrite (Hm k l c r).
  - intros k1 k2 l1 l2 c r Hne H1 H2 [Hc1 Hc2].
    destruct (decide (key item = k1)) as [<-|Hne1];
      destruct (decide (key item = k2)) as [<-|Hne2]; try done.
    + rewrite lookup_insert_eq in H1. injection H1 as <-.
      rewrite lookup_insert_ne in H2 by done.
      specialize (Hfree c r Hc1). by rewrite (Hm _ _ _ _ H2 Hc2) in Hfree.
    + rewrite lookup_insert_eq in H2. injection H2 as <-.
      rewrite lookup_insert_ne in H1 by done.
      specialize (Hfree c r Hc2). by rewrite (Hm _ _ _ _ H1 Hc1) in Hfree.
    + rewrite lookup_insert_ne in H1, H2 by done. by eapply (Hd k1 k2).
  - intros k l Hl. destruct (decide (key item = k)) as [<-|Hne].
    + rewrite lookup_insert_eq in Hl. injection Hl as <-. by split.
    + rewrite lookup_insert_ne in Hl by done. by eapply Hw.
Qed.

Lemma fallbackFree_step st it rest :
  fallbackFree st (it :: rest) = true →
  ∃ p, findSlot (grid st) (item_w it) (item_h it) = Some p ∧
       placeItem st it = placeAt it p.1 p.2 st ∧
       fallbackFree (placeAt it p.1 p.2 st) rest = true.
Proof.
  simpl. rewrite placeItem_findSlot, scanGrid_findSlot.
  destruct (findSlot _ _ _) as [p|]; simpl; [|done]. eauto.
Qed.

Lemma safe_foldl its st :
  safe st → fallbackFree st its = true → safe (foldl placeItem st its).
Proof.
  revert st. induction its as [|it its IH]; intros st Hs Hf; [done|].
  destruct (fallbackFree_step _ _ _ Hf) as (p & Hp & Heq & Hrest).
  cbn [foldl]. rewrite Heq. apply IH; [|done].
  apply safe_placeAt; [done|]. by apply findSlot_Some in Hp as [_ ?].
Qed.

(** A widget that is at most as wide as the grid stays within its
    columns on the fallback branch as well. *)
Lemma placeItem_within st item :
  (∀ k l, compacted st !! k = Some l →
          WidgetLayout.w l ≤ GRID_COLS → withinGrid l) →
  ∀ k l, compacted (placeItem st item) !! k = Some l →
         WidgetLayout.w l ≤ GRID_COLS → withinGrid l.
Proof.
  intros Hst k l. rewrite placeItem_findSlot.
  destruct (findSlot _ _ _) as [p|] eqn:Hp; simpl.
  - apply findSlot_Some in Hp as [_ (? & ? & _)%canPlace_true].
    destruct (decide (key item = k)) as [<-|Hne].
    + rewrite lookup_insert_eq. intros [= <-] _. by split.
    + rewrite lookup_insert_ne by done. apply Hst.
  - destruct (decide (key item = k)) as [<-|Hne].
    + rewrite lookup_insert_eq. intros [= <-]. unfold withinGrid. simpl. lia.
    + rewrite lookup_insert_ne by done. apply Hst.
Qed.

Lemma compactLayoutsUtil_within_when_narrow layouts ks k l :
  compactLayoutsUtil layouts ks !! k = Some l →
  WidgetLayout.w l ≤ GRID_COLS → withinGrid l.
Proof.
  unfold compactLayoutsUtil. generalize (items layouts ks). intros its.
  assert (∀ k l, compacted (mkState ∅ ∅) !! k = Some l →
                 WidgetLayout.w l ≤ GRID_COLS → withinGrid l) as Hinit.
  { intros ??. simpl. by rewrite lookup_empty. }
  revert Hinit k l. generalize (mkState ∅ ∅).
  induction its as [|it its IH]; intros st Hst; simpl; [done|].
  apply IH. by apply placeItem_within.
Qed.

End PackerFacts.

(** ** Scanning by rows and columns *)

Module ScanFacts.
Import PackerFacts.

Lemma find_seqZ_least (f : Z → bool) m n a :
  find f (seqZ m n) = Some a →
  f a = true ∧ m ≤ a < m + n ∧ ∀ b, m ≤ b < a → f b = false.
Proof.
  remember (Z.to_nat n) as k eqn:Hk. revert m n Hk.
  induction k as [|k IH]; intros m n Hk.
  - rewrite seqZ_nil by lia. done.
  - rewrite seqZ_cons by lia. simpl. destruct (f m) eqn:Hm.
    + intros [= <-]. split; [done|]. split; [lia|]. intros b ?. lia.
    + intros Hf. apply IH in Hf as (Ha & Hr & Hb); [|lia].
      split; [done|]. split; [lia|]. intros b ?.
      destruct (decide (b = m)) as [->|?]; [done|]. apply Hb. lia.
Qed.

Lemma find_rows {A B} (f : B → bool) (g : A → list B) (ys : list A) :
  find f (ys ≫= g)
  = y ← find (λ y, bool_decide (is_Some (find f (g y)))) ys; find f (g y).
Proof.
  induction ys as [|y ys IH]; simpl; [done|].
  rewrite find_app. destruct (find f (g y)) as [b|] eqn:E.
  - rewrite bool_decide_eq_true_2 by eauto. simpl. done.
  - rewrite bool_decide_eq_false_2 by (by intros [??]). done.
Qed.

(** The first hit of a scan by rows and columns comes before every
    other hit, and no hit at all means none in range. *)
Lemma find_scan_least (f : Z * Z → bool) rows cols p :
  find f (y ← seqZ 0 rows; (λ x, (x, y)) <$> seqZ 0 cols) = Some p →
  f p = true ∧ 0 ≤ p.2 < rows ∧ 0 ≤ p.1 < cols ∧
  ∀ x y, 0 ≤ y → 0 ≤ x < cols → y < p.2 ∨ (y = p.2 ∧ x < p.1) → f (x, y) = false.
Proof.
  rewrite find_rows.
  destruct (find _ (seqZ 0 rows)) as [y0|] eqn:Hy; simpl; [|done].
  rewrite find_fmap. unfold compose.
  destruct (find _ (seqZ 0 cols)) as [x0|] eqn:Hx; simpl; [|done].
  intros [= <-]. simpl.
  apply find_seqZ_least in Hy as (_ & Hy0 & Hrows).
  apply find_seqZ_least in Hx as (Hfit & Hx0 & Hcols).
  split; [done|]. split; [lia|]. split; [lia|]. intros x y Hy Hx [Hlt|[-> Hlt]].
  - specialize (Hrows y ltac:(lia)). apply bool_decide_eq_false in Hrows.
    rewrite find_fmap in Hrows. unfold compose in Hrows.
    destruct (find _ (seqZ 0 cols)) as [x1|] eqn:Hx1 in Hrows.
    { exfalso. apply Hrows. eauto. }
    eapply find_none in Hx1; [exact Hx1|].
    apply list_elem_of_In, elem_of_seqZ. lia.
  - apply Hcols. lia.
Qed.

Lemma find_scan_none (f : Z * Z → bool) rows cols :
  find f (y ← seqZ 0 rows; (λ x, (x, y)) <$> seqZ 0 cols) = None →
  ∀ x y, 0 ≤ y < rows → 0 ≤ x < cols → f (x, y) = false.
Proof.
  intros Hnone x y Hy Hx. eapply find_none in Hnone; [exact Hnone|].
  apply list_elem_of_In, list_elem_of_bind. exists y. split.
  - apply list_elem_of_fmap. exists x. split; [done|]. apply elem_of_seqZ. lia.
  - apply elem_of_seqZ. lia.
Qed.

End ScanFacts.

(** ** The reference first-fit and its relation to the grid *)

Module FirstFitFacts.
Import Packer PackerFacts ScanFacts.

Lemma overlaps_spec a b :
  FirstFit.overlaps a b = true ↔
  ∃ c r, WidgetLayout.covers a c r ∧ WidgetLayout.covers b c r.
Proof.
  unfold FirstFit.overlaps, WidgetLayout.covers. rewrite andb_true_iff, !Z.ltb_lt.
  split.
  - intros [Hx Hy].
    exists (Z.max (WidgetLayout.x a) (WidgetLayout.x b)),
           (Z.max (WidgetLayout.y a) (WidgetLayout.y b)). lia.
  - intros (c & r & ? & ?). lia.
Qed.

Lemma fits_spec placed r :
  FirstFit.fits placed r = true ↔
  withinGrid r ∧
  ∀ p c row, p ∈ placed →
    ¬ (WidgetLayout.covers r c row ∧ WidgetLayout.covers p c row).
Proof.
  unfold FirstFit.fits, FirstFit.inBounds, withinGrid, GRID_COLS.
  rewrite !andb_true_iff, forallb_Forall, Forall_forall, Z.leb_le, Z.leb_le.
  split.
  - intros [Hb Hno]. split; [done|]. intros p c row Hp Hc.
    specialize (Hno p Hp). apply negb_true_iff in Hno.
    apply not_true_iff_false in Hno. apply Hno, overlaps_spec. eauto.
  - intros [Hb Hno]. split; [done|]. intros p Hp.
    apply negb_true_iff, not_true_iff_false. intros (c & row & ?)%overlaps_spec.
    by apply (Hno p c row).
Qed.

Lemma represents_empty : FirstFit.represents ∅ [].
Proof.
  intros r c. unfold cell. rewrite lookup_empty. split; [done|].
  by intros (p & ?%elem_of_nil & _).
Qed.

Lemma represents_occupy g placed x y w h :
  FirstFit.represents g placed →
  FirstFit.represents (occupy g x y w h) (WidgetLayout.mk x y w h :: placed).
Proof.
  intros Hg r c. rewrite cell_occupy, orb_true_iff, (Hg r c), coversb_covers. split.
  - intros [(p & Hp & Hc)|Hc]; [exists p; split; [by right|done]|].
    eexists; split; [left|done].
  - intros (p & [->|Hp]%elem_of_cons & Hc); [by right|left; eauto].
Qed.

Lemma canPlace_fits g placed x y w h :
  FirstFit.represents g placed →
  canPlace g x y w h = FirstFit.fits placed (WidgetLayout.mk x y w h).
Proof.
  intros Hg. apply eq_true_iff_eq. rewrite canPlace_true, fits_spec.
  unfold withinGrid; simpl. split.
  - intros (Hx & Hw & Hfree). split; [done|]. intros p c row Hp [Hc Hpc].
    specialize (Hfree c row Hc). apply not_true_iff_false in Hfree.
    apply Hfree, Hg. eauto.
  - intros ([Hx Hw] & Hno). split; [done|]. split; [done|]. intros c r Hc.
    apply not_true_iff_false. intros (p & Hp & Hpc)%Hg. by apply (Hno p c r).
Qed.

Lemma findSlot_firstFit g placed w h :
  FirstFit.represents g placed → findSlot g w h = FirstFit.firstFit 100 placed w h.
Proof.
  intros Hg. unfold findSlot, FirstFit.firstFit. apply find_ext.
  intros [x y] _. by apply canPlace_fits.
Qed.

Lemma placeAll_simulation its st placed out res :
  FirstFit.represents (grid st) placed → compacted st = out →
  FirstFit.placeAll 100 (placed, out) its = Some res →
  compacted (foldl placeItem st its) = res.2 ∧ fallbackFree st its = true.
Proof.
  revert st placed out. induction its as [|it its IH]; intros st placed out Hg Hc; simpl.
  - intros [= <-]. done.
  - unfold FirstFit.place at 1. simpl.
    rewrite <- (findSlot_firstFit (grid st)) by done.
    rewrite placeItem_findSlot, scanGrid_findSlot.
    destruct (findSlot _ _ _) as [[x y]|]; simpl; [|done].
    intros Hrest. eapply IH; [| |exact Hrest]; simpl.
    + by apply represents_occupy.
    + by rewrite Hc.
Qed.

(** *** The position found is the first one of the unbounded scan *)

Lemma firstFit_least rows placed w h p :
  FirstFit.firstFit rows placed w h = Some p →
  FirstFit.fits placed (WidgetLayout.mk p.1 p.2 w h) = true ∧
  0 ≤ p.2 < rows ∧
  ∀ x y, 0 ≤ y → y < p.2 ∨ (y = p.2 ∧ x < p.1) →
         FirstFit.fits placed (WidgetLayout.mk x y w h) = false.
Proof.
  unfold FirstFit.firstFit, FirstFit.candidates.
  intros (Hfit & Hy & Hx & Hleast)%find_scan_least.
  split; [done|]. split; [done|]. intros x y Hy0 Hbefore.
  destruct (decide (0 ≤ x ∧ x + w ≤ 12)) as [Hin|Hout].
  - apply (Hleast x y); [done|lia|done].
  - unfold FirstFit.fits, FirstFit.inBounds. simpl.
    apply andb_false_iff. left. apply not_true_iff_false.
    rewrite andb_true_iff, !Z.leb_le. lia.
Qed.

(** Scanning more rows does not change the position found. *)
Lemma firstFit_more_rows rows rows' placed w h p :
  FirstFit.firstFit rows placed w h = Some p → rows ≤ rows' →
  FirstFit.firstFit rows' placed w h = Some p.
Proof.
  unfold FirstFit.firstFit, FirstFit.candidates.
  intros (Hfit & Hy & Hx & Hleast)%find_scan_least Hrows.
  destruct (find _ (y ← seqZ 0 rows'; _)) as [q|] eqn:Hq.
  - apply find_scan_least in Hq as (Hfitq & Hyq & Hxq & Hleastq).
    destruct p as [px py], q as [qx qy]. cbn [fst snd] in *.
    destruct (decide (qy < py ∨ (qy = py ∧ qx < px))) as [Hlt|Hnlt].
    { pose proof (Hleast qx qy ltac:(lia) ltac:(lia) Hlt) as Hf.
      cbn [fst snd] in Hf. congruence. }
    destruct (decide (py < qy ∨ (py = qy ∧ px < qx))) as [Hgt|Hngt].
    { pose proof (Hleastq px py ltac:(lia) ltac:(lia) Hgt) as Hf.
      cbn [fst snd] in Hf. congruence. }
    do 2 f_equal; lia.
  - destruct p as [px py]. cbn [fst snd] in *.
    pose proof (find_scan_none _ _ _ Hq px py ltac:(lia) ltac:(lia)) as Hf.
    cbn [fst snd] in Hf. congruence.
Qed.

Lemma placeAll_more_rows rows rows' its st res :
  FirstFit.placeAll rows st its = Some res → rows ≤ rows' →
  FirstFit.placeAll rows' st its = Some res.
Proof.
  intros Hres Hrows. revert st Hres.
  induction its as [|it its IH]; intros st; simpl; [done|].
  unfold FirstFit.place.
  destruct (FirstFit.firstFit rows _ _ _) as [p|] eqn:Hp; simpl; [|done].
  rewrite (firstFit_more_rows _ _ _ _ _ _ Hp Hrows). simpl. apply IH.
Qed.

End FirstFitFacts.

(** ** What holds of the packer when widgets fall back *)

Module FallbackFacts.
Import Packer PackerFacts.

(** The grid marks every cell of every entry of the result so far. *)
Lemma placeItem_marked st item :
  (∀ k l c r, compacted st !! k = Some l → WidgetLayout.covers l c r →
              cell (grid st) r c = true) →
  ∀ k l c r, compacted (placeItem st item) !! k = Some l → WidgetLayout.covers l c r →
             cell (grid (placeItem st item)) r c = true.
Proof.
  intros Hst k l c r. rewrite placeItem_findSlot.
  destruct (findSlot _ _ _) as [p|]; simpl; rewrite cell_occupy;
    (destruct (decide (k = key item)) as [->|Hne];
     [rewrite lookup_insert_eq; intros [= <-] Hc; apply orb_true_iff; right;
      by apply coversb_covers
     |rewrite lookup_insert_ne by done; intros Hl Hc; apply orb_true_iff; left;
      by eapply Hst]).
Qed.

Lemma foldl_placeItem_marked its st :
  (∀ k l c r, compacted st !! k = Some l → WidgetLayout.covers l c r →
              cell (grid st) r c = true) →
  ∀ k l c r, compacted (foldl placeItem st its) !! k = Some l →
             WidgetLayout.covers l c r →
             cell (grid (foldl placeItem st its)) r c = true.
Proof.
  revert st. induction its as [|it its IH]; intros st Hst; [done|].
  cbn [foldl]. apply IH. by apply placeItem_marked.
Qed.

(** An item the scan places lies within the columns and on no cell of an
    entry written before. *)
Lemma placeItem_scanned st item :
  (∀ k l c r, compacted st !! k = Some l → WidgetLayout.covers l c r →
              cell (grid st) r c = true) →
  (scanGrid item st).2 = true →
  ∃ l, compacted (placeItem st item) !! key item = Some l ∧ withinGrid l ∧
       ∀ k' l' c r, compacted st !! k' = Some l' →
                    ¬ (WidgetLayout.covers l c r ∧ WidgetLayout.covers l' c r).
Proof.
  intros Hst. rewrite placeItem_findSlot, scanGrid_findSlot.
  destruct (findSlot _ _ _) as [p|] eqn:Hslot; [|done]. intros _.
  apply findSlot_Some in Hslot as [_ Hfit]. apply canPlace_true in Hfit as (Hx & Hw & Hfree).
  eexists. split; [apply lookup_insert_eq|]. split; [done|].
  intros k' l' c r Hl' [Hc Hc']. specialize (Hfree c r Hc).
  rewrite (Hst k' l' c r Hl' Hc') in Hfree. done.
Qed.

Lemma foldl_placeNoting_state its st fell :
  (foldl placeNoting (st, fell) its).1 = foldl placeItem st its.
Proof.
  revert st fell. induction its as [|it its IH]; intros st fell; [done|].
  cbn [foldl]. unfold placeNoting at 2. cbn [fst snd]. apply IH.
Qed.

(** Two entries of the result on a common cell: one of them is noted. *)
Lemma placeNoting_overlap st fell item :
  (∀ k l c r, compacted st !! k = Some l → WidgetLayout.covers l c r →
              cell (grid st) r c = true) →
  (∀ k1 k2 l1 l2 c r, k1 ≠ k2 →
     compacted st !! k1 = Some l1 → compacted st !! k2 = Some l2 →
     WidgetLayout.covers l1 c r → WidgetLayout.covers l2 c r →
     k1 ∈ fell ∨ k2 ∈ fell) →
  ∀ k1 k2 l1 l2 c r, k1 ≠ k2 →
    compacted (placeNoting (st, fell) item).1 !! k1 = Some l1 →
    compacted (placeNoting (st, fell) item).1 !! k2 = Some l2 →
    WidgetLayout.covers l1 c r → WidgetLayout.covers l2 c r →
    k1 ∈ (placeNoting (st, fell) item).2 ∨ k2 ∈ (placeNoting (st, fell) item).2.
Proof.
  intros Hmarked Hfell k1 k2 l1 l2 c r Hne. unfold placeNoting. cbn [fst snd].
  destruct (scanGrid item st).2 eqn:Hscan.
  - destruct (placeItem_scanned st item Hmarked Hscan) as (l & Hl & _ & Hfree).
    destruct (placeItem_compacted st item) as (x & y & Hc). rewrite Hc in Hl |- *.
    rewrite lookup_insert_eq in Hl. injection Hl as <-.
    rewrite !elem_of_difference, !elem_of_singleton.
    destruct (decide (k1 = key item)) as [->|Hk1], (decide (k2 = key item)) as [->|Hk2];
      [done| | |].
    + rewrite lookup_insert_eq, lookup_insert_ne by done. intros [= <-] Hl2 Hc1 Hc2.
      by destruct (Hfree k2 l2 c r Hl2).
    + rewrite lookup_insert_ne, lookup_insert_eq by done. intros Hl1 [= <-] Hc1 Hc2.
      by destruct (Hfree k1 l1 c r Hl1).
    + rewrite !lookup_insert_ne by done. intros Hl1 Hl2 Hc1 Hc2.
      destruct (Hfell k1 k2 l1 l2 c r Hne Hl1 Hl2 Hc1 Hc2); auto.
  - destruct (placeItem_compacted st item) as (x & y & ->).
    rewrite !elem_of_union, !elem_of_singleton.
    destruct (decide (k1 = key item)) as [->|Hk1]; [auto|].
    destruct (decide (k2 = key item)) as [->|Hk2]; [auto|].
    rewrite !lookup_insert_ne by done. intros Hl1 Hl2 Hc1 Hc2.
    destruct (Hfell k1 k2 l1 l2 c r Hne Hl1 Hl2 Hc1 Hc2); auto.
Qed.

Lemma foldl_placeNoting_overlap its st fell :
  (∀ k l c r, compacted st !! k = Some l → WidgetLayout.covers l c r →
              cell (grid st) r c = true) →
  (∀ k1 k2 l1 l2 c r, k1 ≠ k2 →
     compacted st !! k1 = Some l1 → compacted st !! k2 = Some l2 →
     WidgetLayout.covers l1 c r → WidgetLayout.covers l2 c r →
     k1 ∈ fell ∨ k2 ∈ fell) →
  ∀ k1 k2 l1 l2 c r, k1 ≠ k2 →
    compacted (foldl placeNoting (st, fell) its).1 !! k1 = Some l1 →
    compacted (foldl placeNoting (st, fell) its).1 !! k2 = Some l2 →
    WidgetLayout.covers l1 c r → WidgetLayout.covers l2 c r →
    k1 ∈ (foldl placeNoting (st, fell) its).2 ∨ k2 ∈ (foldl placeNoting (st, fell) its).2.
Proof.
  revert st fell. induction its as [|it its IH]; intros st fell Hmarked Hfell; [done|].
  cbn [foldl].
  pose proof (placeNoting_overlap st fell it Hmarked Hfell) as Hstep.
  destruct (placeNoting (st, fell) it) as [st' fell'] eqn:E.
  apply IH; [|exact Hstep].
  assert (st' = placeItem st it) as -> by (by injection E as <- _).
  by apply placeItem_marked.
Qed.

(** A noted key has an entry in the result. *)
Lemma foldl_placeNoting_dom its st fell :
  (∀ k, k ∈ fell → is_Some (compacted st !! k)) →
  ∀ k, k ∈ (foldl placeNoting (st, fell) its).2 →
       is_Some (compacted (foldl placeNoting (st, fell) its).1 !! k).
Proof.
  revert st fell. induction its as [|it its IH]; intros st fell Hfell; [done|].
  cbn [foldl]. unfold placeNoting at 2 4. cbn [fst snd]. apply IH. intros k.
  destruct (placeItem_compacted st it) as (x & y & ->).
  destruct (decide (k = key it)) as [->|Hne].
  - rewrite lookup_insert_eq. eauto.
  - rewrite lookup_insert_ne by done. destruct (scanGrid it st).2.
    + intros [? _]%elem_of_difference. by apply Hfell.
    + intros [?%elem_of_singleton|?]%elem_of_union; [done|]. by apply Hfell.
Qed.

(** Nothing is noted while every item is placed by the scan. *)
Lemma foldl_placeNoting_fits its st :
  fallbackFree st its = true → (foldl placeNoting (st, ∅) its).2 = ∅.
Proof.
  revert st. induction its as [|it its IH]; intros st; [done|].
  cbn [fallbackFree foldl]. intros [Hscan Hrest]%andb_true_iff.
  unfold placeNoting at 2. cbn [fst snd]. rewrite Hscan.
  rewrite empty_difference_L. by apply IH.
Qed.

End FallbackFacts.

(** ** The order in which the widgets are taken *)

Module ArrangementFacts.
Import Packer PackerFacts FirstFitFacts.

Lemma widgets_visibleItems (layouts : gmap string WidgetLayout.t) ks :
  FirstFit.widgets layouts ks = visibleItems layouts ks.
Proof.
  unfold FirstFit.widgets, visibleItems. induction ks as [|k ks IH]; [done|].
  cbn [mbind list_bind omap list_omap].
  change (list_bind _ _ ?f ks) with (ks ≫= f). rewrite IH.
  by destruct (layouts !! k).
Qed.

#[export] Instance earlier_trans : Transitive FirstFit.earlier.
Proof. intros a b c. unfold FirstFit.earlier. simpl. lia. Qed.

Lemma earlier_asym a b : FirstFit.earlier a b → FirstFit.earlier b a → False.
Proof. unfold FirstFit.earlier. simpl. lia. Qed.

(** Two strictly ascending lists of the same elements are the same. *)
Lemma earlier_sorted_unique l s :
  StronglySorted FirstFit.earlier l → StronglySorted FirstFit.earlier s →
  l ≡ₚ s → l = s.
Proof.
  intros Hl. revert s. induction Hl as [|a l Hl IH Ha]; intros s Hs Hperm.
  - by apply Permutation_nil_l in Hperm.
  - destruct Hs as [|b s Hs Hb].
    + by apply Permutation_nil_r in Hperm.
    + rewrite Forall_forall in Ha, Hb.
      assert (a = b) as ->.
      { assert (a ∈ b :: s) as Hin by (rewrite <- Hperm; left).
        assert (b ∈ a :: l) as Hin' by (rewrite Hperm; left).
        apply elem_of_cons in Hin as [?|Hin]; [done|].
        apply elem_of_cons in Hin' as [?|Hin']; [done|].
        destruct (earlier_asym a b); auto. }
      f_equal. apply IH; [done|]. by apply Permutation_cons_inv in Hperm.
Qed.

(** The insertion of [insertItem], followed on the numbered widgets: a
    widget numbered below all those of the list goes before its equals. *)
Lemma insertItem_numbered n a s :
  StronglySorted FirstFit.earlier s → Forall (λ b, (n < b.1)%nat) s →
  ∃ s', s'.*2 = insertItem a s.*2 ∧ s' ≡ₚ (n, a) :: s ∧
        StronglySorted FirstFit.earlier s'.
Proof.
  induction 1 as [|[i b] s Hs IH Hb]; intros Hn.
  - exists [(n, a)]. repeat split; [done|]. repeat constructor.
  - apply Forall_cons in Hn as [Hi Hn]. cbn [fmap list_fmap insertItem snd].
    destruct (Z.leb_spec (compareItems a b) 0) as [Hle|Hgt].
    + exists ((n, a) :: (i, b) :: s). split; [done|]. split; [done|].
      assert (FirstFit.earlier (n, a) (i, b)) as Hab.
      { apply compareItems_le in Hle. unfold FirstFit.earlier. simpl in *. lia. }
      constructor; [by constructor|]. constructor; [done|].
      eapply Forall_impl; [exact Hb|]. intros c Hc. by etrans.
    + destruct (IH Hn) as (s' & Hsnd & Hperm & Hsorted).
      exists ((i, b) :: s'). split; [|split].
      * cbn [fmap list_fmap snd]. f_equal. exact Hsnd.
      * rewrite Hperm. apply perm_swap.
      * constructor; [done|]. rewrite Hperm. constructor; [|done].
        unfold FirstFit.earlier, compareItems in *. simpl in *.
        destruct (_ =? 0) eqn:E; lia.
Qed.

(** The sorted items are the widgets in the order in which they are
    taken. *)
Lemma sortItems_numbered ws : ∀ n,
  ∃ order, order.*2 = sortItems ws ∧ order ≡ₚ zip (seq n (length ws)) ws ∧
           StronglySorted FirstFit.earlier order.
Proof.
  induction ws as [|a ws IH]; intros n.
  - exists []. repeat split; constructor.
  - destruct (IH (S n)) as (order & Hsnd & Hperm & Hsorted).
    destruct (insertItem_numbered n a order Hsorted) as (order' & Hsnd' & Hperm' & Hsorted').
    + rewrite Hperm. apply Forall_forall. intros [i b] Hin. simpl.
      apply elem_of_zip_l, elem_of_seq in Hin. lia.
    + exists order'. split; [|split; [|done]].
      * rewrite Hsnd', Hsnd. done.
      * rewrite Hperm', Hperm. done.
Qed.

Lemma arrangement_exists (layouts : gmap string WidgetLayout.t) ks :
  ∃ order, FirstFit.arrangement layouts ks order ∧ order.*2 = items layouts ks.
Proof.
  destruct (sortItems_numbered (FirstFit.widgets layouts ks) 0)
    as (order & Hsnd & Hperm & Hsorted).
  exists order. split.
  - split; [done|]. by apply StronglySorted_Sorted.
  - by rewrite Hsnd, widgets_visibleItems.
Qed.

(** There is one arrangement, and it is the list of the items. *)
Lemma arrangement_items (layouts : gmap string WidgetLayout.t) ks order :
  FirstFit.arrangement layouts ks order → order.*2 = items layouts ks.
Proof.
  intros [Hperm Hsorted].
  destruct (arrangement_exists layouts ks) as (order' & [Hperm' Hsorted'] & <-).
  f_equal. apply earlier_sorted_unique.
  - by apply Sorted_StronglySorted; [apply _|].
  - by apply Sorted_StronglySorted; [apply _|].
  - by rewrite Hperm, Hperm'.
Qed.

(** When the reference finds a position for every widget of the
    arrangement, the packer returns the reference layout. *)
Lemma compactLayoutsUtil_arranged (layouts : gmap string WidgetLayout.t) ks order out :
  FirstFit.arrangement layouts ks order →
  FirstFit.pack 100 order.*2 = Some out →
  compactLayoutsUtil layouts ks = out.
Proof.
  intros Harr Hpack. rewrite (arrangement_items _ _ _ Harr) in Hpack.
  unfold FirstFit.pack in Hpack.
  destruct (FirstFit.placeAll _ _ _) as [res|] eqn:Hres; [|done].
  injection Hpack as <-.
  by destruct (placeAll_simulation _ (mkState ∅ ∅) [] ∅ res represents_empty eq_refl Hres).
Qed.

End ArrangementFacts.

(** ** The properties of [compactLayoutsUtil] *)

Module PackerTheorems.
Import Packer PackerFacts FirstFitFacts FallbackFacts ArrangementFacts.

(** C3. Compaction only moves widgets: the keys of the result are exactly
    the visible keys that have an entry in the input, and every entry of
    the result has the width and the height of the input entry of its
    key; only x and y may differ. *)
Theorem compactLayoutsUtil_moves_only (layouts : gmap string WidgetLayout.t)
    (visibleKeys : list string) :
  (∀ k, is_Some (compactLayoutsUtil layouts visibleKeys !! k)
        ↔ k ∈ visibleKeys ∧ is_Some (layouts !! k)) ∧
  (∀ k l, compactLayoutsUtil layouts visibleKeys !! k = Some l →
          ∃ l0, layouts !! k = Some l0 ∧
                WidgetLayout.w l = WidgetLayout.w l0 ∧
                WidgetLayout.h l = WidgetLayout.h l0).
Proof.
  unfold compactLayoutsUtil. split.
  - intros k. rewrite foldl_placeItem_is_Some. simpl.
    rewrite lookup_empty, list_elem_of_fmap. split.
    + intros [[? [=]]|(it & -> & Hit)]. apply elem_of_items in Hit as [? Hl].
      split; [done|]. by rewrite Hl.
    + intros [Hk [l Hl]]. right. exists (mkItem k l). split; [done|].
      by apply elem_of_items.
  - intros k l [H|(it & Hit & <- & Hw & Hh)]%foldl_placeItem_lookup.
    + simpl in H. by rewrite lookup_empty in H.
    + apply elem_of_items in Hit as [_ Hl]. eauto.
Qed.

(** C1, the inputs on which it fails.  The small widget finds every row
    from 0 to 99 taken, falls back to row 2, and lands on the tall one.
    A widget 13 wide finds no position at all, falls back to column 0,
    and reaches beyond the twelve columns. *)
Lemma compactLayoutsUtil_fallback_overlaps :
  let out := compactLayoutsUtil Examples.tallAndSmall Examples.tallAndSmallKeys in
  let wide := compactLayoutsUtil Examples.wideInBetween Examples.wideInBetweenKeys in
  out !! "leads" = Some (WidgetLayout.mk 0 0 12 100) ∧
  out !! "deals" = Some (WidgetLayout.mk 0 2 1 1) ∧
  ¬ disjointLayouts out ∧
  wide !! "deals" = Some (WidgetLayout.mk 0 2 13 1) ∧
  ¬ withinGrid (WidgetLayout.mk 0 2 13 1).
Proof.
  assert (compactLayoutsUtil Examples.tallAndSmall Examples.tallAndSmallKeys !! "leads"
          = Some (WidgetLayout.mk 0 0 12 100)) as H1 by (vm_compute; reflexivity).
  assert (compactLayoutsUtil Examples.tallAndSmall Examples.tallAndSmallKeys !! "deals"
          = Some (WidgetLayout.mk 0 2 1 1)) as H2 by (vm_compute; reflexivity).
  cbv zeta. split; [done|]. split; [done|]. split; [|split].
  - intros Hd. apply (Hd "leads" "deals" _ _ 0 2 ltac:(done) H1 H2).
    unfold WidgetLayout.covers; simpl. lia.
  - vm_compute. reflexivity.
  - unfold withinGrid, GRID_COLS. simpl. lia.
Qed.

(** C1, as the code has it, for every input.  A widget of the result
    lies within the twelve columns exactly when it is at most twelve
    wide, on either branch.  Two widgets of the result cover a common
    cell only when the fallback branch placed one of them; an item the
    scan places lies within the columns and covers no cell of any widget
    placed before it, fallen back or not.  Only keys of the result are
    noted as fallen back, and none is when every widget finds a position
    in rows 0..99; the result then has no two widgets on a common cell. *)
Theorem compactLayoutsUtil_safe (layouts : gmap string WidgetLayout.t)
    (visibleKeys : list string) :
  let out := compactLayoutsUtil layouts visibleKeys in
  let fell := fallbackKeys layouts visibleKeys in
  (∀ k l, out !! k = Some l →
     0 ≤ WidgetLayout.x l ∧ (withinGrid l ↔ WidgetLayout.w l ≤ GRID_COLS)) ∧
  (∀ k1 k2 l1 l2 col row, k1 ≠ k2 → out !! k1 = Some l1 → out !! k2 = Some l2 →
     WidgetLayout.covers l1 col row → WidgetLayout.covers l2 col row →
     k1 ∈ fell ∨ k2 ∈ fell) ∧
  (∀ pre item post, items layouts visibleKeys = pre ++ item :: post →
     let st := foldl placeItem (mkState ∅ ∅) pre in
     (scanGrid item st).2 = true →
     ∃ l, compacted (placeItem st item) !! key item = Some l ∧ withinGrid l ∧
          ∀ k' l' col row, compacted st !! k' = Some l' →
            ¬ (WidgetLayout.covers l col row ∧ WidgetLayout.covers l' col row)) ∧
  (∀ k, k ∈ fell → is_Some (out !! k)) ∧
  (everyWidgetFits layouts visibleKeys = true → fell = ∅ ∧ disjointLayouts out).
Proof.
  cbv zeta. unfold compactLayoutsUtil, fallbackKeys, everyWidgetFits.
  set (its := items layouts visibleKeys).
  assert (∀ k l c r, compacted (mkState ∅ ∅) !! k = Some l → WidgetLayout.covers l c r →
                     cell (grid (mkState ∅ ∅)) r c = true) as Hinit.
  { intros k l c r Hl. simpl in Hl. by rewrite lookup_empty in Hl. }
  assert (∀ k1 k2 l1 l2 c r, k1 ≠ k2 →
            compacted (foldl placeItem (mkState ∅ ∅) its) !! k1 = Some l1 →
            compacted (foldl placeItem (mkState ∅ ∅) its) !! k2 = Some l2 →
            WidgetLayout.covers l1 c r → WidgetLayout.covers l2 c r →
            k1 ∈ (foldl placeNoting (mkState ∅ ∅, ∅) its).2
            ∨ k2 ∈ (foldl placeNoting (mkState ∅ ∅, ∅) its).2) as Hpairs.
  { rewrite <- (foldl_placeNoting_state its (mkState ∅ ∅) ∅).
    apply foldl_placeNoting_overlap; [done|].
    intros k1 k2 l1 l2 c r _ Hl. simpl in Hl. by rewrite lookup_empty in Hl. }
  split; [|split; [|split; [|split]]].
  - intros k l Hl. split.
    + assert (∀ its st,
        (∀ k l, compacted st !! k = Some l → 0 ≤ WidgetLayout.x l) →
        ∀ k l, compacted (foldl placeItem st its) !! k = Some l → 0 ≤ WidgetLayout.x l)
        as Hfold.
      { clear. induction its as [|it its IH]; intros st Hst; [done|]. cbn [foldl].
        apply IH. intros k l. rewrite placeItem_findSlot.
        destruct (findSlot _ _ _) as [p|] eqn:Hslot; simpl;
          (destruct (decide (k = key it)) as [->|Hne];
           [rewrite lookup_insert_eq; intros [= <-]; simpl
           |rewrite lookup_insert_ne by done; apply Hst]); [|done].
        apply findSlot_Some in Hslot as [_ Hfit]. apply canPlace_true in Hfit. lia. }
      eapply Hfold; [|exact Hl]. intros k' l' Hl'. simpl in Hl'.
      by rewrite lookup_empty in Hl'.
    + split; [unfold withinGrid; lia|].
      by apply (compactLayoutsUtil_within_when_narrow layouts visibleKeys k).
  - exact Hpairs.
  - intros pre item post Hsplit Hscan. apply placeItem_scanned; [|done].
    by apply foldl_placeItem_marked.
  - intros k Hk. rewrite <- (foldl_placeNoting_state its (mkState ∅ ∅) ∅).
    apply foldl_placeNoting_dom; [|done]. by intros k' ?%not_elem_of_empty.
  - intros Hfit. pose proof (foldl_placeNoting_fits its _ Hfit) as Hnone.
    split; [done|]. intros k1 k2 l1 l2 c r Hne Hl1 Hl2 [Hc1 Hc2].
    destruct (Hpairs k1 k2 l1 l2 c r Hne Hl1 Hl2 Hc1 Hc2) as [Hk|Hk];
      rewrite Hnone in Hk; by apply not_elem_of_empty in Hk.
Qed.

Lemma compactLayoutsUtil_safe_witness :
  let out := compactLayoutsUtil Examples.wideInBetween Examples.wideInBetweenKeys in
  fallbackKeys Examples.wideInBetween Examples.wideInBetweenKeys = {[ "deals" ]} ∧
  out !! "leads" = Some (WidgetLayout.mk 0 0 12 99) ∧
  out !! "contacts" = Some (WidgetLayout.mk 0 99 1 1) ∧
  (∀ col row, ¬ (WidgetLayout.covers (WidgetLayout.mk 0 0 12 99) col row ∧
                 WidgetLayout.covers (WidgetLayout.mk 0 99 1 1) col row)) ∧
  withinGrid (WidgetLayout.mk 0 99 1 1).
Proof.
  cbv zeta.
  assert (fallbackKeys Examples.wideInBetween Examples.wideInBetweenKeys = {[ "deals" ]})
    as Hfell by (vm_compute; reflexivity).
  assert (compactLayoutsUtil Examples.wideInBetween Examples.wideInBetweenKeys !! "leads"
          = Some (WidgetLayout.mk 0 0 12 99)) as Hleads by (vm_compute; reflexivity).
  assert (compactLayoutsUtil Examples.wideInBetween Examples.wideInBetweenKeys !! "contacts"
          = Some (WidgetLayout.mk 0 99 1 1)) as Hcontacts by (vm_compute; reflexivity).
  destruct (compactLayoutsUtil_safe Examples.wideInBetween Examples.wideInBetweenKeys)
    as (Hwithin & Hpairs & _).
  split; [exact Hfell|]. split; [exact Hleads|]. split; [exact Hcontacts|]. split.
  - intros col row [Hc1 Hc2].
    destruct (Hpairs "leads" "contacts" _ _ col row ltac:(done) Hleads Hcontacts Hc1 Hc2)
      as [Hk|Hk]; rewrite Hfell in Hk; apply elem_of_singleton in Hk; discriminate.
  - apply (Hwithin "contacts" _ Hcontacts). vm_compute. discriminate.
Defined.

(** C2. The packer is greedy first-fit.  The widgets to pack are the
    visible keys that have a layout; there is one way to list them by
    ascending row, then column, with widgets at the same position in the
    order of the visible keys.  Whenever the reference first-fit finds,
    for each widget of that list in turn, a position in rows 0..99, the
    result of [compactLayoutsUtil] is the reference layout. *)
Theorem compactLayoutsUtil_is_first_fit (layouts : gmap string WidgetLayout.t)
    (visibleKeys : list string) :
  (∃ order, FirstFit.arrangement layouts visibleKeys order) ∧
  (∀ order order', FirstFit.arrangement layouts visibleKeys order →
                   FirstFit.arrangement layouts visibleKeys order' → order' = order) ∧
  (∀ order out, FirstFit.arrangement layouts visibleKeys order →
                FirstFit.pack 100 order.*2 = Some out →
                compactLayoutsUtil layouts visibleKeys = out).
Proof.
  split; [|split].
  - destruct (arrangement_exists layouts visibleKeys) as (order & Harr & _). by exists order.
  - intros order order' [Hperm Hsorted] [Hperm' Hsorted'].
    apply earlier_sorted_unique.
    + by apply Sorted_StronglySorted; [apply _|].
    + by apply Sorted_StronglySorted; [apply _|].
    + by rewrite Hperm, Hperm'.
  - intros order out Harr Hpack.
    assert (order.*2 = items layouts visibleKeys) as Hitems by (by apply arrangement_items).
    rewrite Hitems in Hpack. unfold FirstFit.pack in Hpack.
    destruct (FirstFit.placeAll _ _ _) as [res|] eqn:Hres; [|done].
    injection Hpack as <-.
    by destruct (placeAll_simulation _ (mkState ∅ ∅) [] ∅ res represents_empty eq_refl Hres).
Qed.

Lemma compactLayoutsUtil_is_first_fit_witness :
  let order := [(0%nat, mkItem "leads" (WidgetLayout.mk 7 2 9 1));
                (2%nat, mkItem "deals" (WidgetLayout.mk 9 4 10 3));
                (1%nat, mkItem "contacts" (WidgetLayout.mk 5 5 1 3))] in
  FirstFit.arrangement Examples.sparse Examples.sparseKeys order ∧
  FirstFit.pack 100 order.*2 = Some Examples.sparseOnce ∧
  compactLayoutsUtil Examples.sparse Examples.sparseKeys = Examples.sparseOnce.
Proof.
  cbv zeta.
  assert (FirstFit.arrangement Examples.sparse Examples.sparseKeys
            [(0%nat, mkItem "leads" (WidgetLayout.mk 7 2 9 1));
             (2%nat, mkItem "deals" (WidgetLayout.mk 9 4 10 3));
             (1%nat, mkItem "contacts" (WidgetLayout.mk 5 5 1 3))]) as Harr.
  { split.
    - change (FirstFit.numbered (FirstFit.widgets Examples.sparse Examples.sparseKeys))
        with [(0%nat, mkItem "leads" (WidgetLayout.mk 7 2 9 1));
              (1%nat, mkItem "contacts" (WidgetLayout.mk 5 5 1 3));
              (2%nat, mkItem "deals" (WidgetLayout.mk 9 4 10 3))].
      apply Permutation_skip, perm_swap.
    - repeat constructor; unfold FirstFit.earlier; simpl; lia. }
  assert (FirstFit.pack 100
            [(0%nat, mkItem "leads" (WidgetLayout.mk 7 2 9 1));
             (2%nat, mkItem "deals" (WidgetLayout.mk 9 4 10 3));
             (1%nat, mkItem "contacts" (WidgetLayout.mk 5 5 1 3))].*2
          = Some Examples.sparseOnce) as Hpack by (vm_compute; reflexivity).
  split; [exact Harr|]. split; [exact Hpack|].
  destruct (compactLayoutsUtil_is_first_fit Examples.sparse Examples.sparseKeys)
    as (_ & _ & Hout).
  exact (Hout _ _ Harr Hpack).
Defined.

End PackerTheorems.

(** ** A second pass of the packer *)

Module IdempotenceFacts.
Import Packer PackerFacts.

Lemma placeItem_ext st a b :
  key a = key b → item_w a = item_w b → item_h a = item_h b →
  placeItem st a = placeItem st b.
Proof.
  intros Hk Hw Hh. rewrite !placeItem_findSlot, Hw, Hh.
  unfold placeAt, fallback. by rewrite Hk, Hw, Hh.
Qed.

Lemma keys_visibleItems (layouts : gmap string WidgetLayout.t) ks :
  key <$> visibleItems layouts ks = filter (λ k, is_Some (layouts !! k)) ks.
Proof.
  unfold visibleItems. induction ks as [|k ks IH]; [done|]. cbn [omap list_omap].
  rewrite filter_cons. destruct (layouts !! k) as [l|] eqn:E; simpl.
  - f_equal. apply IH.
  - apply IH.
Qed.

Lemma omap_filter_dom {A B} (f : A → option B) (P : A → Prop)
    `{!∀ a, Decision (P a)} (l : list A) :
  (∀ a, ¬ P a → f a = None) → omap f (filter P l) = omap f l.
Proof.
  intros Hf. induction l as [|a l IH]; [done|]. rewrite filter_cons.
  destruct (decide (P a)) as [Ha|Ha]; cbn [omap list_omap].
  - by rewrite <- IH.
  - by rewrite (Hf a Ha).
Qed.

(** Re-reading the keys of the items from a configuration that gives
    each key the same size leaves the run of the packer unchanged. *)
Lemma foldl_placeItem_relocated (out : gmap string WidgetLayout.t) its st :
  (∀ it, it ∈ its → ∃ l, out !! key it = Some l ∧
     WidgetLayout.w l = item_w it ∧ WidgetLayout.h l = item_h it) →
  foldl placeItem st (visibleItems out (key <$> its)) = foldl placeItem st its.
Proof.
  revert st. induction its as [|it its IH]; intros st Hout; [done|].
  destruct (Hout it ltac:(left)) as (l & Hl & Hw & Hh).
  unfold visibleItems. cbn [fmap list_fmap omap list_omap]. rewrite Hl. simpl.
  rewrite (placeItem_ext st (mkItem (key it) l) it) by done.
  apply IH. intros it' Hit'. apply Hout. by right.
Qed.

End IdempotenceFacts.

Module IdempotenceTheorems.
Import Packer PackerFacts IdempotenceFacts.

(** C4, the input on which it fails: the second pass takes the widgets
    in the order of their compacted positions, and the narrow widget then
    finds column 9 free, which the wide one had taken in the first pass. *)
Lemma compactLayoutsUtil_not_idempotent :
  compactLayoutsUtil Examples.sparse Examples.sparseKeys = Examples.sparseOnce ∧
  compactLayoutsUtil Examples.sparseOnce Examples.sparseKeys = Examples.sparseTwice ∧
  compactLayoutsUtil
    (compactLayoutsUtil Examples.sparse Examples.sparseKeys) Examples.sparseKeys
  ≠ compactLayoutsUtil Examples.sparse Examples.sparseKeys.
Proof.
  assert (compactLayoutsUtil Examples.sparse Examples.sparseKeys = Examples.sparseOnce)
    as H1 by (vm_compute; reflexivity).
  assert (compactLayoutsUtil Examples.sparseOnce Examples.sparseKeys = Examples.sparseTwice)
    as H2 by (vm_compute; reflexivity).
  split; [done|]. split; [done|]. rewrite H1, H2. intros Heq.
  apply (f_equal (λ m : gmap string WidgetLayout.t, m !! "contacts")) in Heq.
  vm_compute in Heq. discriminate.
Qed.

(** C4, as the code has it: a second pass reproduces the result of the
    first whenever the positions the first pass gave out are strictly
    ascending, by (y, then x), along the order in which it took the
    widgets; the second pass then takes them in the same order. *)
Theorem compactLayoutsUtil_idempotent_when_ordered
    (layouts : gmap string WidgetLayout.t) (visibleKeys : list string) :
  Sorted strictlyBefore
    (visibleItems (compactLayoutsUtil layouts visibleKeys)
                  (key <$> items layouts visibleKeys)) →
  compactLayoutsUtil (compactLayoutsUtil layouts visibleKeys) visibleKeys
  = compactLayoutsUtil layouts visibleKeys.
Proof.
  intros Hsorted. apply Sorted_StronglySorted in Hsorted; [|apply _].
  set (out := compactLayoutsUtil layouts visibleKeys) in *.
  assert (items out visibleKeys = visibleItems out (key <$> items layouts visibleKeys))
    as Horder.
  { apply ascending_unique; [done|apply sortItems_sorted|].
    unfold items at 1. rewrite sortItems_Permutation.
    trans (visibleItems out (key <$> visibleItems layouts visibleKeys)).
    - rewrite keys_visibleItems. unfold visibleItems at 2.
      rewrite omap_filter_dom; [done|].
      intros k Hk. destruct (out !! k) as [l|] eqn:E; [|done].
      exfalso. apply Hk.
      apply compactLayoutsUtil_lookup_Some in E as (_ & l0 & Hl0 & _). by rewrite Hl0.
    - unfold visibleItems at 1 3. apply omap_Permutation, fmap_Permutation.
      symmetry. apply sortItems_Permutation. }
  unfold compactLayoutsUtil at 1. fold out. rewrite Horder.
  rewrite foldl_placeItem_relocated; [done|].
  intros it Hit. apply elem_of_items in Hit as Hit'. destruct Hit' as [Hk Hl].
  destruct (compactLayoutsUtil_lookup_is_Some layouts visibleKeys (key it))
    as [l Hout]; [done|by rewrite Hl|].
  exists l. split; [done|].
  destruct (compactLayoutsUtil_lookup_Some _ _ _ _ Hout) as (_ & l0 & Hl0 & Hw & Hh).
  rewrite Hl in Hl0. injection Hl0 as <-. done.
Qed.

Lemma compactLayoutsUtil_idempotent_when_ordered_witness :
  Sorted strictlyBefore
    (visibleItems (compactLayoutsUtil Examples.cards Examples.cardsKeys)
                  (key <$> items Examples.cards Examples.cardsKeys)) ∧
  compactLayoutsUtil (compactLayoutsUtil Examples.cards Examples.cardsKeys)
                     Examples.cardsKeys
  = compactLayoutsUtil Examples.cards Examples.cardsKeys.
Proof.
  assert (Sorted strictlyBefore
    (visibleItems (compactLayoutsUtil Examples.cards Examples.cardsKeys)
                  (key <$> items Examples.cards Examples.cardsKeys))) as Hs.
  { vm_compute. repeat constructor. }
  split; [exact Hs|].
  exact (compactLayoutsUtil_idempotent_when_ordered Examples.cards Examples.cardsKeys Hs).
Defined.

End IdempotenceTheorems.

(** ** Customize mode *)

Module CustomizeTheorems.
Import Dashboard.

Lemma runAction_keeps st a :
  originalState (runAction st a) = originalState st ∧
  visibleWidgets (runAction st a) = visibleWidgets st ∧
  widgetOrder (runAction st a) = widgetOrder st.
Proof. by destruct a. Qed.

(** The pending set stays a set: toggling keeps its keys distinct. *)
Lemma toggleKey_NoDup key prev : NoDup prev → NoDup (toggleKey key prev).
Proof.
  intros Hnd. unfold toggleKey. destruct (decide (key ∈ prev)).
  - by apply NoDup_filter.
  - apply NoDup_app. split; [done|]. split; [|apply NoDup_singleton].
    by intros k ? ->%list_elem_of_singleton.
Qed.

Lemma runAction_pending_NoDup st a :
  NoDup (pendingWidgetChanges st) → NoDup (pendingWidgetChanges (runAction st a)).
Proof. destruct a; simpl; auto using toggleKey_NoDup. Qed.

Lemma runActions_keep acts st :
  originalState (foldl runAction st acts) = originalState st.
Proof.
  revert st. induction acts as [|a acts IH]; intros st; simpl; [done|].
  rewrite IH. apply runAction_keeps.
Qed.

(** C5. Entering customize mode and then cancelling, whatever layout
    changes and pending toggles happen in between, restores the visible
    widgets, their order and their layouts to what they were on entry,
    empties the pending set and leaves resize mode. *)
Theorem cancel_restores_snapshot (st : State) (acts : list CustomizeAction) :
  let st' := handleCancelCustomize (foldl runAction (handleEnterCustomizeMode st) acts) in
  visibleWidgets st' = visibleWidgets st ∧
  widgetOrder st' = widgetOrder st ∧
  widgetLayouts st' = widgetLayouts st ∧
  pendingWidgetChanges st' = [] ∧
  originalState st' = None ∧
  isResizeMode st' = false.
Proof.
  cbv zeta. unfold handleCancelCustomize. rewrite runActions_keep. simpl. done.
Qed.

End CustomizeTheorems.

(** ** The next free position and saving *)

Module NextPositionFacts.
Import Dashboard Packer PackerFacts ScanFacts.

Lemma foldl_pointwise {A B} (f g : A → B → A) (a : A) (l : list B) :
  (∀ a b, f a b = g a b) → foldl f a l = foldl g a l.
Proof.
  intros H. revert a. induction l as [|b l IH]; intros a; simpl; [done|].
  by rewrite H, IH.
Qed.

Lemma markLayout_occupy g l :
  markLayout g l
  = occupy g (WidgetLayout.x l) (WidgetLayout.y l)
      (Z.min (WidgetLayout.x l + WidgetLayout.w l) COLS - WidgetLayout.x l)
      (WidgetLayout.h l).
Proof.
  unfold markLayout, occupy.
  rewrite <- (Z.add_0_r (WidgetLayout.y l)) at 1. rewrite <- fmap_add_seqZ, foldl_fmap.
  apply foldl_pointwise. intros g' dy. simpl. f_equal.
  rewrite <- (Z.add_0_r (WidgetLayout.x l)) at 1. rewrite <- fmap_add_seqZ, foldl_fmap.
  done.
Qed.

Lemma cell_markLayouts g ls r c :
  cell (foldl markLayout g ls) r c = true ↔
  cell g r c = true ∨ ∃ l, l ∈ ls ∧ WidgetLayout.covers l c r ∧ c < COLS.
Proof.
  revert g. induction ls as [|l ls IH]; intros g; simpl.
  - split; [by left|]. intros [?|(l & ?%elem_of_nil & _)]; done.
  - rewrite IH, markLayout_occupy, cell_occupy, orb_true_iff, coversb_covers.
    unfold WidgetLayout.covers; simpl. split.
    + intros [[?|Hc]|(l' & ? & ?)]; [by left| |right; exists l'; split; [by right|done]].
      right. exists l. split; [left|]. unfold WidgetLayout.covers. lia.
    + intros [?|(l' & [->|?]%elem_of_cons & Hc & ?)]; [by left; left| |right; eauto].
      left; right. unfold WidgetLayout.covers in Hc. lia.
Qed.

Lemma cell_markAll existing r c :
  cell (markAll existing) r c = true ↔ taken existing c r.
Proof.
  unfold markAll, taken. rewrite cell_markLayouts. unfold cell at 1.
  rewrite lookup_empty. split.
  - intros [?|(l & Hl & ?)]; [done|].
    apply list_elem_of_fmap in Hl as ([k l'] & -> & Hin).
    apply elem_of_map_to_list in Hin. eauto.
  - intros (k & l & Hl & ?). right. exists l. split; [|done].
    apply list_elem_of_fmap. exists (k, l). split; [done|]. by apply elem_of_map_to_list.
Qed.

Lemma sameCells_refl g : sameCells g g.
Proof. done. Qed.

Lemma sameCells_trans g1 g2 g3 : sameCells g1 g2 → sameCells g2 g3 → sameCells g1 g3.
Proof. intros H1 H2 r c. by rewrite H2, H1. Qed.

Lemma sameCells_ensureRow g r : sameCells g (ensureRow g r).
Proof.
  intros r' c. unfold ensureRow. destruct (g !! r) as [row|] eqn:E; [done|].
  unfold cell. destruct (decide (r = r')) as [<-|Hne].
  - rewrite lookup_insert_eq, E. apply newRow_false.
  - by rewrite lookup_insert_ne.
Qed.

Lemma forallb_ext {A} (f g : A → bool) (l : list A) :
  (∀ a, f a = g a) → forallb f l = forallb g l.
Proof. intros H. induction l as [|a l IH]; simpl; [done|]. by rewrite H, IH. Qed.

Lemma freeb_sameCells g g' x y w h : sameCells g g' → freeb g' x y w h = freeb g x y w h.
Proof.
  intros Hs. unfold freeb. apply forallb_ext. intros dy.
  apply forallb_ext. intros dx. by rewrite Hs.
Qed.

Lemma freeb_true g x y w h :
  freeb g x y w h = true ↔
  ∀ c r, x ≤ c < x + w → y ≤ r < y + h → cell g r c = false.
Proof.
  unfold freeb. rewrite forallb_Forall, Forall_seqZ. split.
  - intros H c r Hc Hr. specialize (H (r - y) ltac:(lia)).
    rewrite forallb_Forall, Forall_seqZ in H. specialize (H (c - x) ltac:(lia)).
    apply negb_true_iff in H.
    by replace (y + (r - y)) with r in H by lia; replace (x + (c - x)) with c in H by lia.
  - intros H dy Hdy. rewrite forallb_Forall, Forall_seqZ. intros dx Hdx.
    apply negb_true_iff, H; lia.
Qed.

Lemma checkCell_loop x y dy g b dxs :
  foldl (checkCell x y dy) (g, b) dxs
  = (g, b && forallb (λ dx, negb (cell g (y + dy) (x + dx))) dxs).
Proof.
  revert b. induction dxs as [|dx dxs IH]; intros b; simpl.
  - by rewrite andb_true_r.
  - unfold checkCell at 2. simpl. destruct b; simpl; rewrite IH; [done|].
    done.
Qed.

Lemma checkRow_loop x y w g b dys :
  ∃ g', foldl (checkRow x y w) (g, b) dys
        = (g', b && forallb (λ dy, forallb (λ dx, negb (cell g (y + dy) (x + dx)))
                                     (seqZ 0 w)) dys)
        ∧ sameCells g g'.
Proof.
  revert g b. induction dys as [|dy dys IH]; intros g b; simpl.
  - exists g. by rewrite andb_true_r.
  - unfold checkRow at 2. simpl. destruct b; simpl.
    + rewrite checkCell_loop. simpl.
      pose proof (sameCells_ensureRow g (y + dy)) as Hs.
      destruct (IH (ensureRow g (y + dy))
        (forallb (λ dx, negb (cell (ensureRow g (y + dy)) (y + dy) (x + dx))) (seqZ 0 w)))
        as (g' & Heq & Hs').
      exists g'. split; [|by eapply sameCells_trans].
      rewrite Heq. f_equal. f_equal.
      * apply forallb_ext. intros dx. by rewrite Hs.
      * apply forallb_ext. intros dy'. apply forallb_ext. intros dx. by rewrite Hs.
    + destruct (IH g false) as (g' & Heq & Hs'). exists g'. by rewrite Heq.
Qed.

Lemma checkPosition_freeb g x y w h :
  ∃ g', checkPosition g x y w h = (g', freeb g x y w h) ∧ sameCells g g'.
Proof. apply (checkRow_loop x y w g true). Qed.

Lemma scanColumns_find g y w h xs :
  ∃ g', scanColumns g y w h xs
        = (g', (λ x, (x, y)) <$> find (λ x, freeb g x y w h) xs)
        ∧ sameCells g g'.
Proof.
  revert g. induction xs as [|x xs IH]; intros g; simpl.
  - by exists g.
  - destruct (checkPosition_freeb g x y w h) as (g1 & -> & Hs1).
    destruct (freeb g x y w h) eqn:E.
    + by exists g1.
    + destruct (IH g1) as (g2 & -> & Hs2). exists g2.
      split; [|by eapply sameCells_trans]. f_equal. f_equal.
      apply find_ext. intros x' _. by apply freeb_sameCells.
Qed.

Lemma nextPosition_scanRows g w h ys :
  scanRows g w h ys
  = find (λ p, freeb g p.1 p.2 w h)
         (y ← ys; (λ x, (x, y)) <$> seqZ 0 (COLS - w + 1)).
Proof.
  revert g. induction ys as [|y ys IH]; intros g; simpl; [done|].
  destruct (scanColumns_find (ensureRow g y) y w h (seqZ 0 (COLS - w + 1)))
    as (g' & -> & Hs).
  pose proof (sameCells_ensureRow g y) as Hs0.
  rewrite find_app, find_fmap. unfold compose; simpl.
  rewrite (find_ext (λ x, freeb (ensureRow g y) x y w h) (λ x, freeb g x y w h))
    by (intros; by apply freeb_sameCells).
  destruct (find _ (seqZ 0 _)) as [x|]; simpl; [done|].
  rewrite IH. apply find_ext. intros p _. apply freeb_sameCells.
  by eapply sameCells_trans.
Qed.

Lemma freeb_freeAt existing w h p :
  freeb (markAll existing) p.1 p.2 w h = true ↔ freeAt existing w h p.
Proof.
  rewrite freeb_true. unfold freeAt. split.
  - intros H col row Hc Hr Ht. apply cell_markAll in Ht. by rewrite H in Ht.
  - intros H c r Hc Hr. apply not_true_iff_false. rewrite cell_markAll. by apply H.
Qed.

Lemma findNextGridPosition_nextFree existing w h :
  nextFreePosition existing w h (findNextGridPosition existing w h).
Proof.
  unfold findNextGridPosition. cbv zeta. rewrite nextPosition_scanRows.
  destruct (find _ _) as [p|] eqn:Hfind.
  - left. apply find_scan_least in Hfind as (Hfree & Hy & Hx & Hleast).
    split; [unfold scanned; lia|]. split; [by apply freeb_freeAt|].
    intros [x y] [Hqy Hqx] Hbefore Hq. cbn [fst snd] in *. apply freeb_freeAt in Hq.
    assert (freeb (markAll existing) x y w h = false) as Hf
      by (apply (Hleast x y); [lia|lia|done]).
    cbn [fst snd] in Hq. congruence.
  - right. split; [|done]. intros [x y] [Hqy Hqx] Hq. cbn [fst snd] in *.
    apply freeb_freeAt in Hq.
    assert (freeb (markAll existing) x y w h = false) as Hf
      by (apply (find_scan_none _ _ _ Hfind x y); lia).
    cbn [fst snd] in Hq. congruence.
Qed.

End NextPositionFacts.

(** ** Saving the layout *)

Module SaveFacts.
Import Dashboard NextPositionFacts.

Lemma filter_iff_in {A} (P1 P2 : A → Prop)
    `{!∀ x, Decision (P1 x), !∀ x, Decision (P2 x)} (l : list A) :
  (∀ x, x ∈ l → (P1 x ↔ P2 x)) → filter P1 l = filter P2 l.
Proof.
  induction l as [|a l IH]; intros Hiff; [done|].
  rewrite !filter_cons. rewrite IH by (intros x ?; apply Hiff; by right).
  destruct (decide (P1 a)) as [Ha|Ha], (decide (P2 a)) as [Hb|Hb]; try done.
  - exfalso. apply Hb, Hiff; [left|done].
  - exfalso. apply Ha, Hiff; [left|done].
Qed.

Lemma filter_all {A} (P : A → Prop) `{!∀ x, Decision (P x)} (l : list A) :
  (∀ x, x ∈ l → P x) → filter P l = l.
Proof.
  induction l as [|a l IH]; intros Hall; [done|].
  rewrite filter_cons_True by (apply Hall; left). f_equal. apply IH.
  intros x ?. apply Hall. by right.
Qed.

Section Pending.
Variable visible : list string.

Lemma applyPending_visible pending fv fo fl :
  (foldl (applyPendingKey visible) (fv, fo, fl) pending).1.1
  = filter (λ w, ¬ (w ∈ pending ∧ w ∈ visible)) fv ++ filter (λ k, k ∉ visible) pending.
Proof.
  revert fv fo fl. induction pending as [|k p IH]; intros fv fo fl.
  - simpl. rewrite app_nil_r. symmetry. apply filter_all.
    intros w _ [?%elem_of_nil _]. done.
  - cbn [foldl]. unfold applyPendingKey at 2.
    destruct (decide (k ∈ visible)) as [Hk|Hk].
    + rewrite IH. rewrite (filter_cons_False _ k p) by tauto. f_equal.
      rewrite list_filter_filter. apply list_filter_iff. intros w.
      rewrite elem_of_cons. split.
      * intros [Hp Hne] [[->|?] ?]; [done|]. by apply Hp.
      * intros Hn. split; [intros [??]; apply Hn; auto|]. intros ->. apply Hn. auto.
    + rewrite IH. rewrite filter_app, (filter_cons_True _ k p) by done.
      rewrite (filter_cons_True _ k []) by tauto. rewrite filter_nil, <- app_assoc. simpl.
      f_equal. apply list_filter_iff. intros w. rewrite elem_of_cons. split.
      * intros Hp [[->|?] ?]; [done|]. by apply Hp.
      * intros Hn [??]. apply Hn. auto.
Qed.

Lemma applyPending_order pending fv fo fl :
  NoDup pending →
  (foldl (applyPendingKey visible) (fv, fo, fl) pending).1.2
  = filter (λ w, ¬ (w ∈ pending ∧ w ∈ visible)) fo
    ++ filter (λ k, (k ∉ visible) ∧ (k ∉ fo)) pending.
Proof.
  revert fv fo fl. induction pending as [|k p IH]; intros fv fo fl Hnd.
  - simpl. rewrite app_nil_r. symmetry. apply filter_all.
    intros w _ [?%elem_of_nil _]. done.
  - apply NoDup_cons in Hnd as [Hkp Hnd]. cbn [foldl]. unfold applyPendingKey at 2.
    destruct (decide (k ∈ visible)) as [Hk|Hk].
    + rewrite IH by done. rewrite (filter_cons_False _ k p) by tauto. f_equal.
      * rewrite list_filter_filter. apply list_filter_iff. intros w.
        rewrite elem_of_cons. split.
        -- intros [Hp Hne] [[->|?] ?]; [done|]. by apply Hp.
        -- intros Hn. split; [intros [??]; apply Hn; auto|]. intros ->. apply Hn. auto.
      * apply list_filter_iff. intros k'. rewrite list_elem_of_filter. split.
        -- intros [? Hn]. split; [done|]. intros ?. apply Hn. split; [|done].
           intros ->. done.
        -- intros [? Hn]. split; [done|]. intros [_ ?]. done.
    + destruct (decide (k ∈ fo)) as [Hfo|Hfo].
      * rewrite IH by done. rewrite (filter_cons_False _ k p) by tauto. f_equal.
        apply list_filter_iff. intros w. rewrite elem_of_cons. split.
        -- intros Hp [[->|?] ?]; [done|]. by apply Hp.
        -- intros Hn [??]. apply Hn. auto.
      * rewrite IH by done. rewrite filter_app, (filter_cons_True _ k p) by done.
        rewrite (filter_cons_True _ k []) by tauto.
        rewrite filter_nil, <- app_assoc. simpl. f_equal.
        -- apply list_filter_iff. intros w. rewrite elem_of_cons. split.
           ++ intros Hp [[->|?] ?]; [done|]. by apply Hp.
           ++ intros Hn [??]. apply Hn. auto.
        -- f_equal. apply filter_iff_in. intros k' Hk'.
           rewrite elem_of_app, list_elem_of_singleton. split.
           ++ intros [? Hn]. split; [done|]. intros ?. apply Hn. by left.
           ++ intros [? Hn]. split; [done|]. intros [?| ->]; done.
Qed.

(** A pending key that is visible has no layout afterwards. *)
Lemma applyPending_layout_removed pending fv fo fl k :
  k ∈ visible → k ∈ pending ∨ fl !! k = None →
  (foldl (applyPendingKey visible) (fv, fo, fl) pending).2 !! k = None.
Proof.
  intros Hk. revert fv fo fl. induction pending as [|k' p IH]; intros fv fo fl Hcase.
  - simpl. by destruct Hcase as [?%elem_of_nil|?].
  - cbn [foldl]. unfold applyPendingKey at 2.
    destruct (decide (k' ∈ visible)) as [Hk'|Hk'].
    + apply IH. destruct (decide (k = k')) as [<-|Hne].
      * right. apply lookup_delete_eq.
      * destruct Hcase as [[?|?]%elem_of_cons|?]; [done|by left|].
        right. by rewrite lookup_delete_ne.
    + apply IH. assert (k ≠ k') by (by intros ->).
      destruct Hcase as [[?|?]%elem_of_cons|?]; [done|by left|].
      right. by rewrite lookup_insert_ne.
Qed.

(** A key that is not pending keeps its layout. *)
Lemma applyPending_layout_other pending fv fo fl k :
  k ∉ pending →
  (foldl (applyPendingKey visible) (fv, fo, fl) pending).2 !! k = fl !! k.
Proof.
  revert fv fo fl. induction pending as [|k' p IH]; intros fv fo fl Hk; [done|].
  apply not_elem_of_cons in Hk as [Hne Hk]. cbn [foldl]. unfold applyPendingKey at 2.
  destruct (decide (k' ∈ visible)); rewrite IH by done.
  - by rewrite lookup_delete_ne.
  - by rewrite lookup_insert_ne.
Qed.

Lemma applyPending_app pre post acc :
  foldl (applyPendingKey visible) acc (pre ++ post)
  = foldl (applyPendingKey visible) (foldl (applyPendingKey visible) acc pre) post.
Proof. apply foldl_app. Qed.

(** A pending key that is not visible gets a 3 by 2 layout at the position
    found in the layouts as they are when its turn comes. *)
Lemma applyPending_layout_added pre k post acc :
  k ∉ visible → k ∉ post →
  let before := (foldl (applyPendingKey visible) acc pre).2 in
  let position := findNextGridPosition before 3 2 in
  (foldl (applyPendingKey visible) acc (pre ++ k :: post)).2 !! k
  = Some (WidgetLayout.mk position.1 position.2 3 2).
Proof.
  intros Hk Hpost. cbv zeta. rewrite applyPending_app. cbn [foldl].
  destruct (foldl _ acc pre) as [[fv fo] fl]. unfold applyPendingKey at 2.
  rewrite decide_False by done. rewrite applyPending_layout_other by done.
  apply lookup_insert_eq.
Qed.

End Pending.
End SaveFacts.

Module SaveTheorems.
Import Dashboard NextPositionFacts SaveFacts ArrangementFacts.

(** C6, the input on which it fails: the only widget fills the rows 0 to
    99, so the scan finds no free position for the widget to add; it is
    put at column 0 of row 2, on cells the first widget covers, and stays
    there after the compaction. *)
Lemma handleSaveLayout_adds_on_taken_cells :
  let st := Examples.crowded in
  let finalLayouts := (applyPending st (pendingWidgetChanges st)).2 in
  pendingWidgetChanges st = ["emailStats"] ∧
  ("emailStats" ∉ visibleWidgets st) ∧
  findNextGridPosition (widgetLayouts st) 3 2 = (0, 2) ∧
  finalLayouts !! "emailStats" = Some (WidgetLayout.mk 0 2 3 2) ∧
  ¬ freeAt (widgetLayouts st) 3 2 (0, 2) ∧
  widgetLayouts (handleSaveLayout st).1 !! "leads" = Some (WidgetLayout.mk 0 0 12 100) ∧
  widgetLayouts (handleSaveLayout st).1 !! "emailStats" = Some (WidgetLayout.mk 0 2 3 2).
Proof.
  cbv zeta. split; [reflexivity|]. split.
  { apply (bool_decide_unpack ("emailStats" ∉ visibleWidgets Examples.crowded)).
    vm_compute. exact I. }
  split; [vm_compute; reflexivity|]. split; [vm_compute; reflexivity|]. split.
  - intros Hfree. apply (Hfree 0 2); simpl; [lia|lia|].
    exists "leads", (WidgetLayout.mk 0 0 12 100). split; [reflexivity|].
    unfold WidgetLayout.covers, COLS. simpl. lia.
  - split; vm_compute; reflexivity.
Qed.

(** C6, as the code has it.  Saving applies the pending set as a toggle.
    A pending key that is visible is gone from the final visible list,
    the final order and the final layouts.  A pending key that is not
    visible is appended to the visible list, appended to the order unless
    it is there, and gets a layout 3 wide and 2 high at the position
    [findNextGridPosition] returns for the layouts as they are when its
    turn comes: the first position of the scan that is free of them when
    there is one, as there is whenever they all end by row 99, and
    otherwise column 0 of the row twice their number, free or not.  Keys
    that are not pending keep their visibility.  The final layouts are
    compacted: whenever the reference first-fit finds a position in rows
    0..99 for each final visible widget, taken by ascending row and
    column of the final layouts, the layouts of the state are the
    reference layout.  The pending set is emptied, and what is saved is
    what the state now holds. *)
Theorem handleSaveLayout_applies_pending (st : State) :
  NoDup (pendingWidgetChanges st) →
  let pending := pendingWidgetChanges st in
  let visible := visibleWidgets st in
  let st' := (handleSaveLayout st).1 in
  let finalLayouts := (applyPending st pending).2 in
  visibleWidgets st'
    = filter (λ w, w ∉ pending) visible ++ filter (λ k, k ∉ visible) pending ∧
  widgetOrder st'
    = filter (λ w, ¬ (w ∈ pending ∧ w ∈ visible)) (widgetOrder st)
      ++ filter (λ k, (k ∉ visible) ∧ (k ∉ widgetOrder st)) pending ∧
  (∀ k, k ∈ pending → k ∈ visible →
     (k ∉ visibleWidgets st') ∧ (k ∉ widgetOrder st') ∧
     finalLayouts !! k = None ∧ widgetLayouts st' !! k = None) ∧
  (∀ pre k post, pending = pre ++ k :: post → k ∉ visible →
     let existing := (applyPending st pre).2 in
     let position := findNextGridPosition existing 3 2 in
     nextFreePosition existing 3 2 position ∧
     ((∀ k' l', existing !! k' = Some l' →
                WidgetLayout.y l' + WidgetLayout.h l' ≤ 99) →
      scanned 3 position ∧ freeAt existing 3 2 position) ∧
     finalLayouts !! k = Some (WidgetLayout.mk position.1 position.2 3 2) ∧
     k ∈ visibleWidgets st' ∧ k ∈ widgetOrder st' ∧
     ∃ l, widgetLayouts st' !! k = Some l ∧
          WidgetLayout.w l = 3 ∧ WidgetLayout.h l = 2) ∧
  (∀ k, k ∉ pending → (k ∈ visibleWidgets st' ↔ k ∈ visible)) ∧
  widgetLayouts st' = Packer.compactLayoutsUtil finalLayouts (visibleWidgets st') ∧
  (∀ order out, FirstFit.arrangement finalLayouts (visibleWidgets st') order →
                FirstFit.pack 100 order.*2 = Some out →
                widgetLayouts st' = out) ∧
  pendingWidgetChanges st' = [] ∧
  originalState st' = None ∧ isResizeMode st' = false ∧
  (handleSaveLayout st).2
    = mkSaved (visibleWidgets st') (widgetOrder st') (widgetLayouts st').
Proof.
  intros Hnd. cbv zeta. unfold handleSaveLayout.
  pose proof (applyPending_visible (visibleWidgets st) (pendingWidgetChanges st)
                (visibleWidgets st) (widgetOrder st) (widgetLayouts st)) as Hv.
  pose proof (applyPending_order (visibleWidgets st) (pendingWidgetChanges st)
                (visibleWidgets st) (widgetOrder st) (widgetLayouts st) Hnd) as Ho.
  fold (applyPending st (pendingWidgetChanges st)) in Hv, Ho.
  assert (filter (λ w, ¬ (w ∈ pendingWidgetChanges st ∧ w ∈ visibleWidgets st))
                 (visibleWidgets st)
          = filter (λ w, w ∉ pendingWidgetChanges st) (visibleWidgets st)) as Hfv.
  { apply filter_iff_in. intros w Hw. split; [intros Hn ?; by apply Hn|].
    intros Hn [? _]. done. }
  rewrite Hfv in Hv. clear Hfv.
  destruct (applyPending st (pendingWidgetChanges st)) as [[fv fo] fl] eqn:Hfinal.
  simpl in *. subst fv fo.
  split; [done|]. split; [done|]. split; [|split; [|split]].
  - intros k Hp Hk.
    assert (fl !! k = None) as Hfl.
    { replace fl with (applyPending st (pendingWidgetChanges st)).2 by (by rewrite Hfinal).
      apply applyPending_layout_removed; auto. }
    split; [|split; [|split]]; [| |done|].
    + rewrite elem_of_app, !list_elem_of_filter. tauto.
    + rewrite elem_of_app, !list_elem_of_filter. tauto.
    + apply eq_None_not_Some. intros [l Hl].
      apply PackerFacts.compactLayoutsUtil_lookup_Some in Hl as (_ & l0 & Hl0 & _).
      by rewrite Hfl in Hl0.
  - intros pre k post Hsplit Hk.
    assert (k ∉ post) as Hpost.
    { rewrite Hsplit in Hnd. apply NoDup_app in Hnd as (_ & _ & Hnd).
      by apply NoDup_cons in Hnd as [? _]. }
    assert (fl !! k = Some (WidgetLayout.mk
              (findNextGridPosition (applyPending st pre).2 3 2).1
              (findNextGridPosition (applyPending st pre).2 3 2).2 3 2)) as Hfl.
    { replace fl with (applyPending st (pendingWidgetChanges st)).2 by (by rewrite Hfinal).
      rewrite Hsplit. by apply applyPending_layout_added. }
    assert (k ∈ pendingWidgetChanges st) as Hin.
    { rewrite Hsplit, elem_of_app, elem_of_cons. auto. }
    pose proof (findNextGridPosition_nextFree (applyPending st pre).2 3 2) as Hnext.
    split; [exact Hnext|]. split.
    { intros Hrows. destruct Hnext as [(? & ? & _)|[Hnone _]]; [done|].
      exfalso. apply (Hnone (0, 99)).
      - unfold scanned, COLS. simpl. lia.
      - intros col row _ Hr (k' & l' & Hl' & [_ Hcov] & _). simpl in Hr.
        apply Hrows in Hl'. lia. }
    split; [done|].
    assert (k ∈ filter (λ w, w ∉ pendingWidgetChanges st) (visibleWidgets st)
              ++ filter (λ k, k ∉ visibleWidgets st) (pendingWidgetChanges st)) as Hfv.
    { rewrite elem_of_app, !list_elem_of_filter. auto. }
    split; [done|]. split.
    + rewrite elem_of_app, !list_elem_of_filter.
      destruct (decide (k ∈ widgetOrder st)); [left|right]; tauto.
    + destruct (PackerFacts.compactLayoutsUtil_lookup_is_Some fl _ k Hfv)
        as [l Hl]; [by rewrite Hfl|].
      exists l. split; [done|].
      destruct (PackerFacts.compactLayoutsUtil_lookup_Some _ _ _ _ Hl)
        as (_ & l0 & Hl0 & Hw & Hh).
      rewrite Hfl in Hl0. injection Hl0 as <-. done.
  - intros k Hk. rewrite elem_of_app, !list_elem_of_filter. tauto.
  - split; [done|]. split; [|done].
    intros order out Harr Hpack. by eapply compactLayoutsUtil_arranged.
Qed.

Lemma handleSaveLayout_applies_pending_witness :
  let st' := (handleSaveLayout Examples.customizing).1 in
  NoDup (pendingWidgetChanges Examples.customizing) ∧
  visibleWidgets st' = ["leads"; "emailStats"] ∧
  widgetOrder st' = ["leads"; "emailStats"] ∧
  pendingWidgetChanges st' = [] ∧
  widgetLayouts st' = Examples.config [("leads", WidgetLayout.mk 0 0 6 2);
                                       ("emailStats", WidgetLayout.mk 6 0 3 2)].
Proof.
  cbv zeta.
  assert (NoDup (pendingWidgetChanges Examples.customizing)) as Hnd.
  { apply (bool_decide_unpack (NoDup (pendingWidgetChanges Examples.customizing))).
    vm_compute. exact I. }
  split; [exact Hnd|].
  destruct (handleSaveLayout_applies_pending Examples.customizing Hnd)
    as (Hv & Ho & _ & _ & _ & _ & Hfit & Hp & _).
  split; [exact Hv|]. split; [exact Ho|]. split; [exact Hp|].
  apply (Hfit [(0%nat, Packer.mkItem "leads" (WidgetLayout.mk 0 0 6 2));
               (1%nat, Packer.mkItem "emailStats" (WidgetLayout.mk 6 0 3 2))]).
  - split.
    + assert (FirstFit.numbered
                (FirstFit.widgets
                   (applyPending Examples.customizing
                      (pendingWidgetChanges Examples.customizing)).2
                   (visibleWidgets (handleSaveLayout Examples.customizing).1))
              = [(0%nat, Packer.mkItem "leads" (WidgetLayout.mk 0 0 6 2));
                 (1%nat, Packer.mkItem "emailStats" (WidgetLayout.mk 6 0 3 2))]) as ->
        by (vm_compute; reflexivity).
      reflexivity.
    + repeat constructor; unfold FirstFit.earlier; simpl; lia.
  - vm_compute. reflexivity.
Defined.

End SaveTheorems.

(** ** The JSON text of a layout configuration *)

Module JsonFacts.
Import Json.

Lemma append_cons c (s1 s2 : string) : String c s1 +:+ s2 = String c (s1 +:+ s2).
Proof. reflexivity. Qed.

Lemma append_nil_l (s : string) : "" +:+ s = s.
Proof. reflexivity. Qed.

Lemma append_assoc (s1 s2 s3 : string) : (s1 +:+ s2) +:+ s3 = s1 +:+ (s2 +:+ s3).
Proof. induction s1 as [|c s1 IH]; [done|]. by rewrite !append_cons, IH. Qed.

Lemma append_nil_r (s : string) : s +:+ "" = s.
Proof. induction s as [|c s IH]; [done|]. by rewrite append_cons, IH. Qed.

Lemma length_append (s1 s2 : string) :
  String.length (s1 +:+ s2) = (String.length s1 + String.length s2)%nat.
Proof. induction s1 as [|c s1 IH]; [done|]. rewrite append_cons. simpl. by rewrite IH. Qed.

(** *** Strings *)

Lemma parseChars_escapeChar c s t rest :
  parseChars s = Some (t, rest) →
  parseChars (escapeChar c +:+ s) = Some (String c t, rest).
Proof.
  intros H.
  destruct c as [[] [] [] [] [] [] [] []];
    match goal with
    | |- context [escapeChar ?c] =>
        let e := eval vm_compute in (escapeChar c) in change (escapeChar c) with e
    end;
    rewrite !append_cons, append_nil_l; cbn; rewrite H; reflexivity.
Qed.

Lemma parseChars_escape k rest :
  parseChars (escape k +:+ String dquote rest) = Some (k, rest).
Proof.
  induction k as [|c k IH]; [done|]. cbn [escape]. rewrite append_assoc.
  by apply parseChars_escapeChar.
Qed.

(** *** Numbers *)

Lemma digitOf_pretty_char (x : N) :
  (x < 10)%N → digitOf (pretty_N_char x) = Some (Z.of_N x).
Proof.
  intros Hx.
  assert (x = 0 ∨ x = 1 ∨ x = 2 ∨ x = 3 ∨ x = 4 ∨ x = 5 ∨ x = 6 ∨ x = 7 ∨ x = 8 ∨ x = 9)%N
    as Hcases by lia.
  repeat (destruct Hcases as [->|Hcases]; [reflexivity|]). by subst.
Qed.

Lemma pretty_N_go_append (x : N) (s rest : string) :
  pretty_N_go x s +:+ rest = pretty_N_go x (s +:+ rest).
Proof.
  revert s. induction (N.lt_wf_0 x) as [x _ IH]; intros s.
  destruct (decide (x = 0)%N) as [->|Hx]; [by rewrite !pretty_N_go_0|].
  rewrite (pretty_N_go_step x s), (pretty_N_go_step x (s +:+ rest)) by lia.
  rewrite IH by (apply N.div_lt; lia). done.
Qed.

(** Reading back the digits written for a positive number. *)
Lemma readDigits_pretty_go (x : N) (s : string) (count : nat) :
  (0 < x)%N →
  ∃ count', readDigits 0 count (pretty_N_go x s) = readDigits (Z.of_N x) count' s.
Proof.
  revert s count. induction (N.lt_wf_0 x) as [x _ IH]; intros s count Hx.
  rewrite pretty_N_go_step by done.
  pose proof (N.div_mod x 10 ltac:(done)) as Hdm.
  pose proof (N.mod_lt x 10 ltac:(done)) as Hmod.
  destruct (decide (x `div` 10 = 0)%N) as [Hq|Hq].
  - rewrite Hq, pretty_N_go_0. cbn [readDigits].
    rewrite digitOf_pretty_char by done. exists (S count). f_equal. lia.
  - destruct (IH (x `div` 10)%N ltac:(apply N.div_lt; lia)
                (String (pretty_N_char (x `mod` 10)) s) count ltac:(lia))
      as (count' & ->).
    cbn [readDigits]. rewrite digitOf_pretty_char by done.
    exists (S count'). f_equal. lia.
Qed.

(** The text of a positive number starts with a digit that is not zero. *)
Lemma pretty_N_go_head (x : N) (s : string) :
  (0 < x)%N →
  ∃ c r d, pretty_N_go x s = String c r ∧ digitOf c = Some d ∧ 0 < d.
Proof.
  revert s. induction (N.lt_wf_0 x) as [x _ IH]; intros s Hx.
  rewrite pretty_N_go_step by done.
  pose proof (N.div_mod x 10 ltac:(done)) as Hdm.
  pose proof (N.mod_lt x 10 ltac:(done)) as Hmod.
  destruct (decide (x `div` 10 = 0)%N) as [Hq|Hq].
  - rewrite Hq, pretty_N_go_0. eexists _, _, _. split; [done|].
    split; [by apply digitOf_pretty_char|]. lia.
  - apply IH; [apply N.div_lt; lia|lia].
Qed.

Lemma readDigits_end acc count rest :
  endsNumber rest → readDigits acc count rest = (acc, count, rest).
Proof.
  intros (c & r & -> & Hc). cbn [readDigits].
  assert (digitOf c = None) as ->; [|done].
  unfold digitOf. destruct Hc as [-> | ->]; done.
Qed.

(** After the digits, neither a fraction nor an exponent follows. *)
Lemma readFraction_end int rest :
  endsNumber rest → readFraction int rest = Some (int, 0, rest).
Proof.
  intros (c & r & -> & Hc). unfold readFraction.
  assert ((code c =? 46) = false) as -> by (destruct Hc as [-> | ->]; done). done.
Qed.

Lemma readExponent_end rest :
  endsNumber rest → readExponent rest = Some (0, rest).
Proof.
  intros (c & r & -> & Hc). unfold readExponent.
  assert ((code c =? 101) = false ∧ (code c =? 69) = false) as [-> ->]
    by (destruct Hc as [-> | ->]; done).
  done.
Qed.

(** The text of a natural number starts with a digit. *)
Lemma pretty_N_head (x : N) (rest : string) :
  ∃ c r d, pretty x +:+ rest = String c r ∧ digitOf c = Some d.
Proof.
  unfold pretty, pretty_N. destruct (decide (x = 0)%N) as [->|Hx].
  - by eexists _, _, _.
  - rewrite pretty_N_go_append, append_nil_l.
    destruct (pretty_N_go_head x rest ltac:(lia)) as (c & r & d & ? & ? & _). eauto.
Qed.

Lemma digit_not_minus c d : digitOf c = Some d → (code c =? 45) = false.
Proof.
  unfold digitOf. destruct ((48 <=? code c) && (code c <=? 57)) eqn:E; [|done].
  intros _. apply andb_true_iff in E. lia.
Qed.

Lemma readSign_natural (x : N) (rest : string) :
  readSign (pretty x +:+ rest) = (false, pretty x +:+ rest).
Proof.
  destruct (pretty_N_head x rest) as (c & r & d & -> & Hd). unfold readSign.
  by rewrite (digit_not_minus c d).
Qed.

Lemma readInteger_natural (x : N) (rest : string) :
  endsNumber rest → readInteger (pretty x +:+ rest) = Some (Z.of_N x, rest).
Proof.
  intros Hend. unfold pretty, pretty_N.
  destruct (decide (x = 0)%N) as [->|Hx]; [done|].
  rewrite pretty_N_go_append, append_nil_l.
  destruct (pretty_N_go_head x rest ltac:(lia)) as (c & r & d & Heq & Hd & Hpos).
  destruct (readDigits_pretty_go x rest 0 ltac:(lia)) as (count & Hread).
  unfold readInteger. rewrite Hread, readDigits_end by done. rewrite Heq, Hd.
  destruct (d =? 0) eqn:E; [lia|]. done.
Qed.

Lemma parseNumber_natural (negative : bool) (x : N) (rest : string) :
  endsNumber rest →
  ('(int, s2) ← readInteger (pretty x +:+ rest);
   '(mantissa, scale, s3) ← readFraction int s2;
   '(exponent, s4) ← readExponent s3;
   Some (Num (if negative then - mantissa else mantissa) (exponent - scale), s4))
  = Some (Num (if negative then - Z.of_N x else Z.of_N x) 0, rest).
Proof.
  intros Hend. rewrite readInteger_natural by done. simpl.
  rewrite readFraction_end by done. simpl. rewrite readExponent_end by done. done.
Qed.

Lemma parseNumber_numberToString (n : Z) (rest : string) :
  endsNumber rest → parseNumber (numberToString n +:+ rest) = Some (Num n 0, rest).
Proof.
  intros Hend. unfold numberToString, parseNumber. destruct (n <? 0) eqn:E.
  - rewrite append_assoc, append_cons, append_nil_l.
    etrans; [exact (parseNumber_natural true (Z.to_N (- n)) rest Hend)|].
    do 2 f_equal. f_equal. lia.
  - rewrite readSign_natural.
    etrans; [exact (parseNumber_natural false (Z.to_N n) rest Hend)|].
    do 2 f_equal. f_equal. lia.
Qed.

(** The text of an integer starts with a digit or a minus sign, and with
    such a character a value is a number. *)
Lemma parseValue_number_start fuel c r :
  is_Some (digitOf c) ∨ code c = 45 →
  parseValue (S fuel) (String c r) = parseNumber (String c r).
Proof.
  intros Hc.
  destruct c as [[] [] [] [] [] [] [] []];
    try reflexivity; exfalso; destruct Hc as [[? Hd]|Hm]; by vm_compute in *.
Qed.

Lemma parseValue_numberToString fuel (n : Z) (rest : string) :
  endsNumber rest →
  parseValue (S fuel) (numberToString n +:+ rest) = Some (Num n 0, rest).
Proof.
  intros Hend. rewrite <- (parseNumber_numberToString n rest Hend).
  unfold numberToString. destruct (n <? 0).
  - rewrite append_assoc, append_cons, append_nil_l.
    apply parseValue_number_start. by right.
  - destruct (pretty_N_head (Z.to_N n) rest) as (c & r & d & -> & Hd).
    apply parseValue_number_start. left. by rewrite Hd.
Qed.


(** *** Objects *)

Lemma parseValue_object fuel k s :
  parseValue (S fuel) ("{" +:+ quote k +:+ s) = parseMembers fuel ∅ (quote k +:+ s).
Proof. reflexivity. Qed.

Lemma parseMembers_member fuel acc k s v r :
  parseValue fuel s = Some (v, r) →
  parseMembers (S fuel) acc (quote k +:+ ":" +:+ s)
  = match skipWhitespace r with
    | String c r' =>
        if code c =? 44 then parseMembers fuel (<[ k := v ]> acc) r'
        else if code c =? 125 then Some (Obj (<[ k := v ]> acc), r')
        else None
    | EmptyString => None
    end.
Proof.
  intros Hv. unfold quote. rewrite append_cons, append_assoc.
  cbn [parseMembers skipWhitespace].
  change (isWhitespace dquote) with false. change (code dquote =? 34) with true.
  cbv iota. rewrite append_cons, append_nil_l, parseChars_escape. simpl.
  by rewrite append_nil_l, Hv.
Qed.

Lemma parseMembers_comma fuel acc k s v r :
  parseValue fuel s = Some (v, "," +:+ r) →
  parseMembers (S fuel) acc (quote k +:+ ":" +:+ s)
  = parseMembers fuel (<[ k := v ]> acc) r.
Proof. intros Hv. by rewrite (parseMembers_member _ _ _ _ _ _ Hv). Qed.

Lemma parseMembers_close fuel acc k s v r :
  parseValue fuel s = Some (v, "}" +:+ r) →
  parseMembers (S fuel) acc (quote k +:+ ":" +:+ s) = Some (Obj (<[ k := v ]> acc), r).
Proof. intros Hv. by rewrite (parseMembers_member _ _ _ _ _ _ Hv). Qed.

Lemma endsNumber_comma r : endsNumber ("," +:+ r).
Proof. eexists _, _. split; [reflexivity|by left]. Qed.

Lemma endsNumber_brace r : endsNumber ("}" +:+ r).
Proof. eexists _, _. split; [reflexivity|by right]. Qed.

Lemma layoutValue_ofLayout l : layoutValue l = ofLayout l.
Proof. reflexivity. Qed.

Lemma parseValue_stringifyLayout fuel l rest :
  parseValue (S (S (S (S (S (S fuel)))))) (stringifyLayout l +:+ rest)
  = Some (ofLayout l, rest).
Proof.
  rewrite <- layoutValue_ofLayout. unfold stringifyLayout. rewrite !append_assoc.
  rewrite parseValue_object.
  do 3 (erewrite parseMembers_comma
          by (apply parseValue_numberToString, endsNumber_comma)).
  erewrite parseMembers_close by (apply parseValue_numberToString, endsNumber_brace).
  done.
Qed.


(** *** A whole configuration *)

Lemma parseMembers_concat entries acc fuel rest :
  entries ≠ [] → (length entries + 6 ≤ fuel)%nat →
  parseMembers fuel acc
    (String.concat "," (stringifyMember <$> entries) +:+ "}" +:+ rest)
  = Some (Obj (foldl insertLayout acc entries), rest).
Proof.
  revert acc fuel. induction entries as [|[k l] entries IH]; intros acc fuel Hne Hfuel;
    [done|].
  destruct fuel as [|fuel]; [simpl in Hfuel; lia|].
  assert (∃ f', fuel = S (S (S (S (S (S f')))))) as (f' & Hf').
  { simpl in Hfuel. exists (fuel - 6)%nat. lia. }
  destruct entries as [|e entries].
  - cbn [fmap list_fmap String.concat]. unfold stringifyMember at 1. cbn [fst snd].
    rewrite !append_assoc.
    erewrite parseMembers_close; [done|]. rewrite Hf'. apply parseValue_stringifyLayout.
  - change (String.concat "," (stringifyMember <$> (k, l) :: e :: entries))
      with (stringifyMember (k, l) +:+ "," +:+
            String.concat "," (stringifyMember <$> e :: entries)).
    unfold stringifyMember at 1. cbn [fst snd]. rewrite !append_assoc.
    erewrite parseMembers_comma; [|rewrite Hf'; apply parseValue_stringifyLayout].
    rewrite IH; [done|done|]. simpl in *. lia.
Qed.

Lemma length_stringifyMember kl : (8 ≤ String.length (stringifyMember kl))%nat.
Proof.
  unfold stringifyMember, stringifyLayout, quote.
  rewrite !length_append; simpl. rewrite !length_append. simpl. lia.
Qed.

Lemma length_concat_members entries :
  (8 * length entries ≤ String.length (String.concat "," (stringifyMember <$> entries)))%nat.
Proof.
  induction entries as [|kl entries IH]; [simpl; lia|].
  pose proof (length_stringifyMember kl).
  destruct entries as [|e entries]; [simpl in *; lia|].
  change (String.concat "," (stringifyMember <$> kl :: e :: entries))
    with (stringifyMember kl +:+ "," +:+
          String.concat "," (stringifyMember <$> e :: entries)).
  rewrite !length_append. simpl in *. lia.
Qed.

(** Inserting the entries of a map one after the other rebuilds the map. *)
Lemma foldl_insertLayout_lookup (entries : list (string * WidgetLayout.t)) acc k :
  NoDup entries.*1 →
  foldl insertLayout acc entries !! k
  = match (list_to_map entries : gmap string WidgetLayout.t) !! k with
    | Some l => Some (ofLayout l)
    | None => acc !! k
    end.
Proof.
  revert acc. induction entries as [|[k' l] entries IH]; intros acc Hnd; [done|].
  rewrite fmap_cons in Hnd. apply NoDup_cons in Hnd as [Hk' Hnd].
  cbn [foldl]. rewrite IH by done.
  unfold insertLayout. cbn [fst snd] in *. rewrite list_to_map_cons.
  destruct (decide (k' = k)) as [->|Hne].
  - rewrite !lookup_insert_eq.
    by rewrite (not_elem_of_list_to_map_1 (M := gmap string) entries k).
  - by rewrite !lookup_insert_ne.
Qed.

Lemma foldl_insertLayout_map (layouts : gmap string WidgetLayout.t) :
  foldl insertLayout ∅ (map_to_list layouts) = ofLayout <$> layouts.
Proof.
  apply map_eq. intros k.
  rewrite foldl_insertLayout_lookup by apply NoDup_fst_map_to_list.
  rewrite list_to_map_to_list, lookup_fmap, lookup_empty.
  by destruct (layouts !! k).
Qed.

(** Parsing the text written for a configuration gives the configuration
    back, as a value. *)
Lemma JSON_parse_stringify (layouts : gmap string WidgetLayout.t) :
  JSON_parse (JSON_stringify layouts) = Some (ofLayouts layouts).
Proof.
  unfold JSON_parse, JSON_stringify, ofLayouts.
  rewrite <- foldl_insertLayout_map.
  pose proof (length_concat_members (map_to_list layouts)) as Hlen.
  destruct (map_to_list layouts) as [|[k l] entries] eqn:E; [done|].
  assert (parseValue (S (String.length
            ("{" +:+ String.concat "," (stringifyMember <$> (k, l) :: entries) +:+ "}")))
            ("{" +:+ String.concat "," (stringifyMember <$> (k, l) :: entries) +:+ "}")
          = Some (Obj (foldl insertLayout ∅ ((k, l) :: entries)), EmptyString)) as ->;
    [|done].
  set (n := String.length _).
  assert (length ((k, l) :: entries) + 6 ≤ n)%nat as Hn.
  { subst n. rewrite append_cons, append_nil_l. cbn [String.length].
    rewrite length_append. cbn [length String.length] in *. lia. }
  clearbody n.
  assert (∀ rest, String.concat "," (stringifyMember <$> (k, l) :: entries) +:+ rest
                  = quote k +:+ ":" +:+ stringifyLayout l +:+
                    match entries with
                    | [] => rest
                    | _ => "," +:+ String.concat "," (stringifyMember <$> entries) +:+ rest
                    end) as Hshape.
  { intros rest. destruct entries as [|e entries].
    - cbn [fmap list_fmap String.concat]. unfold stringifyMember. cbn [fst snd].
      by rewrite !append_assoc.
    - change (String.concat "," (stringifyMember <$> (k, l) :: e :: entries))
        with (stringifyMember (k, l) +:+ "," +:+
              String.concat "," (stringifyMember <$> e :: entries)).
      unfold stringifyMember at 1. cbn [fst snd]. by rewrite !append_assoc. }
  rewrite Hshape, parseValue_object, <- Hshape.
  rewrite <- (append_nil_r ("}")) at 1.
  by apply parseMembers_concat.
Qed.

(** The typed view of the value of a configuration is the configuration. *)
Lemma asLayout_ofLayout l : asLayout (ofLayout l) = Some l.
Proof.
  destruct l as [x y w h]. unfold asLayout, ofLayout. cbn [WidgetLayout.x
    WidgetLayout.y WidgetLayout.w WidgetLayout.h].
  set (m := <[ "x" := _ ]> _).
  assert (m !! "x" = Some (Num x 0)) as -> by reflexivity.
  assert (m !! "y" = Some (Num y 0)) as -> by reflexivity.
  assert (m !! "w" = Some (Num w 0)) as -> by reflexivity.
  assert (m !! "h" = Some (Num h 0)) as -> by reflexivity.
  simpl. by rewrite !Z.mul_1_r.
Qed.

Lemma asLayouts_ofLayouts (layouts : gmap string WidgetLayout.t) :
  asLayouts (ofLayouts layouts) = layouts.
Proof.
  unfold asLayouts, ofLayouts. apply map_eq. intros k.
  rewrite lookup_omap, lookup_fmap. destruct (layouts !! k) as [l|]; [|done].
  simpl. apply asLayout_ofLayout.
Qed.

End JsonFacts.

(** ** Parsing the stored layouts *)

Module ParseTheorems.
Import Json Dashboard JsonFacts.

(** C7. Layouts survive the trip through the stored text: parsing what
    [JSON.stringify] writes for a configuration, as [parseWidgetLayouts]
    does for a stored string, gives the configuration back. *)
Theorem parseWidgetLayouts_round_trip (layouts : gmap string WidgetLayout.t)
    (visible order : option (list string)) :
  let prefs := Some (mkPrefs visible order (Some (Str (JSON_stringify layouts)))) in
  parseWidgetLayouts prefs = ofLayouts layouts ∧
  asLayouts (parseWidgetLayouts prefs) = layouts.
Proof.
  cbv zeta.
  assert (parseWidgetLayouts
            (Some (mkPrefs visible order (Some (Str (JSON_stringify layouts)))))
          = ofLayouts layouts) as ->.
  { unfold parseWidgetLayouts. simpl. rewrite JSON_parse_stringify. done. }
  split; [done|]. apply asLayouts_ofLayouts.
Qed.

(** C8, the input on which it fails: the stored text of an array is
    valid JSON for something that is not an object, yet [typeof] calls it
    one, and the array itself is returned. *)
Lemma parseWidgetLayouts_returns_array :
  let prefs := Some (mkPrefs None None (Some (Str "[1]"))) in
  JSON_parse "[1]" = Some (Arr [Num 1 0]) ∧
  parseWidgetLayouts prefs = Arr [Num 1 0] ∧
  parseWidgetLayouts prefs ≠ emptyConfig.
Proof. cbv zeta. split; [reflexivity|]. split; [reflexivity|]. discriminate. Qed.

(** C8, as the code has it: [parseWidgetLayouts] always returns, and what
    it returns is an object or an array.  It is the empty configuration
    when the stored value is absent or falsy, when a stored string is not
    valid JSON, and when its JSON is a primitive or [null]; a stored
    object or array, and the object or array a stored string parses to,
    is returned as it is. *)
Theorem parseWidgetLayouts_total (dashboardPrefs : option Prefs) :
  let view := dashboardPrefs ≫= layout_view in
  let result := parseWidgetLayouts dashboardPrefs in
  ((∃ m, result = Obj m) ∨ (∃ l, result = Arr l)) ∧
  (view = None → result = emptyConfig) ∧
  (∀ v, view = Some v → truthy v = false → result = emptyConfig) ∧
  (∀ m, view = Some (Obj m) → result = Obj m) ∧
  (∀ l, view = Some (Arr l) → result = Arr l) ∧
  (∀ b, view = Some (Bool b) → result = emptyConfig) ∧
  (∀ m e, view = Some (Num m e) → result = emptyConfig) ∧
  (∀ text, view = Some (Str text) → JSON_parse text = None → result = emptyConfig) ∧
  (∀ text m, view = Some (Str text) → JSON_parse text = Some (Obj m) → result = Obj m) ∧
  (∀ text l, view = Some (Str text) → JSON_parse text = Some (Arr l) → result = Arr l) ∧
  (∀ text v, view = Some (Str text) → JSON_parse text = Some v →
     (∀ m, v ≠ Obj m) → (∀ l, v ≠ Arr l) → result = emptyConfig).
Proof.
  cbv zeta. unfold parseWidgetLayouts.
  destruct (dashboardPrefs ≫= layout_view) as [view|]; [|by repeat split; eauto].
  assert (JSON_parse "" = None) as Hempty by reflexivity.
  repeat split.
  - destruct view as [|b|m e|text|l|m]; simpl; eauto.
    + destruct b; simpl; eauto.
    + destruct (m =? 0); simpl; eauto.
    + destruct (String.eqb text ""); simpl; eauto.
      destruct (JSON_parse text) as [[| | | | |]|]; simpl; eauto.
  - done.
  - intros v [= <-] ->. done.
  - by intros m [= ->].
  - by intros l [= ->].
  - intros b [= ->]. by destruct b.
  - intros m e [= ->]. simpl. by destruct (m =? 0).
  - intros text [= ->] Hp. simpl. destruct (String.eqb text ""); simpl; [done|].
    by rewrite Hp.
  - intros text m [= ->] Hp. simpl. destruct (String.eqb_spec text "") as [->|_].
    + by rewrite Hempty in Hp.
    + simpl. by rewrite Hp.
  - intros text l [= ->] Hp. simpl. destruct (String.eqb_spec text "") as [->|_].
    + by rewrite Hempty in Hp.
    + simpl. by rewrite Hp.
  - intros text v [= ->] Hp Hobj Harr. simpl.
    destruct (String.eqb text ""); simpl; [done|]. rewrite Hp.
    destruct v; simpl; try done.
    + by destruct (Harr l).
    + by destruct (Hobj m).
Qed.

Lemma parseWidgetLayouts_total_witness :
  Some (mkPrefs None None (Some (Str "legacy"))) ≫= layout_view = Some (Str "legacy") ∧
  JSON_parse "legacy" = None ∧
  parseWidgetLayouts (Some (mkPrefs None None (Some (Str "legacy")))) = emptyConfig.
Proof.
  split; [reflexivity|]. split; [reflexivity|].
  destruct (parseWidgetLayouts_total (Some (mkPrefs None None (Some (Str "legacy")))))
    as (_ & _ & _ & _ & _ & _ & _ & Hmalformed & _).
  apply (Hmalformed "legacy"); reflexivity.
Defined.

End ParseTheorems.

(** ** The lead-status filter *)

Module StatusFilterTheorems.
Import StatusFilter.

(** C9. The filter renders the count badge exactly when the value is not
    "all", and the badge then reads 1. *)
Theorem badge_reflects_filter (value : string) :
  (is_Some (badge (LeadStatusFilter value)) ↔ value ≠ "all"%string) ∧
  (∀ text, badge (LeadStatusFilter value) = Some text → text = "1"%string).
Proof.
  unfold LeadStatusFilter; simpl.
  destruct (String.eqb_spec value "all") as [->|Hne]; simpl.
  - split; [|done]. split; [by intros [??]|done].
  - split; [|by intros ? [= <-]]. split; [done|eauto].
Qed.

End StatusFilterTheorems.

(** ** Loading the preferences *)

Module LoadFacts.
Import Dashboard.

Lemma firstAt_exists (l : list string) k : k ∈ l → ∃ i, firstAt l k i.
Proof.
  induction l as [|a l IH]; [by intros ?%elem_of_nil|].
  destruct (decide (a = k)) as [->|Hne].
  - intros _. exists 0%nat. split; [done|]. intros j ?. lia.
  - intros [?|Hin]%elem_of_cons; [done|].
    destruct (IH Hin) as (i & Hi & Hfirst). exists (S i). split; [done|].
    intros [|j] Hj; simpl; [congruence|]. apply Hfirst. lia.
Qed.

Lemma firstAt_app_l (l l' : list string) k i :
  firstAt l k i → firstAt (l ++ l') k i.
Proof.
  intros [Hi Hfirst]. pose proof (lookup_lt_Some _ _ _ Hi) as Hlen. split.
  - by rewrite lookup_app_l.
  - intros j Hj. rewrite lookup_app_l by lia. by apply Hfirst.
Qed.

Lemma firstAt_snoc_new (l : list string) k :
  k ∉ l → firstAt (l ++ [k]) k (length l).
Proof.
  intros Hk. split.
  - rewrite lookup_app_r by lia. by rewrite Nat.sub_diag.
  - intros j Hj. rewrite lookup_app_l by done. intros Hl. apply Hk.
    by eapply list_elem_of_lookup_2.
Qed.

Lemma firstOccurrences_nil allowed : firstOccurrences allowed [] [].
Proof.
  split; [constructor|]. split.
  - intros k. split; [by intros ?%elem_of_nil|by intros [?%elem_of_nil _]].
  - intros i j a b _ Hi. done.
Qed.

(** A key that is not allowed, or was seen before, changes nothing. *)
Lemma firstOccurrences_skip allowed raw result k :
  k ∉ allowed ∨ k ∈ result →
  firstOccurrences allowed raw result →
  firstOccurrences allowed (raw ++ [k]) result.
Proof.
  intros Hk (Hnd & Hmem & Hord). split; [done|]. split.
  - intros k'. rewrite Hmem, elem_of_app, list_elem_of_singleton. split.
    + intros [??]. auto.
    + intros [[?| ->] Hall]; [done|]. destruct Hk as [?|Hin]; [done|].
      by apply Hmem in Hin.
  - intros i j a b Hij Ha Hb. destruct (Hord i j a b Hij Ha Hb) as (i' & j' & ? & ? & ?).
    exists i', j'. auto using firstAt_app_l.
Qed.

(** A new allowed key goes to the end. *)
Lemma firstOccurrences_push allowed raw result k :
  k ∈ allowed → k ∉ result →
  firstOccurrences allowed raw result →
  firstOccurrences allowed (raw ++ [k]) (result ++ [k]).
Proof.
  intros Hall Hnew (Hnd & Hmem & Hord).
  assert (k ∉ raw) as Hraw by (intros ?; apply Hnew, Hmem; done).
  split; [|split].
  - apply NoDup_app. split; [done|]. split; [|apply NoDup_singleton].
    intros k' ? ->%list_elem_of_singleton. done.
  - intros k'. rewrite !elem_of_app, Hmem, list_elem_of_singleton. split.
    + intros [[??]| ->]; auto.
    + intros [[?| ->] ?]; auto.
  - intros i j a b Hij Ha Hb.
    assert (i < length result)%nat as Hi.
    { apply lookup_lt_Some in Hb. rewrite length_app in Hb. simpl in Hb. lia. }
    rewrite lookup_app_l in Ha by done.
    destruct (decide (j < length result)%nat) as [Hj|Hj].
    + rewrite lookup_app_l in Hb by done.
      destruct (Hord i j a b Hij Ha Hb) as (i' & j' & ? & ? & ?).
      exists i', j'. auto using firstAt_app_l.
    + rewrite lookup_app_r in Hb by lia.
      destruct (j - length result)%nat eqn:E; [|by destruct n]. injection Hb as <-.
      assert (a ∈ raw) as Hin.
      { apply (proj1 (Hmem a)). by eapply list_elem_of_lookup_2. }
      destruct (firstAt_exists _ _ Hin) as (i' & Hi').
      exists i', (length raw). split; [by apply firstAt_app_l|].
      split; [by apply firstAt_snoc_new|].
      destruct Hi' as [Hl _]. by apply lookup_lt_Some in Hl.
Qed.

Section Sanitize.
Variable DEFAULT_WIDGETS : list Widget.

Lemma sanitize_invariant keys :
  let acc := foldl (sanitizeStep (list_to_set (defaultWidgetKeys DEFAULT_WIDGETS)))
                   ([], ∅) keys in
  firstOccurrences (defaultWidgetKeys DEFAULT_WIDGETS) keys acc.1 ∧
  ∀ k, k ∈ acc.2 ↔ k ∈ acc.1.
Proof.
  induction keys as [|k keys IH] using rev_ind; simpl.
  - split; [apply firstOccurrences_nil|]. intros k.
    split; [by intros ?%not_elem_of_empty|by intros ?%elem_of_nil].
  - rewrite foldl_app. simpl in *. destruct IH as [Hfirst Hseen].
    destruct (foldl _ _ keys) as [uniq seen]. simpl in *.
    unfold sanitizeStep; simpl.
    destruct (decide (k ∈ _)) as [Hall|Hall].
    + apply elem_of_list_to_set in Hall.
      destruct (decide (k ∈ seen)) as [Hs|Hs]; simpl.
      * split; [|done]. apply firstOccurrences_skip; [|done]. right. by apply Hseen.
      * split.
        -- apply firstOccurrences_push; [done| |done]. by rewrite <- Hseen.
        -- intros k'. rewrite elem_of_union, elem_of_singleton, elem_of_app,
             list_elem_of_singleton, Hseen. tauto.
    + split; [|done]. apply firstOccurrences_skip; [|done]. left.
      by rewrite elem_of_list_to_set in Hall.
Qed.

Lemma sanitizeKeys_firstOccurrences keys :
  firstOccurrences (defaultWidgetKeys DEFAULT_WIDGETS) keys
                   (sanitizeKeys DEFAULT_WIDGETS keys).
Proof. apply sanitize_invariant. Qed.

End Sanitize.
End LoadFacts.

Module LoadTheorems.
Import Dashboard LoadFacts.



End LoadTheorems.

(** ** Further properties of the code *)

Module ListFacts.

Lemma length_filter_cons {A} (f : A → bool) a l :
  length (List.filter f (a :: l)) = ((if f a then 1 else 0) + length (List.filter f l))%nat.
Proof. simpl. by destruct (f a). Qed.

Lemma length_filter_le {A} (f : A → bool) l :
  (length (List.filter f l) ≤ length l)%nat.
Proof.
  induction l as [|a l IH]; [done|]. rewrite length_filter_cons. simpl.
  destruct (f a); lia.
Qed.

Lemma filter_none {A} (P : A → Prop) `{!∀ x, Decision (P x)} (l : list A) :
  (∀ x, x ∈ l → ¬ P x) → filter P l = [].
Proof.
  induction l as [|a l IH]; intros Hnone; [done|].
  rewrite filter_cons_False by (apply Hnone; left). apply IH.
  intros x ?. apply Hnone. by right.
Qed.

End ListFacts.

Module PackerMoreFacts.
Import Packer PackerFacts ScanFacts IdempotenceFacts.

(** A scanned position that [canPlace] accepts bounds the position the
    scan finds: the scan stops there at the latest. *)
Lemma findSlot_bounded g w h x y :
  0 ≤ y < 100 → 0 ≤ x ≤ GRID_COLS - w → canPlace g x y w h = true →
  ∃ p, findSlot g w h = Some p ∧ 0 ≤ p.1 ∧ 0 ≤ p.2 ∧
       (p.2 < y ∨ (p.2 = y ∧ p.1 ≤ x)).
Proof.
  intros Hy Hx Hfit. unfold findSlot, scanOrder.
  destruct (find _ _) as [p|] eqn:Hfind.
  - exists p. split; [done|].
    apply find_scan_least in Hfind as (_ & Hp2 & Hp1 & Hleast).
    split; [lia|]. split; [lia|].
    destruct (decide (p.2 < y ∨ (p.2 = y ∧ p.1 ≤ x))) as [?|Hn]; [done|].
    assert (canPlace g x y w h = false) as Hf
      by (apply (Hleast x y); lia).
    congruence.
  - assert (canPlace g x y w h = false) as Hf
      by (apply (find_scan_none _ _ _ Hfind x y); lia).
    congruence.
Qed.



Lemma totalHeight_cons it its :
  totalHeight (it :: its) = rowsTaken it + totalHeight its.
Proof. done. Qed.

Lemma totalHeight_nonneg its : 0 ≤ totalHeight its.
Proof. induction its as [|it its IH]; simpl; unfold rowsTaken; lia. Qed.

Lemma totalHeight_Permutation its its' :
  its ≡ₚ its' → totalHeight its = totalHeight its'.
Proof. induction 1; simpl; lia. Qed.

(** While the rows from [B] on are empty and the heights still to come fit
    below row 100, every item is placed by the scan, above the sum of the
    heights. *)
Lemma foldl_placeItem_short its : ∀ st B,
  0 ≤ B → (∀ r c, cell (grid st) r c = true → r < B) →
  Forall (λ it, item_w it ≤ GRID_COLS) its →
  B + totalHeight its ≤ 100 →
  fallbackFree st its = true ∧
  ∀ k l, compacted (foldl placeItem st its) !! k = Some l →
         compacted st !! k = Some l ∨
         (0 ≤ WidgetLayout.y l ∧
          WidgetLayout.y l + Z.max 0 (WidgetLayout.h l) ≤ B + totalHeight its).
Proof.
  induction its as [|it rest IH]; intros st B HB Hfree Hw Hsum.
  - split; [done|]. intros k l Hl. by left.
  - apply Forall_cons in Hw as [Hwit Hw]. rewrite totalHeight_cons in *.
    pose proof (totalHeight_nonneg rest) as Hrest.
    assert (∃ p, findSlot (grid st) (item_w it) (item_h it) = Some p ∧
                 0 ≤ p.2 ∧ p.2 + rowsTaken it ≤ B + rowsTaken it) as (p & Hslot & Hp0 & Hp).
    { unfold rowsTaken in *. destruct (decide (item_h it ≤ 0)) as [Hh|Hh].
      - destruct (findSlot_bounded (grid st) (item_w it) (item_h it) 0 0)
          as (p & Hp & _ & ? & ?); [lia|unfold GRID_COLS in *; lia| |exists p; split; [done|]; lia].
        apply canPlace_true. split; [done|]. split; [lia|].
        intros c r [_ ?]. simpl in *. lia.
      - destruct (findSlot_bounded (grid st) (item_w it) (item_h it) 0 B)
          as (p & Hp & _ & ? & ?); [lia|unfold GRID_COLS in *; lia| |exists p; split; [done|]; lia].
        apply canPlace_true. split; [done|]. split; [lia|].
        intros c r [_ ?]. simpl in *. apply not_true_iff_false. intros Hc.
        apply Hfree in Hc. lia. }
    assert (placeItem st it = placeAt it p.1 p.2 st) as Hplace
      by (by rewrite placeItem_findSlot, Hslot).
    cbn [fallbackFree foldl]. rewrite scanGrid_findSlot, Hslot, Hplace. cbn [snd andb].
    destruct (IH (placeAt it p.1 p.2 st) (B + rowsTaken it)) as [Hff Hout];
      [unfold rowsTaken; lia| |done|lia|].
    { intros r c. simpl. rewrite cell_occupy. intros [Hc|Hc]%orb_true_iff.
      - apply Hfree in Hc. unfold rowsTaken. lia.
      - apply coversb_covers in Hc as [_ Hr]. simpl in Hr. unfold rowsTaken in *. lia. }
    split; [done|]. intros k l Hl. apply Hout in Hl as [Hl|Hl].
    + simpl in Hl. destruct (decide (k = key it)) as [->|Hne].
      * rewrite lookup_insert_eq in Hl. injection Hl as <-. right. simpl.
        unfold rowsTaken in *. lia.
      * rewrite lookup_insert_ne in Hl by done. by left.
    + right. lia.
Qed.

Lemma compare_translate dx dy a b :
  compareItems (mkItem (key a) (translate dx dy (layout a)))
               (mkItem (key b) (translate dx dy (layout b)))
  = compareItems a b.
Proof.
  unfold compareItems, translate. simpl.
  replace (WidgetLayout.y (layout a) + dy - (WidgetLayout.y (layout b) + dy))
    with (WidgetLayout.y (layout a) - WidgetLayout.y (layout b)) by lia.
  replace (WidgetLayout.x (layout a) + dx - (WidgetLayout.x (layout b) + dx))
    with (WidgetLayout.x (layout a) - WidgetLayout.x (layout b)) by lia.
  done.
Qed.

Lemma sortItems_translate dx dy l :
  sortItems ((λ it, mkItem (key it) (translate dx dy (layout it))) <$> l)
  = (λ it, mkItem (key it) (translate dx dy (layout it))) <$> sortItems l.
Proof.
  unfold sortItems. induction l as [|a l IH]; [done|].
  cbn [fmap list_fmap foldr]. fold (list_fmap _ _ (λ it, mkItem (key it) (translate dx dy (layout it))) l).
  change (list_fmap _ _ ?f l) with (f <$> l). rewrite IH.
  generalize (foldr insertItem [] l). clear IH. intros s.
  induction s as [|b s IHs]; [done|]. cbn [insertItem fmap list_fmap].
  rewrite compare_translate. destruct (compareItems a b <=? 0); [done|].
  cbn [fmap list_fmap]. f_equal. apply IHs.
Qed.

Lemma visibleItems_translate dx dy (layouts : gmap string WidgetLayout.t) ks :
  visibleItems (translate dx dy <$> layouts) ks
  = (λ it, mkItem (key it) (translate dx dy (layout it))) <$> visibleItems layouts ks.
Proof.
  unfold visibleItems. induction ks as [|k ks IH]; [done|].
  cbn [omap list_omap]. rewrite lookup_fmap.
  destruct (layouts !! k) as [l|]; simpl; [|apply IH].
  f_equal. apply IH.
Qed.

Lemma foldl_placeItem_translate dx dy its st :
  foldl placeItem st ((λ it, mkItem (key it) (translate dx dy (layout it))) <$> its)
  = foldl placeItem st its.
Proof.
  revert st. induction its as [|it its IH]; intros st; [done|].
  cbn [fmap list_fmap foldl].
  rewrite (placeItem_ext st _ it) by done. apply IH.
Qed.

(** Sorted items with distinct corners are strictly ascending. *)
Lemma sorted_distinct_corners l :
  StronglySorted notAfter l → NoDup (corner <$> l) → StronglySorted strictlyBefore l.
Proof.
  induction 1 as [|a l Hl IH Ha]; intros Hnd; [constructor|].
  rewrite fmap_cons in Hnd. apply NoDup_cons in Hnd as [Hfresh Hnd].
  constructor; [by apply IH|].
  rewrite Forall_forall in *. intros b Hb.
  assert (corner b ≠ corner a) as Hne.
  { intros Heq. apply Hfresh. rewrite <- Heq. by apply list_elem_of_fmap_2. }
  specialize (Ha b Hb). unfold notAfter, strictlyBefore in *.
  rewrite compareItems_le in Ha. rewrite compareItems_lt.
  unfold corner in Hne.
  destruct Ha as [?|[Hy Hx]]; [by left|]. right. split; [done|].
  destruct (decide (WidgetLayout.x (layout a) = WidgetLayout.x (layout b))) as [Hxe|]; [|lia].
  exfalso. apply Hne. by rewrite Hxe, Hy.
Qed.

End PackerMoreFacts.

Module PackerMoreTheorems.
Import Packer PackerFacts ScanFacts IdempotenceFacts PackerMoreFacts.

(** X1. Whatever branch places it, a widget of the result has a column and
    a row that are not negative, and when it is at most 12 wide it ends
    within the 12 columns. *)
Theorem compactLayoutsUtil_coordinates (layouts : gmap string WidgetLayout.t)
    (visibleKeys : list string) (k : string) (l : WidgetLayout.t) :
  compactLayoutsUtil layouts visibleKeys !! k = Some l →
  0 ≤ WidgetLayout.x l ∧ 0 ≤ WidgetLayout.y l ∧
  (WidgetLayout.w l ≤ GRID_COLS → WidgetLayout.x l + WidgetLayout.w l ≤ GRID_COLS).
Proof.
  unfold compactLayoutsUtil.
  assert (∀ its st,
    (∀ k l, compacted st !! k = Some l →
       0 ≤ WidgetLayout.x l ∧ 0 ≤ WidgetLayout.y l ∧
       (WidgetLayout.w l ≤ GRID_COLS → WidgetLayout.x l + WidgetLayout.w l ≤ GRID_COLS)) →
    ∀ k l, compacted (foldl placeItem st its) !! k = Some l →
       0 ≤ WidgetLayout.x l ∧ 0 ≤ WidgetLayout.y l ∧
       (WidgetLayout.w l ≤ GRID_COLS → WidgetLayout.x l + WidgetLayout.w l ≤ GRID_COLS))
    as Hfold.
  { induction its as [|it its IH]; intros st Hst; [done|]. cbn [foldl]. apply IH.
    intros k' l'. rewrite placeItem_findSlot.
    destruct (findSlot _ _ _) as [p|] eqn:Hslot; simpl.
    - apply findSlot_Some in Hslot as [Hrow Hfit]. apply canPlace_true in Hfit.
      destruct (decide (k' = key it)) as [->|Hne].
      + rewrite lookup_insert_eq. intros [= <-]. simpl. lia.
      + rewrite lookup_insert_ne by done. apply Hst.
    - destruct (decide (k' = key it)) as [->|Hne].
      + rewrite lookup_insert_eq. intros [= <-]. simpl. lia.
      + rewrite lookup_insert_ne by done. apply Hst. }
  apply Hfold. intros k' l'. simpl. by rewrite lookup_empty.
Qed.

Lemma compactLayoutsUtil_coordinates_witness :
  compactLayoutsUtil Examples.tallAndSmall Examples.tallAndSmallKeys !! "deals"
    = Some (WidgetLayout.mk 0 2 1 1) ∧
  0 ≤ 0 ∧ 0 ≤ 2 ∧ (1 ≤ GRID_COLS → 0 + 1 ≤ GRID_COLS).
Proof.
  assert (compactLayoutsUtil Examples.tallAndSmall Examples.tallAndSmallKeys !! "deals"
          = Some (WidgetLayout.mk 0 2 1 1)) as Hl by (vm_compute; reflexivity).
  split; [exact Hl|].
  exact (compactLayoutsUtil_coordinates _ _ _ _ Hl).
Defined.

(** X2. When no visible widget is wider than 12 columns and the heights
    of the visible widgets add up to at most 100 rows, every widget finds
    a place in the scan; the result then has no two widgets on a common
    cell, every widget within the 12 columns, and no widget reaching
    below the sum of the heights. *)
Theorem compactLayoutsUtil_fits_when_short (layouts : gmap string WidgetLayout.t)
    (visibleKeys : list string) :
  Forall (λ it, item_w it ≤ GRID_COLS) (visibleItems layouts visibleKeys) →
  totalHeight (visibleItems layouts visibleKeys) ≤ 100 →
  everyWidgetFits layouts visibleKeys = true ∧
  disjointLayouts (compactLayoutsUtil layouts visibleKeys) ∧
  ∀ k l, compactLayoutsUtil layouts visibleKeys !! k = Some l →
         withinGrid l ∧ 0 ≤ WidgetLayout.y l ∧
         WidgetLayout.y l + Z.max 0 (WidgetLayout.h l)
           ≤ totalHeight (visibleItems layouts visibleKeys).
Proof.
  intros Hw Hsum.
  assert (items layouts visibleKeys ≡ₚ visibleItems layouts visibleKeys) as Hperm
    by apply sortItems_Permutation.
  rewrite <- (totalHeight_Permutation _ _ Hperm) in *.
  rewrite <- Hperm in Hw.
  destruct (foldl_placeItem_short (items layouts visibleKeys) (mkState ∅ ∅) 0)
    as [Hfits Hrows]; [done| |done|lia|].
  { intros r c. unfold cell. simpl. by rewrite lookup_empty. }
  pose proof (safe_foldl _ _ safe_init Hfits) as [_ Hdisj Hwithin].
  split; [done|]. split; [done|]. intros k l Hl. split; [by eapply Hwithin|].
  apply Hrows in Hl as [Hl|Hl]; [simpl in Hl; by rewrite lookup_empty in Hl|lia].
Qed.

Lemma compactLayoutsUtil_fits_when_short_witness :
  everyWidgetFits Examples.sparse Examples.sparseKeys = true ∧
  disjointLayouts (compactLayoutsUtil Examples.sparse Examples.sparseKeys) ∧
  ∀ k l, compactLayoutsUtil Examples.sparse Examples.sparseKeys !! k = Some l →
         withinGrid l ∧ 0 ≤ WidgetLayout.y l ∧
         WidgetLayout.y l + Z.max 0 (WidgetLayout.h l)
           ≤ totalHeight (visibleItems Examples.sparse Examples.sparseKeys).
Proof.
  apply compactLayoutsUtil_fits_when_short.
  - apply (bool_decide_unpack
             (Forall (λ it, item_w it ≤ GRID_COLS)
                     (visibleItems Examples.sparse Examples.sparseKeys))).
    vm_compute. exact I.
  - vm_compute. discriminate.
Defined.



(** X4. The packer reads the positions only to order the widgets: moving
    every layout by the same number of columns and rows changes nothing in
    the result. *)
Theorem compactLayoutsUtil_translation_invariant
    (layouts : gmap string WidgetLayout.t) (visibleKeys : list string) (dx dy : Z) :
  compactLayoutsUtil (translate dx dy <$> layouts) visibleKeys
  = compactLayoutsUtil layouts visibleKeys.
Proof.
  unfold compactLayoutsUtil, items.
  by rewrite visibleItems_translate, sortItems_translate, foldl_placeItem_translate.
Qed.

(** X5. When the visible widgets have distinct top-left corners, the
    order in which the visible keys are listed does not matter: any
    rearrangement of the keys gives the same result. *)
Theorem compactLayoutsUtil_key_order_irrelevant (layouts : gmap string WidgetLayout.t)
    (visibleKeys visibleKeys' : list string) :
  NoDup (corner <$> visibleItems layouts visibleKeys) →
  visibleKeys ≡ₚ visibleKeys' →
  compactLayoutsUtil layouts visibleKeys' = compactLayoutsUtil layouts visibleKeys.
Proof.
  intros Hnd Hperm. unfold compactLayoutsUtil. f_equal. f_equal.
  assert (items layouts visibleKeys' ≡ₚ items layouts visibleKeys) as Hitems.
  { unfold items. rewrite !sortItems_Permutation. unfold visibleItems.
    by apply omap_Permutation. }
  apply ascending_unique; [|apply sortItems_sorted|done].
  apply sorted_distinct_corners; [apply sortItems_sorted|].
  unfold items. by rewrite sortItems_Permutation.
Qed.

Lemma compactLayoutsUtil_key_order_irrelevant_witness :
  compactLayoutsUtil Examples.sparse ["deals"; "leads"; "contacts"]
  = compactLayoutsUtil Examples.sparse Examples.sparseKeys.
Proof.
  apply compactLayoutsUtil_key_order_irrelevant.
  - apply (bool_decide_unpack
             (NoDup (corner <$> visibleItems Examples.sparse Examples.sparseKeys))).
    vm_compute. exact I.
  - apply (bool_decide_unpack (Examples.sparseKeys ≡ₚ ["deals"; "leads"; "contacts"])).
    vm_compute. exact I.
Defined.

End PackerMoreTheorems.

Module CustomizeMoreTheorems.
Import Dashboard NextPositionFacts SaveFacts.

Lemma elem_of_toggleKey key prev k :
  k ∈ toggleKey key prev ↔ (k = key ∧ key ∉ prev) ∨ (k ≠ key ∧ k ∈ prev).
Proof.
  unfold toggleKey. destruct (decide (key ∈ prev)) as [Hin|Hin].
  - rewrite list_elem_of_filter. split.
    + intros [? ?]. by right.
    + intros [[_ ?]|[? ?]]; done.
  - rewrite elem_of_app, list_elem_of_singleton. split.
    + intros [?| ->]; [right|by left]. split; [by intros ->|done].
    + intros [[-> _]|[_ ?]]; auto.
Qed.

(** X6. Toggling a widget flips what the preview says of that widget and
    changes it for no other widget; removing a widget from the grid does
    the same. *)
Theorem togglePendingWidget_flips_preview (key : string) (st : State) :
  willWidgetBeVisible key (togglePendingWidget key st)
    = negb (willWidgetBeVisible key st) ∧
  willWidgetBeVisible key (handleWidgetRemove key st)
    = negb (willWidgetBeVisible key st) ∧
  ∀ k, k ≠ key →
    willWidgetBeVisible k (togglePendingWidget key st) = willWidgetBeVisible k st.
Proof.
  unfold handleWidgetRemove, willWidgetBeVisible, togglePendingWidget. simpl.
  assert (bool_decide (key ∈ toggleKey key (pendingWidgetChanges st))
          = negb (bool_decide (key ∈ pendingWidgetChanges st))) as ->.
  { destruct (decide (key ∈ pendingWidgetChanges st)) as [Hin|Hin].
    - rewrite (bool_decide_eq_true_2 _ Hin). apply bool_decide_eq_false_2.
      rewrite elem_of_toggleKey. intros [[_ ?]|[? _]]; done.
    - rewrite (bool_decide_eq_false_2 _ Hin). apply bool_decide_eq_true_2.
      rewrite elem_of_toggleKey. by left. }
  split; [|split].
  - by destruct (bool_decide (key ∈ pendingWidgetChanges st)),
               (bool_decide (key ∈ visibleWidgets st)).
  - by destruct (bool_decide (key ∈ pendingWidgetChanges st)),
               (bool_decide (key ∈ visibleWidgets st)).
  - intros k Hne.
    assert (bool_decide (k ∈ toggleKey key (pendingWidgetChanges st))
            = bool_decide (k ∈ pendingWidgetChanges st)) as ->; [|done].
    apply bool_decide_ext. rewrite elem_of_toggleKey. split.
    + intros [[? _]|[_ ?]]; done.
    + intros ?. by right.
Qed.

(** X7. The preview predicts the save: a widget is among the visible
    widgets after [handleSaveLayout] exactly when [willWidgetBeVisible]
    says so before it. *)
Theorem willWidgetBeVisible_predicts_save (key : string) (st : State) :
  willWidgetBeVisible key st = true ↔ key ∈ visibleWidgets (handleSaveLayout st).1.
Proof.
  unfold handleSaveLayout.
  pose proof (applyPending_visible (visibleWidgets st) (pendingWidgetChanges st)
                (visibleWidgets st) (widgetOrder st) (widgetLayouts st)) as Hv.
  fold (applyPending st (pendingWidgetChanges st)) in Hv.
  destruct (applyPending st (pendingWidgetChanges st)) as [[fv fo] fl].
  simpl in *. subst fv. unfold willWidgetBeVisible.
  rewrite elem_of_app, !list_elem_of_filter.
  destruct (decide (key ∈ pendingWidgetChanges st)) as [Hp|Hp],
           (decide (key ∈ visibleWidgets st)) as [Hvis|Hvis].
  - rewrite (bool_decide_eq_true_2 _ Hp), (bool_decide_eq_true_2 _ Hvis). simpl.
    split; [done|]. intros [[Hn _]|[? _]]; [|done]. exfalso. by apply Hn.
  - rewrite (bool_decide_eq_true_2 _ Hp), (bool_decide_eq_false_2 _ Hvis). simpl.
    split; [|done]. intros _. by right.
  - rewrite (bool_decide_eq_false_2 _ Hp), (bool_decide_eq_true_2 _ Hvis).
    split; [|done]. intros _. left. split; [|done]. by intros [? _].
  - rewrite (bool_decide_eq_false_2 _ Hp), (bool_decide_eq_false_2 _ Hvis).
    split; [done|]. intros [[_ ?]|[_ ?]]; done.
Qed.

(** X8. The toast of [handleWidgetRemove] tells what the click did: for
    a visible widget it reads that the widget is marked for removal when
    the widget was not pending and that the removal is undone when it was;
    for a hidden widget it reads that the widget is marked to add, or that
    the addition is undone.  The preview after the update says the widget
    will be hidden exactly under the first and the last of these texts. *)
Theorem handleWidgetRemoveToast_agrees (key : string) (st : State) :
  let toast := handleWidgetRemoveToast key st in
  let visible := visibleWidgets st in
  let pending := pendingWidgetChanges st in
  (toast = "Marked for removal"%string ↔ key ∈ visible ∧ key ∉ pending) ∧
  (toast = "Removal undone"%string ↔ key ∈ visible ∧ key ∈ pending) ∧
  (toast = "Marked to add"%string ↔ (key ∉ visible) ∧ (key ∉ pending)) ∧
  (toast = "Add undone"%string ↔ (key ∉ visible) ∧ key ∈ pending) ∧
  (willWidgetBeVisible key (handleWidgetRemove key st) = false
   ↔ toast = "Marked for removal"%string ∨ toast = "Add undone"%string).
Proof.
  cbv zeta.
  unfold handleWidgetRemoveToast, handleWidgetRemove, willWidgetBeVisible,
    togglePendingWidget. simpl.
  assert (bool_decide (key ∈ toggleKey key (pendingWidgetChanges st))
          = negb (bool_decide (key ∈ pendingWidgetChanges st))) as ->.
  { destruct (decide (key ∈ pendingWidgetChanges st)) as [Hin|Hin].
    - rewrite (bool_decide_eq_true_2 _ Hin). apply bool_decide_eq_false_2.
      rewrite elem_of_toggleKey. intros [[_ ?]|[? _]]; done.
    - rewrite (bool_decide_eq_false_2 _ Hin). apply bool_decide_eq_true_2.
      rewrite elem_of_toggleKey. by left. }
  destruct (decide (key ∈ visibleWidgets st)) as [Hvis|Hvis];
    [rewrite (bool_decide_eq_true_2 _ Hvis)|rewrite (bool_decide_eq_false_2 _ Hvis)];
    (destruct (decide (key ∈ pendingWidgetChanges st)) as [Hp|Hp];
     [rewrite (bool_decide_eq_true_2 _ Hp)|rewrite (bool_decide_eq_false_2 _ Hp)]);
    simpl; repeat split; try done; try (intros [? ?]; done);
    try (intros [?|?]; done); auto.
Qed.

End CustomizeMoreTheorems.

Module PersistFacts.
Import Dashboard NextPositionFacts SaveFacts LoadFacts JsonFacts ListFacts.

Section Sanitize.
Variable DEFAULT_WIDGETS : list Widget.

(** Keys that are allowed and new are all kept, in their order. *)
Lemma sanitize_fold_clean keys : ∀ uniq seen,
  (∀ k, k ∈ seen ↔ k ∈ uniq) →
  NoDup (uniq ++ keys) →
  keys ⊆ defaultWidgetKeys DEFAULT_WIDGETS →
  (foldl (sanitizeStep (list_to_set (defaultWidgetKeys DEFAULT_WIDGETS)))
         (uniq, seen) keys).1 = uniq ++ keys.
Proof.
  induction keys as [|k keys IH]; intros uniq seen Hseen Hnd Hsub.
  - simpl. by rewrite app_nil_r.
  - cbn [foldl]. unfold sanitizeStep at 2. cbn [fst snd].
    rewrite decide_True by (apply elem_of_list_to_set, Hsub; left).
    assert (k ∉ uniq) as Hk.
    { apply NoDup_app in Hnd as (_ & Hd & _). intros Hin. apply (Hd k Hin). left. }
    rewrite decide_False by (by rewrite Hseen).
    rewrite IH.
    + by rewrite <- app_assoc.
    + intros k'. rewrite elem_of_union, elem_of_singleton, elem_of_app,
        list_elem_of_singleton, Hseen. tauto.
    + by rewrite <- app_assoc.
    + intros k' ?. apply Hsub. by right.
Qed.

Lemma sanitizeKeys_clean keys :
  NoDup keys → keys ⊆ defaultWidgetKeys DEFAULT_WIDGETS →
  sanitizeKeys DEFAULT_WIDGETS keys = keys.
Proof.
  intros Hnd Hsub. unfold sanitizeKeys.
  rewrite (sanitize_fold_clean keys [] ∅); [done| |done|done].
  intros k. split; [by intros ?%not_elem_of_empty|by intros ?%elem_of_nil].
Qed.

End Sanitize.

Lemma parseWidgetLayouts_stored visible order layouts :
  Json.asLayouts (parseWidgetLayouts
    (Some (mkPrefs visible order (Some (Json.Str (Json.JSON_stringify layouts))))))
  = layouts.
Proof.
  assert (parseWidgetLayouts
            (Some (mkPrefs visible order (Some (Json.Str (Json.JSON_stringify layouts)))))
          = Json.ofLayouts layouts) as ->.
  { unfold parseWidgetLayouts. simpl. by rewrite JSON_parse_stringify. }
  apply asLayouts_ofLayouts.
Qed.

End PersistFacts.

Module PersistTheorems.
Import Dashboard NextPositionFacts SaveFacts LoadFacts JsonFacts ListFacts PersistFacts.

(** X9. Saving keeps the lists well formed: when the visible widgets and
    the order hold offered widgets only, each once, with every visible
    widget in the order, and the pending keys are offered widgets, the
    same holds of the lists after [handleSaveLayout]. *)
Theorem handleSaveLayout_keeps_lists_well_formed (allowed : list string) (st : State) :
  wellFormedLists allowed (visibleWidgets st) (widgetOrder st) →
  NoDup (pendingWidgetChanges st) →
  pendingWidgetChanges st ⊆ allowed →
  wellFormedLists allowed (visibleWidgets (handleSaveLayout st).1)
                          (widgetOrder (handleSaveLayout st).1).
Proof.
  intros (Hvnd & Hond & Hva & Hoa & Hvo) Hpnd Hpa. unfold handleSaveLayout.
  pose proof (applyPending_visible (visibleWidgets st) (pendingWidgetChanges st)
                (visibleWidgets st) (widgetOrder st) (widgetLayouts st)) as Hv.
  pose proof (applyPending_order (visibleWidgets st) (pendingWidgetChanges st)
                (visibleWidgets st) (widgetOrder st) (widgetLayouts st) Hpnd) as Ho.
  fold (applyPending st (pendingWidgetChanges st)) in Hv, Ho.
  destruct (applyPending st (pendingWidgetChanges st)) as [[fv fo] fl].
  simpl in *. subst fv fo.
  split; [|split; [|split; [|split]]].
  - apply NoDup_app. split; [by apply NoDup_filter|]. split; [|by apply NoDup_filter].
    intros k [_ Hk]%list_elem_of_filter [? Hn]%list_elem_of_filter. done.
  - apply NoDup_app. split; [by apply NoDup_filter|]. split; [|by apply NoDup_filter].
    intros k [_ Hk]%list_elem_of_filter [[_ ?] _]%list_elem_of_filter. done.
  - intros k [[_ ?]%list_elem_of_filter|[_ ?]%list_elem_of_filter]%elem_of_app; auto.
  - intros k [[_ ?]%list_elem_of_filter|[_ ?]%list_elem_of_filter]%elem_of_app; auto.
  - intros k [[Hn Hk]%list_elem_of_filter|[Hn Hk]%list_elem_of_filter]%elem_of_app.
    + rewrite elem_of_app, !list_elem_of_filter. left. split; [done|]. by apply Hvo.
    + rewrite elem_of_app, !list_elem_of_filter.
      destruct (decide (k ∈ widgetOrder st)); [left|right].
      * split; [|done]. by intros [_ ?].
      * done.
Qed.

Lemma handleSaveLayout_keeps_lists_well_formed_witness :
  wellFormedLists ["leads"; "deals"; "emailStats"]
    (visibleWidgets (handleSaveLayout Examples.customizing).1)
    (widgetOrder (handleSaveLayout Examples.customizing).1).
Proof.
  apply handleSaveLayout_keeps_lists_well_formed.
  - apply (bool_decide_unpack
      (NoDup (visibleWidgets Examples.customizing) ∧
       NoDup (widgetOrder Examples.customizing) ∧
       visibleWidgets Examples.customizing ⊆ ["leads"; "deals"; "emailStats"] ∧
       widgetOrder Examples.customizing ⊆ ["leads"; "deals"; "emailStats"] ∧
       visibleWidgets Examples.customizing ⊆ widgetOrder Examples.customizing)).
    vm_compute. exact I.
  - apply (bool_decide_unpack (NoDup (pendingWidgetChanges Examples.customizing))).
    vm_compute. exact I.
  - apply (bool_decide_unpack
      (pendingWidgetChanges Examples.customizing ⊆ ["leads"; "deals"; "emailStats"])).
    vm_compute. exact I.
Defined.

(** X10. When the widget to add is at most 12 wide and every existing
    layout ends above row 99, [findNextGridPosition] does not fall back:
    the position it returns is one the scan visits, so the widget ends
    within the 12 columns, and none of its cells is taken by an existing
    layout. *)
Theorem findNextGridPosition_free_when_room
    (existingLayouts : gmap string WidgetLayout.t) (widgetWidth widgetHeight : Z) :
  widgetWidth ≤ COLS →
  (∀ k l, existingLayouts !! k = Some l → WidgetLayout.y l + WidgetLayout.h l ≤ 99) →
  let position := findNextGridPosition existingLayouts widgetWidth widgetHeight in
  scanned widgetWidth position ∧
  freeAt existingLayouts widgetWidth widgetHeight position.
Proof.
  intros Hw Hrows. cbv zeta.
  destruct (findNextGridPosition_nextFree existingLayouts widgetWidth widgetHeight)
    as [(? & ? & _)|[Hnone _]]; [done|].
  exfalso. apply (Hnone (0, 99)).
  - unfold scanned, COLS in *. simpl. lia.
  - intros col row _ Hr (k & l & Hl & [_ Hcov] & _). simpl in Hr.
    apply Hrows in Hl. lia.
Qed.

Lemma findNextGridPosition_free_when_room_witness :
  let existing := widgetLayouts Examples.customizing in
  scanned 3 (findNextGridPosition existing 3 2) ∧
  freeAt existing 3 2 (findNextGridPosition existing 3 2).
Proof.
  apply findNextGridPosition_free_when_room.
  - vm_compute. discriminate.
  - intros k l Hl.
    apply (map_Forall_lookup_1
             (λ _ l, WidgetLayout.y l + WidgetLayout.h l ≤ 99) _ k l) in Hl; [done|].
    apply (bool_decide_unpack
      (map_Forall (λ _ l, WidgetLayout.y l + WidgetLayout.h l ≤ 99)
                  (widgetLayouts Examples.customizing))).
    vm_compute. exact I.
Defined.

(** X11. [sanitizeKeys] changes nothing in a list it has cleaned: applied
    to its own result it returns that result. *)
Theorem sanitizeKeys_idempotent (DEFAULT_WIDGETS : list Widget) (keys : list string) :
  sanitizeKeys DEFAULT_WIDGETS (sanitizeKeys DEFAULT_WIDGETS keys)
  = sanitizeKeys DEFAULT_WIDGETS keys.
Proof.
  destruct (sanitizeKeys_firstOccurrences DEFAULT_WIDGETS keys) as (Hnd & Hmem & _).
  apply sanitizeKeys_clean; [done|]. intros k Hk. by apply Hmem in Hk as [_ ?].
Qed.

(** X12. What is saved comes back: for a signed-in user the mutation
    stores a row, and loading that row, when the saved lists are well
    formed, sets the visible widgets and the order to the saved lists and
    the layouts to the compaction of the saved layouts over the saved
    visible widgets. *)
Theorem loadEffect_after_save (DEFAULT_WIDGETS : list Widget)
    (userId : option string) (saved : SavedPrefs) (st : State) :
  signedOut userId = false →
  wellFormedLists (defaultWidgetKeys DEFAULT_WIDGETS) (widgets saved) (order saved) →
  ∃ row, savePreferencesMutation userId saved = Some row ∧
    let st' := loadEffect DEFAULT_WIDGETS userId (Some row) st in
    visibleWidgets st' = widgets saved ∧
    widgetOrder st' = order saved ∧
    widgetLayouts st' = Packer.compactLayoutsUtil (layouts saved) (widgets saved).
Proof.
  intros Hin (Hvnd & Hond & Hva & Hoa & Hvo).
  unfold savePreferencesMutation. rewrite Hin. eexists. split; [done|].
  cbv zeta. unfold loadEffect. rewrite Hin. cbn [visibleWidgets widgetOrder widgetLayouts].
  rewrite parseWidgetLayouts_stored.
  unfold nextVisibleRaw, nextOrderRaw. cbn [mbind option_bind visible_widgets card_order default].
  rewrite !sanitizeKeys_clean by done.
  split; [done|]. split; [|done].
  rewrite filter_none; [by rewrite app_nil_r|].
  intros k Hk Hn. by apply Hn, Hvo.
Qed.

Lemma loadEffect_after_save_witness :
  let saved := (handleSaveLayout Examples.customizing).2 in
  ∃ row, savePreferencesMutation (Some "user-1") saved = Some row ∧
    let st' := loadEffect Examples.widgets (Some "user-1") (Some row)
                          Examples.customizing in
    visibleWidgets st' = widgets saved ∧
    widgetOrder st' = order saved ∧
    widgetLayouts st' = Packer.compactLayoutsUtil (layouts saved) (widgets saved).
Proof.
  apply (loadEffect_after_save Examples.widgets (Some "user-1")).
  - reflexivity.
  - apply (bool_decide_unpack
      (NoDup (widgets (handleSaveLayout Examples.customizing).2) ∧
       NoDup (order (handleSaveLayout Examples.customizing).2) ∧
       widgets (handleSaveLayout Examples.customizing).2
         ⊆ defaultWidgetKeys Examples.widgets ∧
       order (handleSaveLayout Examples.customizing).2
         ⊆ defaultWidgetKeys Examples.widgets ∧
       widgets (handleSaveLayout Examples.customizing).2
         ⊆ order (handleSaveLayout Examples.customizing).2)).
    vm_compute. exact I.
Defined.

(** X13. Only visible widgets have a layout after the layouts are set by
    [handleLayoutChange], by [handleSaveLayout] and, for a signed-in user,
    by the load effect. *)
Theorem layouts_of_visible_widgets_only (DEFAULT_WIDGETS : list Widget)
    (userId : option string) (dashboardPrefs : option Prefs)
    (newLayouts : gmap string WidgetLayout.t) (st : State) :
  layoutsOfVisible (handleLayoutChange newLayouts st) ∧
  layoutsOfVisible (handleSaveLayout st).1 ∧
  (signedOut userId = false →
   layoutsOfVisible (loadEffect DEFAULT_WIDGETS userId dashboardPrefs st)).
Proof.
  split; [|split].
  - intros k [l Hl]. simpl in *.
    by apply PackerFacts.compactLayoutsUtil_lookup_Some in Hl as [? _].
  - unfold handleSaveLayout.
    destruct (applyPending st (pendingWidgetChanges st)) as [[fv fo] fl].
    intros k [l Hl]. simpl in *.
    by apply PackerFacts.compactLayoutsUtil_lookup_Some in Hl as [? _].
  - intros Hin. unfold loadEffect. rewrite Hin. intros k [l Hl]. simpl in *.
    by apply PackerFacts.compactLayoutsUtil_lookup_Some in Hl as [? _].
Qed.

(** X14. Saving loses and resizes no widget the user did not touch: a
    visible widget that is not pending and has a layout has, after
    [handleSaveLayout], a layout of the same width and height, in the
    state and in what is saved. *)
Theorem handleSaveLayout_keeps_untouched (st : State) (k : string)
    (l0 : WidgetLayout.t) :
  k ∈ visibleWidgets st → k ∉ pendingWidgetChanges st →
  widgetLayouts st !! k = Some l0 →
  ∃ l, widgetLayouts (handleSaveLayout st).1 !! k = Some l ∧
       layouts (handleSaveLayout st).2 !! k = Some l ∧
       WidgetLayout.w l = WidgetLayout.w l0 ∧ WidgetLayout.h l = WidgetLayout.h l0.
Proof.
  intros Hvis Hpending Hl0. unfold handleSaveLayout.
  pose proof (applyPending_visible (visibleWidgets st) (pendingWidgetChanges st)
                (visibleWidgets st) (widgetOrder st) (widgetLayouts st)) as Hv.
  pose proof (applyPending_layout_other (visibleWidgets st) (pendingWidgetChanges st)
                (visibleWidgets st) (widgetOrder st) (widgetLayouts st) k Hpending) as Hl.
  fold (applyPending st (pendingWidgetChanges st)) in Hv, Hl.
  destruct (applyPending st (pendingWidgetChanges st)) as [[fv fo] fl].
  simpl in *. subst fv. rewrite Hl0 in Hl.
  destruct (PackerFacts.compactLayoutsUtil_lookup_is_Some fl
              (filter (λ w, ¬ (w ∈ pendingWidgetChanges st ∧ w ∈ visibleWidgets st))
                      (visibleWidgets st)
               ++ filter (λ k, k ∉ visibleWidgets st) (pendingWidgetChanges st)) k)
    as [l Hout].
  - rewrite elem_of_app, list_elem_of_filter. left. split; [|done]. by intros [? _].
  - by rewrite Hl.
  - exists l. split; [done|]. split; [done|].
    apply PackerFacts.compactLayoutsUtil_lookup_Some in Hout as (_ & l1 & Hl1 & ? & ?).
    rewrite Hl in Hl1. by injection Hl1 as <-.
Qed.

Lemma handleSaveLayout_keeps_untouched_witness :
  ∃ l, widgetLayouts (handleSaveLayout Examples.customizing).1 !! "leads" = Some l ∧
       layouts (handleSaveLayout Examples.customizing).2 !! "leads" = Some l ∧
       WidgetLayout.w l = 6 ∧ WidgetLayout.h l = 2.
Proof.
  apply (handleSaveLayout_keeps_untouched Examples.customizing "leads"
           (WidgetLayout.mk 0 0 6 2)).
  - apply (bool_decide_unpack ("leads" ∈ visibleWidgets Examples.customizing)).
    vm_compute. exact I.
  - apply (bool_decide_unpack ("leads" ∉ pendingWidgetChanges Examples.customizing)).
    vm_compute. exact I.
  - vm_compute. reflexivity.
Defined.

(** X15. A user with nothing stored gets the defaults: when the three
    columns are absent and the offered widgets have distinct keys, the
    load effect shows the widgets that are visible by default, orders
    them as they are offered, and sets no layout. *)
Theorem loadEffect_defaults (DEFAULT_WIDGETS : list Widget)
    (userId : option string) (dashboardPrefs : option Prefs) (st : State) :
  signedOut userId = false →
  NoDup (defaultWidgetKeys DEFAULT_WIDGETS) →
  dashboardPrefs ≫= visible_widgets = None →
  dashboardPrefs ≫= card_order = None →
  dashboardPrefs ≫= layout_view = None →
  let st' := loadEffect DEFAULT_WIDGETS userId dashboardPrefs st in
  visibleWidgets st' = defaultVisibleWidgets DEFAULT_WIDGETS ∧
  widgetOrder st' = defaultWidgetKeys DEFAULT_WIDGETS ∧
  widgetLayouts st' = ∅.
Proof.
  intros Hin Hnd Hv Ho Hl. cbv zeta. unfold loadEffect. rewrite Hin.
  cbn [visibleWidgets widgetOrder widgetLayouts].
  unfold nextVisibleRaw, nextOrderRaw, parseWidgetLayouts. rewrite Hv, Ho, Hl.
  cbn [default].
  assert (defaultVisibleWidgets DEFAULT_WIDGETS ⊆ defaultWidgetKeys DEFAULT_WIDGETS)
    as Hsub by (intros k [_ ?]%list_elem_of_filter; done).
  rewrite !sanitizeKeys_clean; [|done|done|by apply NoDup_filter|done].
  split; [done|]. split.
  - rewrite filter_none; [by rewrite app_nil_r|]. intros k Hk Hn. by apply Hn, Hsub.
  - apply map_eq. intros k. rewrite lookup_empty. apply eq_None_not_Some.
    intros [l Hout].
    apply PackerFacts.compactLayoutsUtil_lookup_Some in Hout as (_ & l0 & Hl0 & _).
    revert Hl0.
    unfold Json.asLayouts, emptyConfig. by rewrite omap_empty, lookup_empty.
Qed.

Lemma loadEffect_defaults_witness :
  let st' := loadEffect Examples.widgets (Some "user-1") None Examples.customizing in
  visibleWidgets st' = ["leads"; "deals"] ∧
  widgetOrder st' = ["leads"; "deals"; "emailStats"] ∧
  widgetLayouts st' = ∅.
Proof.
  apply (loadEffect_defaults Examples.widgets (Some "user-1") None Examples.customizing).
  - reflexivity.
  - apply (bool_decide_unpack (NoDup (defaultWidgetKeys Examples.widgets))).
    vm_compute. exact I.
  - reflexivity.
  - reflexivity.
  - reflexivity.
Defined.

End PersistTheorems.

Module ProfileTheorems.
Import Profile.

Lemma includesAt_beforeAt s : includesAt (beforeAt s) = false.
Proof.
  induction s as [|c s IH]; [done|]. simpl.
  destruct (Ascii.eqb c "@") eqn:E; [done|]. simpl. by rewrite E.
Qed.

Lemma beforeAt_prefix s :
  ∃ rest, s = String.append (beforeAt s) rest ∧
          (rest = EmptyString ∨ ∃ tail, rest = String "@" tail).
Proof.
  induction s as [|c s (rest & IH & Hrest)]; [exists EmptyString; auto|]. simpl.
  destruct (Ascii.eqb_spec c "@") as [->|_].
  - exists (String "@" s). split; [done|]. right. by exists s.
  - exists rest. split; [|done]. rewrite JsonFacts.append_cons. by rewrite <- IH.
Qed.

Lemma emailName_Some email n :
  emailName email = Some n →
  n ≠ EmptyString ∧ includesAt n = false ∧
  ∃ address rest, email = Some address ∧ address = String.append n rest ∧
                  (rest = EmptyString ∨ ∃ tail, rest = String "@" tail).
Proof.
  unfold emailName. destruct email as [address|]; [|done].
  destruct (String.eqb_spec (beforeAt address) "") as [|Hne]; [done|].
  intros [= <-]. split; [done|]. split; [apply includesAt_beforeAt|].
  destruct (beforeAt_prefix address) as (rest & ? & ?). by exists address, rest.
Qed.

(** X16. The name shown in the greeting is never empty and never holds an
    [@].  It is the stored full name; or else, when no full name is
    stored or the stored one is empty or holds an [@], it is the part of
    the e-mail address before its first [@]: the address is the name,
    followed by nothing or by an [@] and the rest. *)
Theorem userName_is_plain (userId full_name email : option string) (name : string) :
  userName userId full_name email = Some name →
  name ≠ EmptyString ∧ includesAt name = false ∧
  (full_name = Some name ∨
   ((full_name = None ∨ full_name = Some EmptyString ∨
     ∃ stored, full_name = Some stored ∧ includesAt stored = true) ∧
    ∃ address rest, email = Some address ∧ address = String.append name rest ∧
                    (rest = EmptyString ∨ ∃ tail, rest = String "@" tail))).
Proof.
  unfold userName. destruct (Dashboard.signedOut userId); [done|].
  destruct full_name as [stored|].
  - destruct (String.eqb_spec stored "") as [->|Hne]; simpl.
    + intros (? & ? & ?)%emailName_Some. split; [done|]. split; [done|].
      right. split; [|done]. right. by left.
    + destruct (includesAt stored) eqn:E.
      * intros (? & ? & ?)%emailName_Some. split; [done|]. split; [done|].
        right. split; [|done]. right. right. by exists stored.
      * intros [= <-]. auto.
  - intros (? & ? & ?)%emailName_Some. split; [done|]. split; [done|].
    right. split; [|done]. by left.
Qed.

Lemma userName_is_plain_witness :
  userName (Some "user-1") (Some "ann@example.org") (Some "ann.lee@example.org")
    = Some "ann.lee"%string ∧
  "ann.lee"%string ≠ EmptyString ∧ includesAt "ann.lee" = false ∧
  ∃ address rest, Some "ann.lee@example.org"%string = Some address ∧
                  address = String.append "ann.lee" rest ∧
                  (rest = EmptyString ∨ ∃ tail, rest = String "@" tail).
Proof.
  assert (userName (Some "user-1") (Some "ann@example.org")
                   (Some "ann.lee@example.org") = Some "ann.lee"%string) as Hname
    by reflexivity.
  split; [exact Hname|].
  destruct (userName_is_plain _ _ _ _ Hname) as (Hne & Hat & [Hfull|[_ Hmail]]).
  - discriminate Hfull.
  - split; [exact Hne|]. split; [exact Hat|exact Hmail].
Defined.

Lemma upperChar_not_lower c : isLowerCase (upperChar c) = false.
Proof. destruct c as [[] [] [] [] [] [] [] []]; reflexivity. Qed.

Lemma upperChar_ascii c : isAsciiChar (upperChar c) = isAsciiChar c.
Proof. destruct c as [[] [] [] [] [] [] [] []]; reflexivity. Qed.

Lemma toUpperCase_not_lower s :
  allChars (λ c, negb (isLowerCase c)) (toUpperCase s) = true.
Proof.
  induction s as [|c s IH]; [done|]. simpl. by rewrite upperChar_not_lower, IH.
Qed.

Lemma toUpperCase_ascii s :
  allChars isAsciiChar (toUpperCase s) = allChars isAsciiChar s.
Proof.
  induction s as [|c s IH]; [done|]. simpl. by rewrite upperChar_ascii, IH.
Qed.

Lemma split_chars (p : ascii → bool) sep name :
  allChars p name = true → Forall (λ part, allChars p part = true) (split sep name).
Proof.
  induction name as [|c rest IH]; simpl.
  - intros _. by constructor.
  - intros [Hc Hrest]%andb_true_iff. specialize (IH Hrest).
    destruct (Ascii.eqb c sep); [by constructor|].
    destruct (split sep rest) as [|part parts].
    + constructor; [|done]. simpl. by rewrite Hc.
    + apply Forall_cons in IH as [Hpart Hparts]. constructor; [|done].
      simpl. by rewrite Hc, Hpart.
Qed.

Lemma concat_empty_cons (part : string) (parts : list string) :
  String.concat EmptyString (part :: parts)
  = String.append part (String.concat EmptyString parts).
Proof.
  destruct parts as [|next parts].
  - simpl. by rewrite JsonFacts.append_nil_r.
  - change (String.concat EmptyString (part :: next :: parts))
      with (String.append part
              (String.append EmptyString (String.concat EmptyString (next :: parts)))).
    by rewrite JsonFacts.append_nil_l.
Qed.

Lemma firstLetters_chars (p : ascii → bool) parts :
  Forall (λ part, allChars p part = true) parts →
  allChars p (String.concat EmptyString (firstLetter <$> parts)) = true.
Proof.
  induction 1 as [|part parts Hpart _ IH]; [done|].
  rewrite fmap_cons, concat_empty_cons.
  destruct part as [|c part]; simpl in *.
  - by rewrite JsonFacts.append_nil_l.
  - rewrite JsonFacts.append_nil_l.
    apply andb_true_iff in Hpart as [-> _]. done.
Qed.

(** X17. The initials of a name of ASCII characters are one or two
    ASCII characters, never none, and none of them is a lower-case
    letter. *)
Theorem getInitials_one_or_two (name : string) :
  allChars isAsciiChar name = true →
  (1 ≤ String.length (getInitials name) ≤ 2)%nat ∧
  allChars isAsciiChar (getInitials name) = true ∧
  allChars (λ c, negb (isLowerCase c)) (getInitials name) = true.
Proof.
  intros Hascii. unfold getInitials.
  pose proof (toUpperCase_not_lower
                (String.concat EmptyString (firstLetter <$> split " " name))) as Hup.
  pose proof (firstLetters_chars _ _ (split_chars _ " " _ Hascii)) as Hletters.
  rewrite <- toUpperCase_ascii in Hletters.
  destruct (toUpperCase _) as [|a [|b rest]]; simpl in *.
  - split; [lia|done].
  - split; [lia|]. by rewrite Hletters, Hup.
  - assert (String.substring 0 0 rest = EmptyString) as -> by (by destruct rest).
    simpl. split; [lia|].
    apply andb_true_iff in Hup as [-> Hup]. apply andb_true_iff in Hup as [-> _].
    apply andb_true_iff in Hletters as [-> Hl]. apply andb_true_iff in Hl as [-> _].
    done.
Qed.

Lemma getInitials_one_or_two_witness :
  allChars isAsciiChar "ann lee" = true ∧
  getInitials "ann lee" = "AL"%string ∧
  (1 ≤ String.length (getInitials "ann lee") ≤ 2)%nat.
Proof.
  split; [reflexivity|]. split; [reflexivity|].
  exact (proj1 (getInitials_one_or_two "ann lee" eq_refl)).
Defined.

End ProfileTheorems.

Module AvatarTheorems.
Import Profile.

Lemma append_inj_r (p a b : string) :
  String.append p a = String.append p b → a = b.
Proof.
  induction p as [|c p IH]; [done|].
  rewrite !JsonFacts.append_cons. intros [= ?]. by apply IH.
Qed.

(** X18. Removing the avatar deletes the file the upload wrote exactly
    when the uploaded file's name ends in png, jpg, jpeg or webp, in lower
    case: a picture uploaded under any other extension stays in the
    storage. *)
Theorem handleRemoveAvatar_covers (userId avatar_url fileName path : string) :
  handleAvatarUpload userId fileName = Some path →
  avatar_url ≠ EmptyString →
  (path ∈ handleRemoveAvatar userId avatar_url
   ↔ fileExt fileName ∈ ["png"; "jpg"; "jpeg"; "webp"]%string).
Proof.
  unfold handleAvatarUpload, handleRemoveAvatar.
  destruct (String.eqb userId ""); [done|]. intros [= <-] Hurl.
  destruct (String.eqb_spec avatar_url "") as [|_]; [done|]. simpl.
  rewrite !elem_of_cons, !elem_of_nil.
  change "/avatar.png"%string with (String.append "/avatar." "png").
  change "/avatar.jpg"%string with (String.append "/avatar." "jpg").
  change "/avatar.jpeg"%string with (String.append "/avatar." "jpeg").
  change "/avatar.webp"%string with (String.append "/avatar." "webp").
  split.
  - intros [H|[H|[H|[H|[]]]]]; do 2 apply append_inj_r in H; rewrite H; auto.
  - intros [->|[->|[->|[->|[]]]]]; auto.
Qed.

Lemma handleRemoveAvatar_covers_witness :
  handleAvatarUpload "user-1" "me.photo.gif" = Some "user-1/avatar.gif"%string ∧
  ¬ ("user-1/avatar.gif"%string
       ∈ handleRemoveAvatar "user-1" "https://cdn.example.org/user-1/avatar.gif").
Proof.
  split; [reflexivity|].
  intros Hin.
  apply (handleRemoveAvatar_covers "user-1" "https://cdn.example.org/user-1/avatar.gif"
           "me.photo.gif" "user-1/avatar.gif" eq_refl) in Hin; [|discriminate].
  revert Hin. apply (bool_decide_unpack (fileExt "me.photo.gif" ∉ ["png"; "jpg"; "jpeg"; "webp"]%string)).
  vm_compute. exact I.
Defined.

End AvatarTheorems.

Module ActivityTheorems.
Import Activity.

Lemma profileName_found (profile : option UserProfile) :
  profileName profile ≠ EmptyString ∧
  (profileName profile = "Unknown User"%string ∨
   ∃ p, profile = Some p ∧ full_name p = Some (profileName profile)).
Proof.
  unfold profileName. destruct profile as [p|]; simpl; [|split; [done|by left]].
  destruct (full_name p) as [name|] eqn:E; [|split; [done|by left]].
  destruct (String.eqb_spec name "") as [->|Hne]; [split; [done|by left]|].
  split; [done|]. right. by exists p.
Qed.

(** X19. For a text, [getDisplayName] never returns the empty text, and a
    text that is neither empty, nor the word empty, nor shaped like an
    identifier is returned as it is. *)
Theorem getDisplayName_text (userProfiles : option (list UserProfile)) (s : string) :
  getDisplayName userProfiles (Text s) ≠ EmptyString ∧
  (s ≠ EmptyString → s ≠ "empty"%string → uuidPattern s = false →
   getDisplayName userProfiles (Text s) = s).
Proof.
  unfold getDisplayName.
  destruct (String.eqb_spec s "") as [->|Hne]; simpl; [done|].
  destruct (String.eqb_spec s "empty") as [->|Hne']; simpl; [done|].
  destruct (uuidPattern s).
  - split; [apply profileName_found|done].
  - done.
Qed.

(** X20. An identifier is replaced by a name: when what
    [getDisplayName] returns for a text is shaped like an identifier, it
    is the full name stored in the profile with that identifier. *)
Theorem getDisplayName_hides_identifiers
    (userProfiles : option (list UserProfile)) (s : string) :
  uuidPattern (getDisplayName userProfiles (Text s)) = true →
  ∃ profiles p, userProfiles = Some profiles ∧ p ∈ profiles ∧ id p = s ∧
                full_name p = Some (getDisplayName userProfiles (Text s)).
Proof.
  unfold getDisplayName.
  destruct (String.eqb s "" || String.eqb s "empty"); [done|].
  destruct (uuidPattern s) eqn:Hs; [|by rewrite Hs].
  destruct (profileName_found (userProfiles ≫= find (λ p, String.eqb (id p) s)))
    as [_ [->|(p & Hfind & Hname)]]; [done|].
  intros _. destruct userProfiles as [profiles|]; [|done]. simpl in Hfind.
  apply find_some in Hfind as [Hin Hid]. apply String.eqb_eq in Hid.
  exists profiles, p. split; [done|]. split; [by apply list_elem_of_In|done].
Qed.

Lemma getDisplayName_hides_identifiers_witness :
  let stored := "123e4567-e89b-12d3-a456-426614174000"%string in
  let named := "00000000-0000-0000-0000-000000000001"%string in
  let profiles := Some [mkProfile stored (Some named)] in
  uuidPattern (getDisplayName profiles (Text stored)) = true ∧
  ∃ ps p, profiles = Some ps ∧ p ∈ ps ∧ id p = stored ∧
          full_name p = Some (getDisplayName profiles (Text stored)).
Proof.
  cbv zeta. split; [reflexivity|].
  apply getDisplayName_hides_identifiers. reflexivity.
Defined.

End ActivityTheorems.

Module LeadsTheorems.
Import Leads ListFacts.

Lemma insertLead_Permutation a l : insertLead a l ≡ₚ a :: l.
Proof.
  induction l as [|b l IH]; simpl; [done|].
  destruct (compareLeads a b <=? 0); [done|]. rewrite IH. apply perm_swap.
Qed.

Lemma sortLeads_Permutation l : sortLeads l ≡ₚ l.
Proof.
  induction l as [|a l IH]; simpl; [done|].
  rewrite insertLead_Permutation. by f_equiv.
Qed.

Lemma length_filter_Permutation {A} (f : A → bool) (l l' : list A) :
  l ≡ₚ l' → length (List.filter f l) = length (List.filter f l').
Proof.
  induction 1 as [|a l l' _ IH|a b l|l1 l2 l3 _ IH1 _ IH2]; [done| | |congruence].
  - rewrite !length_filter_cons. lia.
  - rewrite !length_filter_cons. lia.
Qed.

(** The first lead of the sorted array is as late as any lead. *)
Lemma head_sortLeads l a :
  head (sortLeads l) = Some a → ∀ b, b ∈ l → timeOf b ≤ timeOf a.
Proof.
  revert a. induction l as [|x l IH]; intros a; simpl.
  - intros _ b Hb. by apply elem_of_nil in Hb.
  - destruct (sortLeads l) as [|y s] eqn:Hs; simpl.
    + intros [= <-] b Hb.
      assert (l = []) as ->.
      { apply Permutation_nil_r. by rewrite <- Hs, sortLeads_Permutation. }
      apply elem_of_cons in Hb as [->|Hb]; [lia|by apply elem_of_nil in Hb].
    + specialize (IH y eq_refl). unfold compareLeads.
      destruct (Z.leb_spec (timeOf y - timeOf x) 0); simpl; intros [= <-] b Hb.
      * apply elem_of_cons in Hb as [->|Hb]; [lia|]. specialize (IH b Hb). lia.
      * apply elem_of_cons in Hb as [->|Hb]; [lia|]. by apply IH.
Qed.

(** A lead has one status. *)
Lemma lead_status_once l :
  ((if hasStatus "New" l then 1 else 0) + (if hasStatus "Attempted" l then 1 else 0)
   + (if hasStatus "Follow-up" l then 1 else 0)
   + (if hasStatus "Qualified" l then 1 else 0) ≤ 1)%nat.
Proof.
  unfold hasStatus. destruct (lead_status l) as [s|]; [|simpl; lia].
  destruct (String.eqb_spec s "New") as [->|]; [simpl; lia|].
  destruct (String.eqb_spec s "Attempted") as [->|]; [simpl; lia|].
  destruct (String.eqb_spec s "Follow-up") as [->|]; [simpl; lia|].
  destruct (String.eqb s "Qualified"); simpl; lia.
Qed.

(** X21. Sorting the leads in place does not disturb the figures: the
    total is the number of rows, each count is the count of the rows with
    that status, and the four counts together are at most the total. *)
Theorem leadsStats_counts (data : option (list Lead)) :
  let stats := leadsStats data in
  let rows := default [] data in
  total stats = length rows ∧
  new stats = length (List.filter (hasStatus "New") rows) ∧
  attempted stats = length (List.filter (hasStatus "Attempted") rows) ∧
  followUp stats = length (List.filter (hasStatus "Follow-up") rows) ∧
  qualified stats = length (List.filter (hasStatus "Qualified") rows) ∧
  (new stats + attempted stats + followUp stats + qualified stats ≤ total stats)%nat.
Proof.
  cbv zeta. unfold leadsStats. cbn [total new attempted followUp qualified].
  pose proof (sortLeads_Permutation (default [] data)) as Hperm.
  rewrite !(length_filter_Permutation _ _ _ Hperm), (Permutation_length Hperm).
  repeat (split; [done|]).
  induction (default [] data) as [|l rows IH]; [done|].
  rewrite !length_filter_cons. cbn [length].
  pose proof (lead_status_once l).
  assert (sortLeads rows ≡ₚ rows) as Hrows by apply sortLeads_Permutation.
  specialize (IH Hrows). lia.
Qed.

(** X22. The lead named as the most recent one is the most recent one:
    when the figures name a lead, a row bears that name, the name is not
    empty, and no row has a later creation time. *)
Theorem leadsStats_recent_is_latest (data : option (list Lead)) (name : string) :
  recentLead (leadsStats data) = Some name →
  name ≠ EmptyString ∧
  ∃ l, l ∈ default [] data ∧ lead_name l = Some name ∧
       ∀ l', l' ∈ default [] data → timeOf l' ≤ timeOf l.
Proof.
  unfold leadsStats. cbn [recentLead].
  destruct (head (sortLeads (default [] data))) as [l|] eqn:Hhead; [|done]. simpl.
  destruct (lead_name l) as [n|] eqn:Hname; [|done].
  destruct (String.eqb_spec n "") as [|Hne]; [done|]. intros [= <-].
  split; [done|]. exists l. split; [|split; [done|]].
  - rewrite <- (sortLeads_Permutation (default [] data)).
    apply head_Some_elem_of. by rewrite Hhead.
  - by apply head_sortLeads.
Qed.

Lemma leadsStats_recent_is_latest_witness :
  let rows := Some [mkLead (Some "New") (Some "Acme") (Some 100);
                    mkLead (Some "Qualified") (Some "Globex") (Some 300);
                    mkLead None (Some "Initech") None] in
  recentLead (leadsStats rows) = Some "Globex"%string ∧
  ∃ l, l ∈ default [] rows ∧ lead_name l = Some "Globex"%string ∧
       ∀ l', l' ∈ default [] rows → timeOf l' ≤ timeOf l.
Proof.
  cbv zeta. split; [reflexivity|].
  apply (leadsStats_recent_is_latest _ "Globex"). reflexivity.
Defined.

End LeadsTheorems.

Module DealsTheorems.
Import Deals ListFacts.

Lemma inStage_eq name d : inStage name d = true ↔ stage d = Some name.
Proof.
  unfold inStage. destruct (stage d) as [s|]; [|done].
  rewrite String.eqb_eq. split; [by intros ->|by intros [= ->]].
Qed.

(** A deal is in exactly one of the four groups. *)
Lemma deal_group d :
  ((if isActive d then 1 else 0) + (if inStage "Won" d then 1 else 0)
   + (if inStage "Lost" d then 1 else 0) + (if inStage "Dropped" d then 1 else 0) = 1)%nat.
Proof.
  unfold isActive, inStage. destruct (stage d) as [s|]; [|done].
  destruct (String.eqb_spec s "Won") as [->|]; [done|].
  destruct (String.eqb_spec s "Lost") as [->|]; [done|].
  destruct (String.eqb_spec s "Dropped") as [->|]; done.
Qed.

(** A deal in one of the three early stages is active, and in one stage
    only. *)
Lemma deal_early_stage d :
  ((if inStage "Lead" d then 1 else 0) + (if inStage "Qualified" d then 1 else 0)
   + (if inStage "Discussions" d then 1 else 0) ≤ (if isActive d then 1 else 0))%nat.
Proof.
  unfold isActive, inStage. destruct (stage d) as [s|]; [|simpl; lia].
  destruct (String.eqb_spec s "Lead") as [->|]; [simpl; lia|].
  destruct (String.eqb_spec s "Qualified") as [->|]; [simpl; lia|].
  destruct (String.eqb_spec s "Discussions") as [->|]; [simpl; lia|].
  simpl. lia.
Qed.

Lemma sumValues_from (deals : list Deal) (start : Z) :
  foldl (λ sum d, sum + default 0 (total_contract_value d)) start deals
  = start + sumValues deals.
Proof.
  unfold sumValues. revert start. induction deals as [|d deals IH]; intros start.
  - simpl. lia.
  - cbn [foldl]. rewrite IH, (IH (0 + _)). lia.
Qed.

Lemma sumValues_cons d deals :
  sumValues (d :: deals) = default 0 (total_contract_value d) + sumValues deals.
Proof. unfold sumValues at 1. cbn [foldl]. rewrite sumValues_from. lia. Qed.

Lemma sumValues_filter (f : Deal → bool) deals :
  Forall (λ d, 0 ≤ default 0 (total_contract_value d)) deals →
  0 ≤ sumValues (List.filter f deals) ≤ sumValues deals.
Proof.
  induction 1 as [|d deals Hd _ IH]; [done|]. simpl.
  destruct (f d); rewrite !sumValues_cons; lia.
Qed.

(** X23. The deals of the user fall into four groups: active, won, lost
    and dropped.  The widget shows the first three, so their sum is the
    total less the dropped deals. *)
Theorem dealsStats_groups (userId : option string) (now monthEnd : Z)
    (data : option (list Deal)) :
  let stats := dealsStats userId now monthEnd data in
  total stats
  = (active stats + won stats + lost stats
     + length (List.filter (inStage "Dropped") (userDeals userId data)))%nat.
Proof.
  cbv zeta. unfold dealsStats. simpl.
  induction (userDeals userId data) as [|d deals IH]; [done|].
  rewrite !length_filter_cons. cbn [length]. pose proof (deal_group d). lia.
Qed.

(** X24. The deals counted by stage and the deals closing this month are
    active deals: the three stage counts together, and the count of deals
    closing this month, are at most the count of active deals. *)
Theorem dealsStats_within_active (userId : option string) (now monthEnd : Z)
    (data : option (list Deal)) :
  let stats := dealsStats userId now monthEnd data in
  (lead (byStage stats) + qualified (byStage stats) + discussions (byStage stats)
   ≤ active stats)%nat ∧
  (closingThisMonth stats ≤ active stats)%nat ∧
  (active stats ≤ total stats)%nat.
Proof.
  cbv zeta. unfold dealsStats. simpl. split; [|split].
  - induction (userDeals userId data) as [|d deals IH]; [done|].
    rewrite !length_filter_cons. pose proof (deal_early_stage d). lia.
  - apply length_filter_le.
  - apply length_filter_le.
Qed.

(** X25. When no deal has a negative value, the value of the deals closing
    this month is between zero and the value of the pipeline. *)
Theorem dealsStats_closing_value (userId : option string) (now monthEnd : Z)
    (data : option (list Deal)) :
  Forall (λ d, 0 ≤ default 0 (total_contract_value d)) (default [] data) →
  let stats := dealsStats userId now monthEnd data in
  0 ≤ closingValue stats ≤ totalPipeline stats.
Proof.
  intros Hpos. cbv zeta. unfold dealsStats. simpl. apply sumValues_filter.
  unfold userDeals. rewrite Forall_forall in *. intros d Hd. apply Hpos.
  apply list_elem_of_In. apply list_elem_of_In in Hd.
  apply filter_In in Hd as [Hd _]. by apply filter_In in Hd as [Hd _].
Qed.

Lemma dealsStats_closing_value_witness :
  let deals := Some [mkDeal (Some "Lead") (Some 500) (Some "user-1") None (Some 20);
                     mkDeal (Some "Qualified") None None (Some "user-1") (Some 90);
                     mkDeal (Some "Won") (Some 300) (Some "user-1") None (Some 20);
                     mkDeal (Some "Discussions") (Some 200) (Some "user-1") None None] in
  let stats := dealsStats (Some "user-1") 10 30 deals in
  closingValue stats = 500 ∧ totalPipeline stats = 700 ∧
  0 ≤ closingValue stats ≤ totalPipeline stats.
Proof.
  cbv zeta. split; [reflexivity|]. split; [reflexivity|].
  apply dealsStats_closing_value.
  apply (bool_decide_unpack (Forall (λ d, 0 ≤ default 0 (total_contract_value d)) _)).
  vm_compute. exact I.
Defined.

End DealsTheorems.

Module TasksTheorems.
Import Tasks ListFacts.

Lemma ltb_irrefl s : String.ltb s s = false.
Proof.
  unfold String.ltb. pose proof (String.compare_antisym s s) as H.
  by destruct (String.compare s s).
Qed.

(** A task is not both overdue and due today. *)
Lemma task_once today t :
  ((if isOverdue today t then 1 else 0) + (if isDueToday today t then 1 else 0) ≤ 1)%nat.
Proof.
  unfold isOverdue, isDueToday. destruct (due_date t) as [d|]; [|simpl; lia].
  destruct (String.eqb_spec d today) as [->|_].
  - rewrite ltb_irrefl, andb_false_r. lia.
  - destruct (_ && _); lia.
Qed.

(** X26. The reminders count no task twice: the overdue tasks and the
    tasks due today together are at most all tasks.  The tasks listed are
    the first five rows, all of them when there are five or fewer. *)
Theorem taskReminders_counts (today : string) (data : option (list Task)) :
  let reminders := taskReminders today data in
  (overdue reminders + dueToday reminders ≤ total reminders)%nat ∧
  length (tasks reminders) = (5 `min` total reminders)%nat ∧
  tasks reminders `prefix_of` default [] data.
Proof.
  cbv zeta. unfold taskReminders. cbn [tasks overdue dueToday total].
  split; [|split].
  - induction (default [] data) as [|t l IH]; [done|].
    rewrite !length_filter_cons. cbn [length].
    pose proof (task_once today t). lia.
  - apply length_take.
  - apply prefix_take.
Qed.

End TasksTheorems.

Module StatusFilterMoreTheorems.
Import StatusFilter.

(** X27. The value handed to the select is never empty, and the trigger
    is highlighted exactly when the badge is shown.  The select shows the
    entry for all statuses while the badge counts a filter exactly for the
    empty value. *)
Theorem select_and_badge (value : string) :
  selectValue (LeadStatusFilter value) ≠ EmptyString ∧
  ("border-primary ring-1 ring-primary/20"%string ∈ triggerClass (LeadStatusFilter value)
   ↔ is_Some (badge (LeadStatusFilter value))) ∧
  (selectValue (LeadStatusFilter value) = "all"%string ∧
   is_Some (badge (LeadStatusFilter value)) ↔ value = EmptyString).
Proof.
  unfold LeadStatusFilter. simpl.
  destruct (String.eqb_spec value "all") as [->|Hall]; simpl.
  - split; [done|]. split.
    + split; [|by intros [? ?]]. intros [?|?%elem_of_nil]%elem_of_cons; done.
    + split; [by intros [_ [? ?]]|done].
  - destruct (String.eqb_spec value "") as [->|Hempty].
    + split; [done|]. split; [|done]. split; [eauto|]. intros _. right. left.
    + split; [done|]. split.
      * split; [eauto|]. intros _. right. left.
      * split; [by intros [? _]|done].
Qed.

End StatusFilterMoreTheorems.
